(** * Placeholder-preserving XLIFF translation: the core of
      [auto_translate_localizables/translator.py]

    A shallow embedding of the placeholder codec, the skip policy, the
    placeholder validator, the per-unit translator and the per-file
    processor, followed by the properties stated about them.

    Python [str] values are sequences of Unicode code points; they are
    modelled as lists of code points ([N]).  The external collaborators
    (the translation service, the XML parser and serializer, and the check
    the XML back end makes on an assigned text) are section variables.
    Exceptions raised inside the outer [try] of [process_xliff_file] are
    explicit: a step returns or raises, and the handler takes over. *)

From Stdlib Require Import Ascii String DecimalNat.
From stdpp Require Import base numbers list gmap.

Local Open Scope N_scope.

(** ** Characters and strings *)

Definition char := N.
Definition str := list char.

(** [lit] turns an ASCII literal of the source into the modelled string. *)
Definition lit (x : string) : str := map N_of_ascii (list_ascii_of_string x).

Definition LF : char := 10.
Definition CR : char := 13.
Definition DOLLAR : char := 36.      (* $ *)
Definition PERCENT : char := 37.     (* % *)
Definition LPAREN : char := 40.      (* ( *)
Definition RPAREN : char := 41.      (* ) *)
Definition AT : char := 64.          (* @ *)
Definition UPPER_C : char := 67.
Definition UPPER_F : char := 70.
Definition UPPER_H : char := 72.
Definition UPPER_P : char := 80.
Definition UNDERSCORE : char := 95.
Definition LOWER_D : char := 100.
Definition LOWER_L : char := 108.
Definition LBRACE : char := 123.     (* { *)
Definition RBRACE : char := 125.     (* } *)

(** [str.isspace]: the code points CPython's [str.strip()] removes. *)
Definition is_space (c : char) : bool :=
  ((9 <=? c) && (c <=? 13)) || ((28 <=? c) && (c <=? 32))
  || (c =? 133) || (c =? 160) || (c =? 5760)
  || ((8192 <=? c) && (c <=? 8202))
  || (c =? 8232) || (c =? 8233) || (c =? 8239) || (c =? 8287) || (c =? 12288).

(** First code points of the runs of Unicode category Nd (Unicode 14); every
    run has ten digits except the mathematical digits at U+1D7CE (fifty). *)
Definition nd_run_starts : list N :=
  [ 48; 1632; 1776; 1984; 2406; 2534; 2662; 2790; 2918; 3046; 3174; 3302;
    3430; 3558; 3664; 3792; 3872; 4160; 4240; 6112; 6160; 6470; 6608; 6784;
    6800; 6992; 7088; 7232; 7248; 42528; 43216; 43264; 43472; 43504; 43600;
    44016; 65296; 66720; 68912; 69734; 69872; 69942; 70096; 70384; 70736;
    70864; 71248; 71360; 71472; 71904; 72016; 72784; 73040; 73120; 92768;
    92864; 93008; 123200; 123632; 125264; 130032 ].

(** [\d] of a [str] pattern: any decimal digit of category Nd. *)
Definition is_decimal (c : char) : bool :=
  existsb (fun lo => (lo <=? c) && (c <? lo + 10)) nd_run_starts
  || ((120782 <=? c) && (c <? 120832)).

(** The ASCII digits, the only ones [str(i)] produces. *)
Definition is_ascii_digit (c : char) : bool := (48 <=? c) && (c <=? 57).

(** [[@dlld]]: the class holds [@], [d] and [l]. *)
Definition in_spec_class (c : char) : bool :=
  (c =? AT) || (c =? LOWER_D) || (c =? LOWER_L).

(** ** Python string primitives *)

(** [s.startswith(p)] *)
Fixpoint starts_with (p s : str) : bool :=
  match p, s with
  | [], _ => true
  | _ :: _, [] => false
  | a :: p', b :: s' => (a =? b) && starts_with p' s'
  end.

(** [p in s] *)
Fixpoint contains (p s : str) : bool :=
  starts_with p s ||
  match s with
  | [] => false
  | _ :: s' => contains p s'
  end.

(** [s.lstrip()], [s.rstrip()], [s.strip()] *)
Fixpoint lstrip (s : str) : str :=
  match s with
  | [] => []
  | c :: s' => if is_space c then lstrip s' else s
  end.

Definition rstrip (s : str) : str := rev (lstrip (rev s)).

Definition strip (s : str) : str := rstrip (lstrip s).

(** [s.replace(old, new, 1)] for a non-empty [old]: the leftmost occurrence. *)
Fixpoint replace_first (old new s : str) : str :=
  match s with
  | [] => []
  | c :: s' =>
      if starts_with old s then new ++ drop (length old) s
      else c :: replace_first old new s'
  end.

(** [s.replace(old, new)] for a non-empty [old]: every occurrence, scanning
    left to right and resuming after each replaced occurrence.  [skip] counts
    the characters of the occurrence just replaced that remain to be passed. *)
Fixpoint replace_from (old new : str) (skip : nat) (s : str) : str :=
  match s with
  | [] => []
  | c :: s' =>
      match skip with
      | S k => replace_from old new k s'
      | O =>
          if starts_with old s
          then new ++ replace_from old new (length old - 1) s'
          else c :: replace_from old new 0 s'
      end
  end.

(** With an empty [old] Python inserts [new] before the first character
    (count 1), or around every character (no count). *)
Definition str_replace1 (old new s : str) : str :=
  match old with
  | [] => new ++ s
  | _ :: _ => replace_first old new s
  end.

Definition str_replace (old new s : str) : str :=
  match old with
  | [] => new ++ flat_map (fun c => c :: new) s
  | _ :: _ => replace_from old new 0 s
  end.

(** [sep.join(parts)] *)
Fixpoint join (sep : str) (parts : list str) : str :=
  match parts with
  | [] => []
  | [p] => p
  | p :: ps => p ++ sep ++ join sep ps
  end.

(** [str(n)] for a non-negative integer. *)
Fixpoint uint_chars (u : Decimal.uint) : str :=
  match u with
  | Decimal.Nil => []
  | Decimal.D0 u => 48 :: uint_chars u
  | Decimal.D1 u => 49 :: uint_chars u
  | Decimal.D2 u => 50 :: uint_chars u
  | Decimal.D3 u => 51 :: uint_chars u
  | Decimal.D4 u => 52 :: uint_chars u
  | Decimal.D5 u => 53 :: uint_chars u
  | Decimal.D6 u => 54 :: uint_chars u
  | Decimal.D7 u => 55 :: uint_chars u
  | Decimal.D8 u => 56 :: uint_chars u
  | Decimal.D9 u => 57 :: uint_chars u
  end.

Definition str_of_nat (n : nat) : str := uint_chars (Nat.to_uint n).

(** ** The placeholder pattern

    [PLACEHOLDER_PATTERN] is one group holding six alternatives.  The regex
    engine tries them in order at a position and keeps the first that
    matches; nothing follows the group, so an alternative that matches is
    never abandoned.  Each function returns the length of the match. *)

(** Length of the longest prefix whose characters satisfy [p] (a greedy
    [+] or [*] over a character class). *)
Fixpoint span (p : char -> bool) (s : str) : nat :=
  match s with
  | c :: s' => if p c then S (span p s') else O
  | [] => O
  end.

(** [%[@dlld]+] *)
Definition alt_spec (s : str) : option nat :=
  match s with
  | c :: r =>
      if c =? PERCENT then
        match span in_spec_class r with
        | O => None
        | S n => Some (S (S n))
        end
      else None
  | [] => None
  end.

(** [%\d+\$[@dlld]+]: no decimal digit is [$], so giving digits back never
    helps and the greedy run is the only candidate. *)
Definition alt_positional (s : str) : option nat :=
  match s with
  | c :: r =>
      if c =? PERCENT then
        match span is_decimal r with
        | O => None
        | S k =>
            match drop (S k) r with
            | c' :: r' =>
                if c' =? DOLLAR then
                  match span in_spec_class r' with
                  | O => None
                  | S n => Some (1 + S k + 1 + S n)%nat
                  end
                else None
            | [] => None
            end
        end
      else None
  | [] => None
  end.

(** [.*?\)]: the lazy star stops at the first [)]; [.] refuses a newline. *)
Fixpoint lazy_to_rparen (s : str) : option nat :=
  match s with
  | [] => None
  | c :: s' =>
      if c =? RPAREN then Some O
      else if c =? LF then None
      else S <$> lazy_to_rparen s'
  end.

(** [\$\(.*?\)] *)
Definition alt_variable (s : str) : option nat :=
  match s with
  | c1 :: c2 :: r =>
      if (c1 =? DOLLAR) && (c2 =? LPAREN)
      then (fun k => (2 + k + 1)%nat) <$> lazy_to_rparen r
      else None
  | _ => None
  end.

(** [\{\d+\}] *)
Definition alt_brace (s : str) : option nat :=
  match s with
  | c :: r =>
      if c =? LBRACE then
        match span is_decimal r with
        | O => None
        | S k =>
            match drop (S k) r with
            | c' :: _ => if c' =? RBRACE then Some (1 + S k + 1)%nat else None
            | [] => None
            end
        end
      else None
  | [] => None
  end.

(** The fifth alternative as the file spells it: U+00C2, U+00B0, then [C]
    or [F]. *)
Definition alt_degree (s : str) : option nat :=
  match s with
  | c1 :: c2 :: c3 :: _ =>
      if (c1 =? 194) && (c2 =? 176) && ((c3 =? UPPER_C) || (c3 =? UPPER_F))
      then Some 3%nat else None
  | _ => None
  end.

(** The sixth alternative as the file spells it: U+00F0, U+0178, U+2019,
    U+00A7. *)
Definition alt_drop (s : str) : option nat :=
  if starts_with [240; 376; 8217; 167] s then Some 4%nat else None.

Definition first_of (a b : option nat) : option nat :=
  match a with
  | Some n => Some n
  | None => b
  end.

(** [PLACEHOLDER_PATTERN.match(s)]: the length of the match at the start of
    [s], if any. *)
Definition match_at (s : str) : option nat :=
  first_of (alt_spec s)
    (first_of (alt_positional s)
       (first_of (alt_variable s)
          (first_of (alt_brace s)
             (first_of (alt_degree s) (alt_drop s))))).

(** The scan shared by [finditer], [findall] and [sub]: matches are sought
    left to right and do not overlap. *)
Inductive piece :=
  | Gap (c : char)
  | Match (m : str).

Fixpoint scan_from (skip : nat) (s : str) : list piece :=
  match s with
  | [] => []
  | c :: s' =>
      match skip with
      | S k => scan_from k s'
      | O =>
          match match_at s with
          | Some n => Match (take n s) :: scan_from (n - 1) s'
          | None => Gap c :: scan_from 0 s'
          end
      end
  end.

Definition scan (s : str) : list piece := scan_from 0 s.

(** [PLACEHOLDER_PATTERN.findall(s)] (one group, spanning the whole match),
    also [[m.group(0) for m in PLACEHOLDER_PATTERN.finditer(s)]]. *)
Definition findall (s : str) : list str :=
  flat_map (fun p => match p with Match m => [m] | Gap _ => [] end) (scan s).

(** [PLACEHOLDER_PATTERN.sub('', s)] *)
Definition sub_empty (s : str) : str :=
  flat_map (fun p => match p with Match _ => [] | Gap c => [c] end) (scan s).

(** ** [PlaceholderValidator] *)

(** Why [PlaceholderValidator.validate] rejects a translation; each
    constructor stands for one of its three messages. *)
Inductive validation_error :=
  | CountMismatch (n_original n_translated : nat)
  | MissingPlaceholders (missing : gset str)
  | ExtraPlaceholders (extra : gset str).

Module PlaceholderValidator.

Definition extract_placeholders (text : str) : list str := findall text.

Definition validate (original translated : str)
    : bool * option validation_error :=
  let original_placeholders := extract_placeholders original in
  let translated_placeholders := extract_placeholders translated in
  if negb (length original_placeholders =? length translated_placeholders)%nat
  then (false, Some (CountMismatch (length original_placeholders)
                                   (length translated_placeholders)))
  else
    let original_set : gset str := list_to_set original_placeholders in
    let translated_set : gset str := list_to_set translated_placeholders in
    let missing := original_set ∖ translated_set in
    if negb (bool_decide (missing = ∅))
    then (false, Some (MissingPlaceholders missing))
    else
      let extra := translated_set ∖ original_set in
      if negb (bool_decide (extra = ∅))
      then (false, Some (ExtraPlaceholders extra))
      else (true, None).

End PlaceholderValidator.

(** ** Messages *)

(** The [error_msg] strings of [translate_text]. *)
Inductive error_message :=
  | ValidationFailed (error : option validation_error)
  | TranslationError (e : str).

(** The text of the messages.  A Python set is iterated in an unspecified
    order; [elements] fixes one for [', '.join(missing)], and no statement
    below depends on it beyond the members listed. *)
Definition validation_error_text (e : validation_error) : str :=
  match e with
  | CountMismatch n m =>
      lit "Placeholder count mismatch: original has " ++ str_of_nat n
        ++ lit ", translated has " ++ str_of_nat m
  | MissingPlaceholders missing =>
      lit "Missing placeholders: " ++ join (lit ", ") (elements missing)
  | ExtraPlaceholders extra =>
      lit "Extra placeholders: " ++ join (lit ", ") (elements extra)
  end.

Definition error_message_text (msg : error_message) : str :=
  match msg with
  | ValidationFailed (Some e) =>
      lit "Placeholder validation failed: " ++ validation_error_text e
  | ValidationFailed None => lit "Placeholder validation failed: None"
  | TranslationError e => lit "Translation error: " ++ e
  end.

(** ** The world the translator acts on *)

(** One call [GoogleTranslator(source, target).translate(text)]. *)
Record request := {
  req_source_lang : str;
  req_target_lang : str;
  req_text : str
}.

(** What the call does: it returns a string or raises. *)
Inductive response :=
  | Translated (text : str)
  | Raises (e : str).

(** A file as stored: well-formed UTF-8, given by its code points with the
    line ends as stored, or bytes that are not UTF-8. *)
Inductive file_content :=
  | Utf8 (chars : str)
  | NotUtf8 (bytes : list N).

(** An entry of [self.errors]. *)
Record error_record := {
  er_file : str;
  er_text : str;
  er_error : error_message
}.

(** A line written by [print]. *)
Inductive console_line :=
  | WarningLine (msg : error_message)        (* "  [WARNING] ..." *)
  | ErrorProcessingLine (name : str)         (* "  [ERROR] Error processing ..." *)
  | FileLine (name : str)                    (* "[FILE] ..." *)
  | SummaryLine (translated errors : nat).   (* "  [..] Translated n entries (m errors)" *)

Record world := {
  w_disk : gmap str file_content;   (* path -> stored content *)
  w_calls : list request;           (* calls made to the service, oldest first *)
  w_stdout : list console_line;
  w_errors : list error_record;     (* self.errors *)
  w_sleeps : nat                    (* number of time.sleep(0.5) *)
}.

Definition call_service (r : request) (w : world) : world :=
  {| w_disk := w_disk w; w_calls := w_calls w ++ [r]; w_stdout := w_stdout w;
     w_errors := w_errors w; w_sleeps := w_sleeps w |}.

Definition print (l : console_line) (w : world) : world :=
  {| w_disk := w_disk w; w_calls := w_calls w; w_stdout := w_stdout w ++ [l];
     w_errors := w_errors w; w_sleeps := w_sleeps w |}.

Definition append_error (e : error_record) (w : world) : world :=
  {| w_disk := w_disk w; w_calls := w_calls w; w_stdout := w_stdout w;
     w_errors := w_errors w ++ [e]; w_sleeps := w_sleeps w |}.

Definition sleep (w : world) : world :=
  {| w_disk := w_disk w; w_calls := w_calls w; w_stdout := w_stdout w;
     w_errors := w_errors w; w_sleeps := S (w_sleeps w) |}.

Definition store (path : str) (c : file_content) (w : world) : world :=
  {| w_disk := <[path := c]> (w_disk w); w_calls := w_calls w;
     w_stdout := w_stdout w; w_errors := w_errors w; w_sleeps := w_sleeps w |}.

(** Text-mode reading ([open(path, 'r', encoding='utf-8')], universal
    newlines): [\r\n] and a lone [\r] come back as [\n]. *)
Fixpoint universal_newlines (s : str) : str :=
  match s with
  | [] => []
  | c :: s' =>
      if c =? CR then
        LF :: match s' with
              | [] => []
              | c' :: s'' =>
                  if c' =? LF then universal_newlines s''
                  else universal_newlines s'
              end
      else c :: universal_newlines s'
  end.

(** [f.read()] of a file opened in text mode; [None] when [open] or the
    decoding raises. *)
Definition read_text (path : str) (w : world) : option str :=
  match w_disk w !! path with
  | Some (Utf8 chars) => Some (universal_newlines chars)
  | Some (NotUtf8 _) => None
  | None => None
  end.

(** Text-mode writing ([open(path, 'w', encoding='utf-8')]): every [\n] goes
    out as [os.linesep]. *)
Definition write_text (os_linesep : str) (path : str) (s : str) (w : world)
    : world :=
  store path
    (Utf8 (flat_map (fun c => if c =? LF then os_linesep else [c]) s)) w.

(** A step inside the outer [try] of [process_xliff_file]: it returns, or it
    raises an exception the handler of that [try] catches, with the world
    as it was when the exception was raised. *)
Inductive attempt (A : Type) :=
  | Returns (a : A)
  | Raised (w : world).

Arguments Returns {A} a.
Arguments Raised {A} w.

Definition and_then {A B : Type} (r : attempt A) (f : A -> attempt B)
    : attempt B :=
  match r with
  | Returns a => f a
  | Raised w => Raised w
  end.

(** ** The document *)

(** A [<target>] element: its [text] and its [state] attribute. *)
Record target_element := {
  target_text : option str;
  target_state : option str
}.

(** A [<trans-unit>]: its [<source>] child (absent, or with its [text],
    itself possibly [None]) and its [<target>] child. *)
Record trans_unit := {
  unit_source : option (option str);
  unit_target : option target_element
}.

#[global] Instance target_element_eq_dec : EqDecision target_element.
Proof. solve_decision. Defined.

#[global] Instance trans_unit_eq_dec : EqDecision trans_unit.
Proof. solve_decision. Defined.

(** [xliff_path.name] *)
Fixpoint path_name_from (name : str) (path : str) : str :=
  match path with
  | [] => name
  | c :: rest =>
      if c =? 47 then path_name_from rest rest
      else path_name_from name rest
  end.

Definition path_name (path : str) : str := path_name_from path path.

Definition is_empty {A} (l : list A) : bool :=
  match l with
  | [] => true
  | _ :: _ => false
  end.

(** Truth value of an [Optional[str]]: [None] and [''] are false. *)
Definition truthy (o : option str) : bool :=
  match o with
  | None => false
  | Some s => negb (is_empty s)
  end.

Definition UNITS : list str :=
  map lit ["kg"; "lbs"; "ml"; "oz"; "min"; "sec"; "hr"; "km"; "mi"; "ft";
           "in"; "m"; "cm"]%string.

(** ** [XLIFFTranslator] *)

Module XLIFFTranslator.

(** [f"__PH{i}__"] *)
Definition marker (i : nat) : str := lit "__PH" ++ str_of_nat i ++ lit "__".

(** The [for i, match in enumerate(matches)] loop, from index [i] on. *)
Fixpoint extract_loop (i : nat) (matches : list str)
    (modified_text : str) (placeholders : list (str * str))
    : str * list (str * str) :=
  match matches with
  | [] => (modified_text, placeholders)
  | placeholder :: rest =>
      extract_loop (S i) rest
        (str_replace1 placeholder (marker i) modified_text)
        (placeholders ++ [(marker i, placeholder)])
  end.

Definition extract_placeholders (text : str) : str * list (str * str) :=
  extract_loop 0 (findall text) text [].

Definition restore_placeholders (text : str) (placeholders : list (str * str))
    : str :=
  fold_left (fun t mp => str_replace (fst mp) (snd mp) t) placeholders text.

Definition should_skip_translation (text : str) : bool :=
  if is_empty text || is_empty (strip text) then true
  else if bool_decide (strip text ∈ UNITS) then true
  else
    let clean_text := strip (sub_empty text) in
    if is_empty clean_text
       || bool_decide (clean_text ∈ map lit [ "."; ","; "!"; "?"; "..."; ":"; ";" ]%string)
    then true
    else false.

Section Translator.

(** The translation service: its answer may depend on the calls made
    before. *)
Variable service : list request -> request -> response.

(** [self.fail_on_placeholder_mismatch] *)
Variable fail_on_placeholder_mismatch : bool.

Definition translate_text (text target_lang source_lang : str) (w : world)
    : (str * option error_message) * world :=
  if should_skip_translation text then ((text, None), w)
  else
    let '(text_to_translate, placeholders) := extract_placeholders text in
    if is_empty (strip text_to_translate) then ((text, None), w)
    else
      let r := {| req_source_lang := source_lang;
                  req_target_lang := target_lang;
                  req_text := text_to_translate |} in
      let w1 := call_service r w in
      match service (w_calls w) r with
      | Raises e => ((text, Some (TranslationError e)), w1)
      | Translated translated =>
          let translated :=
            if negb (is_empty placeholders)
            then restore_placeholders translated placeholders
            else translated in
          let '(is_valid, error) :=
            PlaceholderValidator.validate text translated in
          if negb is_valid then
            let error_msg := ValidationFailed error in
            if fail_on_placeholder_mismatch
            then ((text, Some error_msg), w1)
            else ((translated, None), print (WarningLine error_msg) w1)
          else ((translated, None), w1)
      end.

End Translator.

Section Processor.

Variable service : list request -> request -> response.
Variable fail_on_placeholder_mismatch : bool.

(** The check the XML back end makes on each character of a text assigned
    to an element.  With [lxml] ([USING_LXML]) the assignment raises
    [ValueError] for a text that is not XML compatible (a NUL or another
    control character); [xml.etree.ElementTree] accepts every character. *)
Variable xml_char : char -> bool.

(** What the parsed tree holds besides its trans-units. *)
Variable xml_frame : Type.

(** [ET.parse] then [root.findall('.//xliff:trans-unit', ns)]; [None] when
    the parser raises. *)
Variable parse : file_content -> option (xml_frame * list trans_unit).

(** [tree.write(xliff_path, encoding='UTF-8', xml_declaration=True, ...)]:
    the content it leaves in the file; [None] when it raises. *)
Variable tree_write : xml_frame -> list trans_unit -> option file_content.

(** [os.linesep] *)
Variable os_linesep : str.

(** The variables of the loop over [trans_units]. *)
Record loop_state := {
  translated_count : nat;
  error_count : nat;
  modified : bool;
  ls_world : world
}.

(** Outcome of the [if / elif] chain on the target of a unit. *)
Inductive decision :=
  | NeedsTranslation
  | NoTranslation       (* [needs_translation] stays [False] *)
  | Continue.           (* the [continue] of the [only_missing] branch *)

Definition decide_target (only_missing : bool) (source_text : str)
    (target : option target_element) : decision :=
  match target with
  | None => NeedsTranslation
  | Some target =>
      if negb (truthy (target_text target))
         || is_empty (strip (default [] (target_text target)))
      then NeedsTranslation
      else if bool_decide (target_state target = Some (lit "needs-review-l10n"))
      then NeedsTranslation
      else if only_missing && truthy (target_text target)
              && bool_decide (strip (default [] (target_text target))
                              = strip source_text)
      then NeedsTranslation
      else if only_missing then Continue
      else NoTranslation
  end.

(** [ET.SubElement(unit, '...target')] (or [ET.Element('target')]
    inserted after the source): a target with no text and no state. *)
Definition new_target : target_element :=
  {| target_text := None; target_state := None |}.

(** [target.text = text] goes through. *)
Definition text_accepted (text : str) : bool := forallb xml_char text.

(** One iteration of [for unit in trans_units]. *)
Definition process_unit (xliff_path target_lang source_lang : str)
    (dry_run only_missing : bool) (unit : trans_unit) (st : loop_state)
    : attempt (trans_unit * loop_state) :=
  match unit_source unit with
  | None => Returns (unit, st)
  | Some None => Returns (unit, st)
  | Some (Some source_text) =>
      if is_empty (strip source_text) then Returns (unit, st)
      else
        match decide_target only_missing source_text (unit_target unit) with
        | Continue => Returns (unit, st)
        | NoTranslation => Returns (unit, st)
        | NeedsTranslation =>
            let target := default new_target (unit_target unit) in
            let '((translated_text, error), w1) :=
              translate_text service fail_on_placeholder_mismatch
                source_text target_lang source_lang (ls_world st) in
            let '(error_count', w2) :=
              match error with
              | Some e =>
                  (S (error_count st),
                   append_error {| er_file := path_name xliff_path;
                                   er_text := take 50 source_text;
                                   er_error := e |} w1)
              | None => (error_count st, w1)
              end in
            and_then
              (if negb dry_run
               then if text_accepted translated_text
                    then Returns ({| target_text := Some translated_text;
                                     target_state := Some (lit "translated") |},
                                  true)
                    else Raised w2
               else Returns (target, modified st))
              (fun '(target', modified') =>
                 let translated_count' := S (translated_count st) in
                 let w3 :=
                   if (translated_count' mod 10 =? 0)%nat then sleep w2
                   else w2 in
                 Returns ({| unit_source := unit_source unit;
                             unit_target := Some target' |},
                          {| translated_count := translated_count';
                             error_count := error_count';
                             modified := modified';
                             ls_world := w3 |}))
        end
  end.

(** The loop: an exception raised in an iteration ends it. *)
Fixpoint process_units (xliff_path target_lang source_lang : str)
    (dry_run only_missing : bool) (units : list trans_unit) (st : loop_state)
    : attempt (list trans_unit * loop_state) :=
  match units with
  | [] => Returns ([], st)
  | unit :: rest =>
      and_then
        (process_unit xliff_path target_lang source_lang dry_run only_missing
           unit st)
        (fun '(unit', st1) =>
           and_then
             (process_units xliff_path target_lang source_lang dry_run
                only_missing rest st1)
             (fun '(rest', st2) => Returns (unit' :: rest', st2)))
  end.

(** What a call leaves behind: the returned pair, the trans-units of the
    tree in memory when the call returns from inside the [try] (none when
    it returns from the handler), and the world. *)
Record outcome := {
  result : nat * nat;
  units_after : option (list trans_unit);
  world_after : world
}.

(** The handler of the outer [try]: report, and put [original_content]
    back when it was read. *)
Definition on_exception (xliff_path : str) (original_content : option str)
    (w : world) : outcome :=
  let w1 := print (ErrorProcessingLine (path_name xliff_path)) w in
  {| result := (0, 1)%nat;
     units_after := None;
     world_after :=
       match original_content with
       | Some c => write_text os_linesep xliff_path c w1
       | None => w1
       end |}.

Definition process_xliff_file (xliff_path target_lang source_lang : str)
    (dry_run only_missing : bool) (w : world) : outcome :=
  match read_text xliff_path w with
  | None => on_exception xliff_path None w
  | Some original_content =>
      match w_disk w !! xliff_path ≫= parse with
      | None => on_exception xliff_path (Some original_content) w
      | Some (frame, trans_units) =>
          match process_units xliff_path target_lang source_lang dry_run
                  only_missing trans_units
                  {| translated_count := 0; error_count := 0;
                     modified := false; ls_world := w |} with
          | Raised w1 => on_exception xliff_path (Some original_content) w1
          | Returns (units', st) =>
              let w1 := ls_world st in
              if negb dry_run && modified st then
                match tree_write frame units' with
                | None => on_exception xliff_path (Some original_content) w1
                | Some written =>
                    let w2 := store xliff_path written w1 in
                    match read_text xliff_path w2 with
                    | Some test_content =>
                        if negb (contains (lit "<?xml") (take 100 test_content))
                        then {| result := (0%nat, translated_count st);
                                units_after := Some units';
                                world_after :=
                                  write_text os_linesep xliff_path
                                    original_content w2 |}
                        else {| result := (translated_count st, error_count st);
                                units_after := Some units';
                                world_after := w2 |}
                    | None =>
                        {| result := (0%nat, translated_count st);
                           units_after := Some units';
                           world_after :=
                             write_text os_linesep xliff_path
                               original_content w2 |}
                    end
                end
              else {| result := (translated_count st, error_count st);
                      units_after := Some units';
                      world_after := w1 |}
          end
      end
  end.

(** The [for xliff_file in xliff_files] loop of [process_language_folder],
    filling [results]. *)
Fixpoint process_files (xliff_files : list str) (target_lang : str)
    (dry_run only_missing : bool) (results : gmap str (nat * nat))
    (w : world) : gmap str (nat * nat) * world :=
  match xliff_files with
  | [] => (results, w)
  | xliff_file :: rest =>
      let w1 := print (FileLine (path_name xliff_file)) w in
      let o := process_xliff_file xliff_file target_lang (lit "en")
                 dry_run only_missing w1 in
      let '(translated, errors) := result o in
      let w2 := print (SummaryLine translated errors) (world_after o) in
      process_files rest target_lang dry_run only_missing
        (<[path_name xliff_file := (translated, errors)]> results) w2
  end.

End Processor.

End XLIFFTranslator.

(** * Definitions following the wording of the specification *)

Definition PUNCTUATION : list str :=
  map lit [ "."; ","; "!"; "?"; "..."; ":"; ";" ]%string.

(** The skip policy as the specification words it: the remainder left by
    removing the placeholders is compared as it stands. *)
Definition skip_as_specified (text : str) : bool :=
  (is_empty text || forallb is_space text)
  || bool_decide (strip text ∈ UNITS)
  || (is_empty (sub_empty text) || bool_decide (sub_empty text ∈ PUNCTUATION)).


(** ** Readings of the codec used in the statements *)

(** [restore(extract(text))] *)
Definition roundtrip (text : str) : str :=
  let '(modified_text, placeholders) :=
    XLIFFTranslator.extract_placeholders text in
  XLIFFTranslator.restore_placeholders modified_text placeholders.

(** [s] starts with [P], [H] and an ASCII digit. *)
Definition starts_PHd (s : str) : bool :=
  match s with
  | c1 :: c2 :: c3 :: _ =>
      (c1 =? UPPER_P) && (c2 =? UPPER_H) && is_ascii_digit c3
  | _ => false
  end.

(** [PH] followed by an ASCII digit (the core of a marker) occurs in [s]. *)
Fixpoint has_PHd (s : str) : bool :=
  match s with
  | [] => false
  | _ :: s' => starts_PHd s || has_PHd s'
  end.

(** The characters markers are made of. *)
Definition is_marker_char (c : char) : bool :=
  (c =? UNDERSCORE) || (c =? UPPER_P) || (c =? UPPER_H) || is_ascii_digit c.

(** The text a list of pieces was scanned from. *)
Fixpoint render_orig (ps : list piece) : str :=
  match ps with
  | [] => []
  | Gap c :: ps' => c :: render_orig ps'
  | Match m :: ps' => m ++ render_orig ps'
  end.

(** The same text with the matches replaced by the markers numbered from
    [i]. *)
Fixpoint render_sub (i : nat) (ps : list piece) : str :=
  match ps with
  | [] => []
  | Gap c :: ps' => c :: render_sub i ps'
  | Match m :: ps' => XLIFFTranslator.marker i ++ render_sub (S i) ps'
  end.

Fixpoint matches (ps : list piece) : list str :=
  match ps with
  | [] => []
  | Gap _ :: ps' => matches ps'
  | Match m :: ps' => m :: matches ps'
  end.

(** The [(marker, placeholder)] pairs of the matches, numbered from [i]. *)
Fixpoint pairs_from (i : nat) (ms : list str) : list (str * str) :=
  match ms with
  | [] => []
  | m :: ms' => (XLIFFTranslator.marker i, m) :: pairs_from (S i) ms'
  end.

(** A list of pieces is what the scan yields on its own text: no match
    starts at a gap, and each match is the one found where it stands. *)
Inductive scanned : list piece -> Prop :=
  | scanned_nil : scanned []
  | scanned_gap c ps :
      match_at (c :: render_orig ps) = None ->
      scanned ps -> scanned (Gap c :: ps)
  | scanned_match m ps :
      match_at (m ++ render_orig ps) = Some (length m) ->
      scanned ps -> scanned (Match m :: ps).

(** No occurrence of [p] in [a ++ b] starts inside [a]. *)
Definition no_start (p a b : str) : Prop :=
  forall a1 a2, a = a1 ++ a2 -> a2 <> [] -> starts_with p (a2 ++ b) = false.

(** [s] starts with characters of the given classes, one after the other. *)
Fixpoint matches_classes (classes : list (char -> bool)) (s : str) : bool :=
  match classes, s with
  | [], _ => true
  | _ :: _, [] => false
  | p :: classes', c :: s' => p c && matches_classes classes' s'
  end.

(** How every marker starts: two underscores, [P], [H], a digit. *)
Definition marker_core : list (char -> bool) :=
  [N.eqb UNDERSCORE; N.eqb UNDERSCORE; N.eqb UPPER_P; N.eqb UPPER_H;
   is_ascii_digit].

(** [w] is empty or starts like a marker, with underscores. *)
Definition safe_tail (w : str) : bool :=
  match w with
  | [] => true
  | c1 :: w' =>
      (c1 =? UNDERSCORE)
      && match w' with
         | [] => true
         | c2 :: _ => c2 =? UNDERSCORE
         end
  end.

(** The six grammars of [PLACEHOLDER_PATTERN], as the shapes of the texts it
    matches. *)
Inductive placeholder_shape : str -> Prop :=
  | shape_spec (cs : str) :
      cs <> [] -> forallb in_spec_class cs = true ->
      placeholder_shape (PERCENT :: cs)
  | shape_positional (ds cs : str) :
      ds <> [] -> forallb is_decimal ds = true ->
      cs <> [] -> forallb in_spec_class cs = true ->
      placeholder_shape (PERCENT :: ds ++ DOLLAR :: cs)
  | shape_variable (body : str) :
      forallb (fun c : char => negb (c =? RPAREN) && negb (c =? LF)) body = true ->
      placeholder_shape (DOLLAR :: LPAREN :: body ++ [RPAREN])
  | shape_brace (ds : str) :
      ds <> [] -> forallb is_decimal ds = true ->
      placeholder_shape (LBRACE :: ds ++ [RBRACE])
  | shape_degree (c : char) :
      c = UPPER_C \/ c = UPPER_F ->
      placeholder_shape [194; 176; c]
  | shape_drop :
      placeholder_shape [240; 376; 8217; 167].

(** [m] is empty or ends with a character no marker holds. *)
Definition ends_outside_markers (m : str) : Prop :=
  m = [] \/ exists body c, m = body ++ [c] /\ is_marker_char c = false.

(** * Sample inputs *)

Definition empty_world : world :=
  {| w_disk := ∅; w_calls := []; w_stdout := []; w_errors := []; w_sleeps := 0 |}.

(** A service that answers every call with the same text, and one that
    always raises. *)
Definition answering (t : str) : list request -> request -> response :=
  fun _ _ => Translated t.

Definition failing (e : str) : list request -> request -> response :=
  fun _ _ => Raises e.

Definition drank_source : str := lit "You drank %lld ml today".

(** A message names a placeholder when the placeholder occurs in its text. *)
Definition names (msg : error_message) (placeholder : str) : bool :=
  contains placeholder (error_message_text msg).

(** ** Readings of the document used in the statements *)

(** The source of a unit is unusable: no source element, no text, or only
    white space. *)
Definition source_unusable (u : trans_unit) : bool :=
  match unit_source u with
  | None => true
  | Some None => true
  | Some (Some source_text) => forallb is_space source_text
  end.

(** The source text of a unit, empty when it has none. *)
Definition unit_source_text (u : trans_unit) : str :=
  match unit_source u with
  | Some (Some source_text) => source_text
  | _ => []
  end.

(** The units the loop is to translate, in the words of the specification:
    the source is usable and the target is absent, without text or blank,
    flagged for review, or, with [only_missing], equal to the source once
    both are trimmed. *)
Definition selected_for_translation (only_missing : bool) (u : trans_unit)
    : bool :=
  negb (source_unusable u)
  && match unit_target u with
     | None => true
     | Some target =>
         match target_text target with
         | None => true
         | Some t =>
             forallb is_space t
             || bool_decide (target_state target = Some (lit "needs-review-l10n"))
             || (only_missing
                 && bool_decide (strip t = strip (unit_source_text u)))
         end
     end.

(** The world when an iteration, or the loop, ended: on return or at the
    exception. *)
Definition loop_world {A : Type}
    (r : attempt (A * XLIFFTranslator.loop_state)) : world :=
  match r with
  | Returns (_, st) => XLIFFTranslator.ls_world st
  | Raised w => w
  end.

(** The text of the target of a unit, if it has both. *)
Definition unit_target_text (u : trans_unit) : option str :=
  unit_target u ≫= target_text.

(** The unit reaches the translation step of the loop. *)
Definition needs_translation (only_missing : bool) (u : trans_unit) : bool :=
  match unit_source u with
  | Some (Some source_text) =>
      negb (is_empty (strip source_text))
      && match XLIFFTranslator.decide_target only_missing source_text
                 (unit_target u) with
         | XLIFFTranslator.NeedsTranslation => true
         | _ => false
         end
  | _ => false
  end.

Definition hello_unit (target : option target_element) : trans_unit :=
  {| unit_source := Some (Some (lit "Hello")); unit_target := target |}.

Definition sample_path : str := lit "fr.xcloc/Localized Contents/fr.xliff".

(** An XLIFF document with the given body, its lines ended by
    [line_end]. *)
Definition document (body : str) (line_end : str) : str :=
  lit "<?xml version='1.0' encoding='UTF-8'?>" ++ line_end
  ++ lit "<xliff version='1.2' xmlns='urn:oasis:names:tc:xliff:document:1.2'>"
  ++ lit "<file><body>" ++ line_end
  ++ body ++ line_end
  ++ lit "</body></file></xliff>" ++ line_end.

Definition sample_xliff : str -> str :=
  document (lit "<trans-unit id='greeting'><source>Hello</source></trans-unit>").

Definition translated_xliff : str -> str :=
  document (lit "<trans-unit id='greeting'><source>Hello</source>"
            ++ lit "<target state='translated'>Bonjour</target></trans-unit>").

Definition kg_xliff : str -> str :=
  document (lit "<trans-unit id='unit'><source>kg</source>"
            ++ lit "<target state='translated'>kg</target></trans-unit>").

Definition world_with_file (path : str) (c : file_content) : world :=
  store path c empty_world.

Definition initial_state (w : world) : XLIFFTranslator.loop_state :=
  {| XLIFFTranslator.translated_count := 0; XLIFFTranslator.error_count := 0;
     XLIFFTranslator.modified := false; XLIFFTranslator.ls_world := w |}.

Definition blank_unit : trans_unit :=
  {| unit_source := Some (Some (lit "   ")); unit_target := None |}.

Definition kg_unit : trans_unit :=
  {| unit_source := Some (Some (lit "kg"));
     unit_target := Some {| target_text := Some (lit "kg");
                            target_state := Some (lit "translated") |} |}.

(** The sample documents, with [\n] line ends, and the trans-units the
    XML parser finds in each. *)
Definition sample_documents : list (str * list trans_unit) :=
  [ (sample_xliff [LF], [hello_unit None]);
    (translated_xliff [LF],
     [hello_unit (Some {| target_text := Some (lit "Bonjour");
                          target_state := Some (lit "translated") |})]);
    (kg_xliff [LF], [kg_unit]) ].

Fixpoint units_of (text : str) (table : list (str * list trans_unit))
    : option (list trans_unit) :=
  match table with
  | [] => None
  | (doc, units) :: table' =>
      if bool_decide (doc = text) then Some units else units_of text table'
  end.

Fixpoint document_of (units : list trans_unit)
    (table : list (str * list trans_unit)) : option str :=
  match table with
  | [] => None
  | (doc, units') :: table' =>
      if bool_decide (units' = units) then Some doc
      else document_of units table'
  end.

(** The parser on the samples: it finds the units of a sample document,
    whatever its line ends, and raises on the other contents the samples
    use, none of which is XML. *)
Definition sample_parse (c : file_content) : option (unit * list trans_unit) :=
  match c with
  | Utf8 chars =>
      (fun units => (tt, units))
        <$> units_of (universal_newlines chars) sample_documents
  | NotUtf8 _ => None
  end.

(** The tree writer on the samples: for the units of a sample document it
    leaves that document; the samples write no other units. *)
Definition sample_write (frame : unit) (units : list trans_unit)
    : option file_content :=
  Some (Utf8 (default (lit "<?xml version='1.0' encoding='UTF-8'?>" ++ [LF])
                (document_of units sample_documents))).

(** A write that is cut short and leaves an empty file, and one that
    raises. *)
Definition truncating_write (frame : unit) (units : list trans_unit)
    : option file_content :=
  Some (Utf8 []).

Definition raising_write (frame : unit) (units : list trans_unit)
    : option file_content :=
  None.

(** The characters [lxml] accepts in a text: tab, line feed, carriage
    return and everything from the space on, without the surrogates,
    U+FFFE and U+FFFF.  [any_char] is the check of
    [xml.etree.ElementTree], which makes none. *)
Definition lxml_char (c : char) : bool :=
  (c =? 9) || (c =? 10) || (c =? 13)
  || ((32 <=? c) && (c <=? 55295))
  || ((57344 <=? c) && (c <=? 65533))
  || ((65536 <=? c) && (c <=? 1114111)).

Definition any_char (c : char) : bool := true.

(** An answer of the service that holds a control character (U+0007). *)
Definition answer_with_bell : str := lit "Bon" ++ [7] ++ lit "jour".

Definition needs_review : target_element :=
  {| target_text := Some (lit "Bonjour");
     target_state := Some (lit "needs-review-l10n") |}.

Definition padded_copy : target_element :=
  {| target_text := Some (lit " Hello "); target_state := None |}.

Definition verbatim_copy : target_element :=
  {| target_text := Some (lit "Hello"); target_state := None |}.

Definition already_translated : target_element :=
  {| target_text := Some (lit "Bonjour"); target_state := Some (lit "translated") |}.

(** The check made on the file after [tree.write]: it can be read back as
    text and ["<?xml"] occurs in its first hundred characters. *)
Definition verified (c : file_content) : bool :=
  match c with
  | Utf8 chars => contains (lit "<?xml") (take 100 (universal_newlines chars))
  | NotUtf8 _ => false
  end.

(** What text-mode writing stores for [s]. *)
Definition with_linesep (os_linesep s : str) : str :=
  flat_map (fun c => if c =? LF then os_linesep else [c]) s.

(** * Tactics *)

(** Turns the boolean facts at hand into equations between characters and
    closes the goal when they clash. *)
Ltac char_facts :=
  repeat match goal with
    | H : (_ && _) = true |- _ => apply andb_true_iff in H; destruct H
    | H : (_ || _) = false |- _ => apply orb_false_iff in H; destruct H
    | H : (?a =? ?b) = true |- _ =>
        apply N.eqb_eq in H;
        first [subst a | subst b | discriminate H | clear H]
    | H : true = false |- _ => discriminate H
    | H : false = true |- _ => discriminate H
    end.

Ltac char_clash :=
  cbn [matches_classes marker_core safe_tail has_PHd starts_PHd app drop] in *;
  try reflexivity;
  apply not_true_is_false; intros ?;
  char_facts;
  cbn [matches_classes marker_core safe_tail has_PHd starts_PHd app drop] in *;
  repeat match goal with
    | H : is_ascii_digit ?c = true, H' : context [is_ascii_digit ?c] |- _ =>
        rewrite H in H'
    end;
  try discriminate;
  repeat match goal with
    | H : context [?a =? ?b] |- _ =>
        let v := eval vm_compute in (a =? b) in
        change (a =? b) with v in H
    end;
  cbn [andb orb] in *; char_facts; try discriminate.

(** * [language_map.py] *)

(** The entries of [LANGUAGE_MAP], in the order of the source; no key occurs
    twice. *)
Definition LANGUAGE_MAP_items : list (str * str) :=
  [
    (lit "af", lit "af");
    (lit "sq", lit "sq");
    (lit "am", lit "am");
    (lit "ar", lit "ar");
    (lit "hy", lit "hy");
    (lit "az", lit "az");
    (lit "eu", lit "eu");
    (lit "be", lit "be");
    (lit "bn", lit "bn");
    (lit "bs", lit "bs");
    (lit "bg", lit "bg");
    (lit "ca", lit "ca");
    (lit "ceb", lit "ceb");
    (lit "ny", lit "ny");
    (lit "zh-Hans", lit "zh-CN");
    (lit "zh-Hant", lit "zh-TW");
    (lit "co", lit "co");
    (lit "hr", lit "hr");
    (lit "cs", lit "cs");
    (lit "da", lit "da");
    (lit "nl", lit "nl");
    (lit "en", lit "en");
    (lit "eo", lit "eo");
    (lit "et", lit "et");
    (lit "tl", lit "tl");
    (lit "fi", lit "fi");
    (lit "fr", lit "fr");
    (lit "fy", lit "fy");
    (lit "gl", lit "gl");
    (lit "ka", lit "ka");
    (lit "de", lit "de");
    (lit "el", lit "el");
    (lit "gu", lit "gu");
    (lit "ht", lit "ht");
    (lit "ha", lit "ha");
    (lit "haw", lit "haw");
    (lit "he", lit "he");
    (lit "iw", lit "iw");
    (lit "hi", lit "hi");
    (lit "hmn", lit "hmn");
    (lit "hu", lit "hu");
    (lit "is", lit "is");
    (lit "ig", lit "ig");
    (lit "id", lit "id");
    (lit "ga", lit "ga");
    (lit "it", lit "it");
    (lit "ja", lit "ja");
    (lit "jw", lit "jw");
    (lit "kn", lit "kn");
    (lit "kk", lit "kk");
    (lit "km", lit "km");
    (lit "ko", lit "ko");
    (lit "ku", lit "ku");
    (lit "ky", lit "ky");
    (lit "lo", lit "lo");
    (lit "la", lit "la");
    (lit "lv", lit "lv");
    (lit "lt", lit "lt");
    (lit "lb", lit "lb");
    (lit "mk", lit "mk");
    (lit "mg", lit "mg");
    (lit "ms", lit "ms");
    (lit "ml", lit "ml");
    (lit "mt", lit "mt");
    (lit "mi", lit "mi");
    (lit "mr", lit "mr");
    (lit "mn", lit "mn");
    (lit "my", lit "my");
    (lit "ne", lit "ne");
    (lit "no", lit "no");
    (lit "nb", lit "no");
    (lit "or", lit "or");
    (lit "ps", lit "ps");
    (lit "fa", lit "fa");
    (lit "pl", lit "pl");
    (lit "pt", lit "pt");
    (lit "pt-BR", lit "pt");
    (lit "pt-PT", lit "pt");
    (lit "pa", lit "pa");
    (lit "ro", lit "ro");
    (lit "ru", lit "ru");
    (lit "sm", lit "sm");
    (lit "gd", lit "gd");
    (lit "sr", lit "sr");
    (lit "st", lit "st");
    (lit "sn", lit "sn");
    (lit "sd", lit "sd");
    (lit "si", lit "si");
    (lit "sk", lit "sk");
    (lit "sl", lit "sl");
    (lit "so", lit "so");
    (lit "es", lit "es");
    (lit "es-419", lit "es");
    (lit "es-US", lit "es");
    (lit "es-MX", lit "es");
    (lit "su", lit "su");
    (lit "sw", lit "sw");
    (lit "sv", lit "sv");
    (lit "tg", lit "tg");
    (lit "ta", lit "ta");
    (lit "te", lit "te");
    (lit "th", lit "th");
    (lit "tr", lit "tr");
    (lit "uk", lit "uk");
    (lit "ur", lit "ur");
    (lit "ug", lit "ug");
    (lit "uz", lit "uz");
    (lit "vi", lit "vi");
    (lit "cy", lit "cy");
    (lit "xh", lit "xh");
    (lit "yi", lit "yi");
    (lit "yo", lit "yo");
    (lit "zu", lit "zu")
  ].

Definition LANGUAGE_MAP : gmap str str := list_to_map LANGUAGE_MAP_items.

(** The entries of [LANGUAGE_NAMES], in the order of the source; no key
    occurs twice. *)
Definition LANGUAGE_NAMES_items : list (str * str) :=
  [
    (lit "af", lit "Afrikaans");
    (lit "sq", lit "Albanian");
    (lit "am", lit "Amharic");
    (lit "ar", lit "Arabic");
    (lit "hy", lit "Armenian");
    (lit "az", lit "Azerbaijani");
    (lit "eu", lit "Basque");
    (lit "be", lit "Belarusian");
    (lit "bn", lit "Bengali");
    (lit "bs", lit "Bosnian");
    (lit "bg", lit "Bulgarian");
    (lit "ca", lit "Catalan");
    (lit "ceb", lit "Cebuano");
    (lit "ny", lit "Chichewa");
    (lit "zh-Hans", lit "Chinese (Simplified)");
    (lit "zh-Hant", lit "Chinese (Traditional)");
    (lit "co", lit "Corsican");
    (lit "hr", lit "Croatian");
    (lit "cs", lit "Czech");
    (lit "da", lit "Danish");
    (lit "nl", lit "Dutch");
    (lit "en", lit "English");
    (lit "eo", lit "Esperanto");
    (lit "et", lit "Estonian");
    (lit "tl", lit "Filipino");
    (lit "fi", lit "Finnish");
    (lit "fr", lit "French");
    (lit "fy", lit "Frisian");
    (lit "gl", lit "Galician");
    (lit "ka", lit "Georgian");
    (lit "de", lit "German");
    (lit "el", lit "Greek");
    (lit "gu", lit "Gujarati");
    (lit "ht", lit "Haitian Creole");
    (lit "ha", lit "Hausa");
    (lit "haw", lit "Hawaiian");
    (lit "he", lit "Hebrew");
    (lit "hi", lit "Hindi");
    (lit "hmn", lit "Hmong");
    (lit "hu", lit "Hungarian");
    (lit "is", lit "Icelandic");
    (lit "ig", lit "Igbo");
    (lit "id", lit "Indonesian");
    (lit "ga", lit "Irish");
    (lit "it", lit "Italian");
    (lit "ja", lit "Japanese");
    (lit "jw", lit "Javanese");
    (lit "kn", lit "Kannada");
    (lit "kk", lit "Kazakh");
    (lit "km", lit "Khmer");
    (lit "ko", lit "Korean");
    (lit "ku", lit "Kurdish");
    (lit "ky", lit "Kyrgyz");
    (lit "lo", lit "Lao");
    (lit "la", lit "Latin");
    (lit "lv", lit "Latvian");
    (lit "lt", lit "Lithuanian");
    (lit "lb", lit "Luxembourgish");
    (lit "mk", lit "Macedonian");
    (lit "mg", lit "Malagasy");
    (lit "ms", lit "Malay");
    (lit "ml", lit "Malayalam");
    (lit "mt", lit "Maltese");
    (lit "mi", lit "Maori");
    (lit "mr", lit "Marathi");
    (lit "mn", lit "Mongolian");
    (lit "my", lit "Myanmar");
    (lit "ne", lit "Nepali");
    (lit "no", lit "Norwegian");
    (lit "nb", lit "Norwegian Bokm" ++ [229] ++ lit "l");
    (lit "or", lit "Odia");
    (lit "ps", lit "Pashto");
    (lit "fa", lit "Persian");
    (lit "pl", lit "Polish");
    (lit "pt", lit "Portuguese");
    (lit "pt-BR", lit "Portuguese (Brazil)");
    (lit "pt-PT", lit "Portuguese (Portugal)");
    (lit "pa", lit "Punjabi");
    (lit "ro", lit "Romanian");
    (lit "ru", lit "Russian");
    (lit "sm", lit "Samoan");
    (lit "gd", lit "Scots Gaelic");
    (lit "sr", lit "Serbian");
    (lit "st", lit "Sesotho");
    (lit "sn", lit "Shona");
    (lit "sd", lit "Sindhi");
    (lit "si", lit "Sinhala");
    (lit "sk", lit "Slovak");
    (lit "sl", lit "Slovenian");
    (lit "so", lit "Somali");
    (lit "es", lit "Spanish");
    (lit "es-419", lit "Spanish (Latin America)");
    (lit "es-US", lit "Spanish (US)");
    (lit "es-MX", lit "Spanish (Mexico)");
    (lit "su", lit "Sundanese");
    (lit "sw", lit "Swahili");
    (lit "sv", lit "Swedish");
    (lit "tg", lit "Tajik");
    (lit "ta", lit "Tamil");
    (lit "te", lit "Telugu");
    (lit "th", lit "Thai");
    (lit "tr", lit "Turkish");
    (lit "uk", lit "Ukrainian");
    (lit "ur", lit "Urdu");
    (lit "ug", lit "Uyghur");
    (lit "uz", lit "Uzbek");
    (lit "vi", lit "Vietnamese");
    (lit "cy", lit "Welsh");
    (lit "xh", lit "Xhosa");
    (lit "yi", lit "Yiddish");
    (lit "yo", lit "Yoruba");
    (lit "zu", lit "Zulu")
  ].

Definition LANGUAGE_NAMES : gmap str str := list_to_map LANGUAGE_NAMES_items.

(** [LANGUAGE_MAP.get(xcode_locale)] *)
Definition get_google_translate_code (xcode_locale : str) : option str :=
  LANGUAGE_MAP !! xcode_locale.

(** [lang_code in LANGUAGE_MAP] *)
Definition validate_language_code (lang_code : str) : bool :=
  bool_decide (is_Some (LANGUAGE_MAP !! lang_code)).

(** [LANGUAGE_NAMES.get(lang_code, lang_code.upper())]; [upper] stands for
    [str.upper]. *)
Definition get_language_name (upper : str -> str) (lang_code : str) : str :=
  default (upper lang_code) (LANGUAGE_NAMES !! lang_code).

(** * [process_language_folder] and [process_all_languages] *)

(** A line printed by the two functions that walk the folders. *)
Inductive batch_line :=
  | FolderNotFoundLine (lang_folder : str)       (* "[WARNING] Folder not found: ..." *)
  | NoMappingLine (lang_code : str)              (* "[WARNING] No language mapping for: ..." *)
  | ProcessingLines (lang_code target_lang : str)  (* the three lines around "Processing .. -> .." *)
  | NoFilesLine (lang_folder : str)              (* "  [WARNING] No XLIFF files found in ..." *)
  | BannerLines (skip_languages : list str) (dry_run only_missing : bool)
                                                 (* the lines around "XLIFF Bulk Translation" *)
  | SkipLine (lang_code : str).                  (* "[SKIP] ..." *)

(** The world of a batch: the world of the files; the lines printed by the
    folder walk, each with the number of lines the file processing had
    printed before it; and the number of [time.sleep(1)]. *)
Record batch_state := {
  bs_world : world;
  bs_lines : list (nat * batch_line);
  bs_pauses : nat
}.

Definition batch_print (l : batch_line) (s : batch_state) : batch_state :=
  {| bs_world := bs_world s;
     bs_lines := bs_lines s ++ [(length (w_stdout (bs_world s)), l)];
     bs_pauses := bs_pauses s |}.

Definition batch_pause (s : batch_state) : batch_state :=
  {| bs_world := bs_world s; bs_lines := bs_lines s;
     bs_pauses := S (bs_pauses s) |}.

Definition with_world (w : world) (s : batch_state) : batch_state :=
  {| bs_world := w; bs_lines := bs_lines s; bs_pauses := bs_pauses s |}.

Section Batch.

Variable service : list request -> request -> response.
Variable fail_on_placeholder_mismatch : bool.
Variable xml_char : char -> bool.
Variable xml_frame : Type.
Variable parse : file_content -> option (xml_frame * list trans_unit).
Variable tree_write : xml_frame -> list trans_unit -> option file_content.
Variable os_linesep : str.

(** [(self.workspace_dir / name).exists()], for the name of a folder. *)
Variable folder_exists : str -> bool.

(** [list(lang_folder.glob("**/*.xliff"))], for the name of a folder. *)
Variable glob_xliff : str -> list str.

(** The names of [sorted(self.workspace_dir.glob("*.xcloc"))]. *)
Variable xcloc_folders : list str.

(** [f"{lang_code}.xcloc"] *)
Definition xcloc_name (lang_code : str) : str := lang_code ++ lit ".xcloc".

Definition process_language_folder (lang_code : str)
    (dry_run only_missing : bool) (s : batch_state)
    : gmap str (nat * nat) * batch_state :=
  let lang_folder := xcloc_name lang_code in
  if negb (folder_exists lang_folder)
  then (∅, batch_print (FolderNotFoundLine lang_folder) s)
  else
    let target_lang := get_google_translate_code lang_code in
    if negb (truthy target_lang)
    then (∅, batch_print (NoMappingLine lang_code) s)
    else
      let target_lang := default [] target_lang in
      let s1 := batch_print (ProcessingLines lang_code target_lang) s in
      let xliff_files := glob_xliff lang_folder in
      if is_empty xliff_files
      then (∅, batch_print (NoFilesLine lang_folder) s1)
      else
        let '(results, w) :=
          XLIFFTranslator.process_files service fail_on_placeholder_mismatch
            xml_char xml_frame parse tree_write os_linesep xliff_files
            target_lang
            dry_run only_missing ∅ (bs_world s1) in
        (results, with_world w s1).

(** The [for lang_folder in sorted(lang_folders)] loop, filling
    [results]. *)
Fixpoint process_folders (folders : list str) (skip_languages : list str)
    (dry_run only_missing : bool)
    (results : gmap str (gmap str (nat * nat))) (s : batch_state)
    : gmap str (gmap str (nat * nat)) * batch_state :=
  match folders with
  | [] => (results, s)
  | lang_folder :: rest =>
      let lang_code := str_replace (lit ".xcloc") [] lang_folder in
      if bool_decide (lang_code ∈ skip_languages)
      then process_folders rest skip_languages dry_run only_missing results
             (batch_print (SkipLine lang_code) s)
      else
        let '(lang_results, s1) :=
          process_language_folder lang_code dry_run only_missing s in
        process_folders rest skip_languages dry_run only_missing
          (<[lang_code := lang_results]> results) (batch_pause s1)
  end.

(** [skip_languages or ['en']]: [None] and the empty list give [['en']]. *)
Definition effective_skip (skip_languages : option (list str)) : list str :=
  match skip_languages with
  | Some (x :: l) => x :: l
  | _ => [lit "en"]
  end.

Definition process_all_languages (skip_languages : option (list str))
    (dry_run only_missing : bool) (s : batch_state)
    : gmap str (gmap str (nat * nat)) * batch_state :=
  let skip_languages := effective_skip skip_languages in
  let s1 := batch_print (BannerLines skip_languages dry_run only_missing) s in
  process_folders xcloc_folders skip_languages dry_run only_missing ∅ s1.

End Batch.

Definition empty_batch : batch_state :=
  {| bs_world := empty_world; bs_lines := []; bs_pauses := 0 |}.

Definition sample_world : world :=
  world_with_file sample_path (Utf8 (sample_xliff [LF])).
(** * Properties *)

(** ** The model on sample texts *)

Example findall_sample :
  findall (lit "a %1$@ $(x y) {12} %dl% $(a")
  = [lit "%1$@"; lit "$(x y)"; lit "{12}"; lit "%dl"].
Proof. vm_compute. reflexivity. Qed.

Example extract_placeholders_sample :
  XLIFFTranslator.extract_placeholders drank_source
  = (lit "You drank __PH0__ ml today", [(lit "__PH0__", lit "%lld")]).
Proof. vm_compute. reflexivity. Qed.

Example roundtrip_sample :
  roundtrip (lit "%d%dPH0%d") = lit "%d__PH1%dPH2__".
Proof. vm_compute. reflexivity. Qed.

Example validate_sample :
  PlaceholderValidator.validate (lit "a %d b %@") (lit "a %@ b %d") = (true, None)
  /\ error_message_text
       (ValidationFailed
          (snd (PlaceholderValidator.validate (lit "a %d b %@") (lit "a %@ b %@"))))
     = lit "Placeholder validation failed: Missing placeholders: %d".
Proof. vm_compute. split; reflexivity. Qed.

Example universal_newlines_sample :
  universal_newlines (lit "a" ++ [CR; LF] ++ lit "b" ++ [CR] ++ lit "c" ++ [LF])
  = lit "a" ++ [LF] ++ lit "b" ++ [LF] ++ lit "c" ++ [LF].
Proof. vm_compute. reflexivity. Qed.

(** ** Strings *)

Lemma starts_with_app (p s : str) : starts_with p (p ++ s) = true.
Proof.
  induction p as [|a p IH]; simpl; [reflexivity|].
  rewrite N.eqb_refl. exact IH.
Qed.

Lemma starts_with_inv (p s : str) :
  starts_with p s = true -> exists r, s = p ++ r.
Proof.
  revert s. induction p as [|a p IH]; intros s H; simpl in *.
  - exists s. reflexivity.
  - destruct s as [|b s]; [discriminate|].
    apply andb_true_iff in H as [Hab H]. apply N.eqb_eq in Hab. subst b.
    destruct (IH s H) as [r ->]. exists r. reflexivity.
Qed.

(** A pattern matched against [a ++ b] ends inside [a] or runs through it. *)
Lemma starts_with_app_cases (p a b : str) :
  starts_with p (a ++ b) = true ->
  (exists a2, a = p ++ a2) \/ (exists p2, p = a ++ p2 /\ starts_with p2 b = true).
Proof.
  revert a. induction p as [|c p IH]; intros a H.
  - left. exists a. reflexivity.
  - destruct a as [|d a].
    + right. exists (c :: p). auto.
    + simpl in H. apply andb_true_iff in H as [Hcd H].
      apply N.eqb_eq in Hcd. subst d.
      destruct (IH a H) as [[a2 ->]|(p2 & -> & Hp2)].
      * left. exists a2. reflexivity.
      * right. exists p2. auto.
Qed.

Lemma no_start_nil (p b : str) : no_start p [] b.
Proof.
  intros a1 a2 H Hne. symmetry in H. apply app_eq_nil in H as [_ ->].
  contradiction.
Qed.

Lemma no_start_app (p a a' b : str) :
  no_start p a (a' ++ b) -> no_start p a' b -> no_start p (a ++ a') b.
Proof.
  intros Ha Ha' a1 a2 H Hne.
  apply app_eq_app in H as [l [[H1 H2]|[H1 H2]]].
  - subst a a2. destruct l as [|c l].
    + simpl in *. apply (Ha' [] a'); [reflexivity | assumption].
    + rewrite <- app_assoc. apply (Ha a1 (c :: l)); [reflexivity | discriminate].
  - subst a1 a'. apply (Ha' l a2); [reflexivity | assumption].
Qed.

Lemma no_start_cons (p : str) (c : char) (a b : str) :
  starts_with p (c :: a ++ b) = false -> no_start p a b -> no_start p (c :: a) b.
Proof.
  intros Hc Ha. apply (no_start_app p [c] a b); [|assumption].
  intros a1 a2 H Hne. destruct a1 as [|x a1].
  - simpl in H. subst a2. exact Hc.
  - injection H as _ H. symmetry in H. apply app_eq_nil in H as [_ ->].
    contradiction.
Qed.

Lemma replace_first_no_start (old new a b : str) :
  no_start old a b ->
  replace_first old new (a ++ b) = a ++ replace_first old new b.
Proof.
  induction a as [|c a IH]; intros H; [reflexivity|].
  pose proof (H [] (c :: a) eq_refl ltac:(discriminate)) as H0.
  change ((c :: a) ++ b) with (c :: (a ++ b)) in *.
  cbn [replace_first]. rewrite H0.
  change ((c :: a) ++ replace_first old new b)
    with (c :: (a ++ replace_first old new b)).
  f_equal. apply IH. intros a1 a2 -> Hne.
  apply (H (c :: a1) a2); [reflexivity | assumption].
Qed.

Lemma replace_first_here (old new b : str) :
  old <> [] -> replace_first old new (old ++ b) = new ++ b.
Proof.
  intros Hne. destruct old as [|c old]; [contradiction|].
  change ((c :: old) ++ b) with (c :: (old ++ b)).
  cbn [replace_first].
  change (c :: old ++ b) with ((c :: old) ++ b).
  rewrite starts_with_app, drop_app_length. reflexivity.
Qed.

Lemma replace_from_skip (old new : str) (k : nat) (s : str) :
  replace_from old new k s = replace_from old new 0 (drop k s).
Proof.
  revert k. induction s as [|c s IH]; intros k.
  - destruct k; reflexivity.
  - destruct k as [|k]; [reflexivity|]. simpl. apply IH.
Qed.

Lemma replace_from_no_start (old new a b : str) :
  no_start old a b ->
  replace_from old new 0 (a ++ b) = a ++ replace_from old new 0 b.
Proof.
  induction a as [|c a IH]; intros H; [reflexivity|].
  pose proof (H [] (c :: a) eq_refl ltac:(discriminate)) as H0.
  change ((c :: a) ++ b) with (c :: (a ++ b)) in *.
  cbn [replace_from]. rewrite H0.
  change ((c :: a) ++ replace_from old new 0 b)
    with (c :: (a ++ replace_from old new 0 b)).
  f_equal. apply IH. intros a1 a2 -> Hne.
  apply (H (c :: a1) a2); [reflexivity | assumption].
Qed.

Lemma replace_from_here (old new b : str) :
  old <> [] ->
  replace_from old new 0 (old ++ b) = new ++ replace_from old new 0 b.
Proof.
  intros Hne. destruct old as [|c old]; [contradiction|].
  change ((c :: old) ++ b) with (c :: (old ++ b)).
  cbn [replace_from].
  change (c :: old ++ b) with ((c :: old) ++ b).
  rewrite starts_with_app. f_equal.
  rewrite replace_from_skip.
  replace (length (c :: old) - 1)%nat with (length old) by (simpl; lia).
  rewrite drop_app_length. reflexivity.
Qed.

Lemma str_replace1_not_nil (old new s : str) :
  old <> [] -> str_replace1 old new s = replace_first old new s.
Proof. destruct old; [contradiction | reflexivity]. Qed.

Lemma str_replace_not_nil (old new s : str) :
  old <> [] -> str_replace old new s = replace_from old new 0 s.
Proof. destruct old; [contradiction | reflexivity]. Qed.

Lemma replace_from_absent (old new b : str) :
  no_start old b [] -> replace_from old new 0 b = b.
Proof.
  intros H. rewrite <- (app_nil_r b) at 1.
  rewrite replace_from_no_start by assumption. simpl. apply app_nil_r.
Qed.

(** ** Markers *)

Lemma uint_chars_digits (u : Decimal.uint) :
  forallb is_ascii_digit (uint_chars u) = true.
Proof. induction u; simpl; auto. Qed.

Lemma uint_chars_inj (u v : Decimal.uint) :
  uint_chars u = uint_chars v -> u = v.
Proof.
  revert v. induction u; intros v H; destruct v; simpl in H;
    try discriminate; try reflexivity;
    injection H as H; f_equal; auto.
Qed.

Lemma to_uint_not_nil (n : nat) : Nat.to_uint n <> Decimal.Nil.
Proof.
  intros H. pose proof (Unsigned.of_to n) as Hn. rewrite H in Hn.
  simpl in Hn. subst n. discriminate H.
Qed.

Lemma str_of_nat_inj (n m : nat) : str_of_nat n = str_of_nat m -> n = m.
Proof.
  unfold str_of_nat. intros H. apply Unsigned.to_uint_inj.
  now apply uint_chars_inj.
Qed.

Lemma str_of_nat_digits (n : nat) : forallb is_ascii_digit (str_of_nat n) = true.
Proof. apply uint_chars_digits. Qed.

Lemma str_of_nat_head (n : nat) :
  exists d ds, str_of_nat n = d :: ds /\ is_ascii_digit d = true.
Proof.
  pose proof (str_of_nat_digits n) as Hd. pose proof (to_uint_not_nil n) as Hn.
  unfold str_of_nat in *. destruct (Nat.to_uint n); try contradiction;
    simpl in *; eexists _, _; split; reflexivity.
Qed.

Lemma marker_unfold (i : nat) :
  XLIFFTranslator.marker i
  = UNDERSCORE :: UNDERSCORE :: UPPER_P :: UPPER_H
      :: (str_of_nat i ++ [UNDERSCORE; UNDERSCORE]).
Proof. reflexivity. Qed.

Lemma marker_not_nil (i : nat) : XLIFFTranslator.marker i <> [].
Proof. rewrite marker_unfold. discriminate. Qed.

Lemma digits_are_marker_chars (s : str) :
  forallb is_ascii_digit s = true -> forallb is_marker_char s = true.
Proof.
  induction s as [|c s IH]; cbn [forallb]; intros H; [reflexivity|].
  apply andb_true_iff in H as [Hc Hs]. rewrite (IH Hs).
  unfold is_marker_char. rewrite Hc, !orb_true_r. reflexivity.
Qed.

Lemma marker_chars (i : nat) :
  forallb is_marker_char (XLIFFTranslator.marker i) = true.
Proof.
  rewrite marker_unfold. cbn [forallb]. rewrite forallb_app.
  rewrite (digits_are_marker_chars _ (str_of_nat_digits i)). reflexivity.
Qed.

Lemma marker_has_PHd (i : nat) (a b : str) :
  has_PHd (a ++ XLIFFTranslator.marker i ++ b) = true.
Proof.
  induction a as [|c a IH].
  - rewrite marker_unfold. destruct (str_of_nat_head i) as (d & ds & -> & Hd).
    cbn. rewrite Hd. reflexivity.
  - cbn [app has_PHd]. change (a ++ XLIFFTranslator.marker i ++ b)
      with (a ++ XLIFFTranslator.marker i ++ b) in IH.
    rewrite IH. apply orb_true_r.
Qed.

Lemma marker_safe_tail (i : nat) (b : str) :
  safe_tail (XLIFFTranslator.marker i ++ b) = true.
Proof. rewrite marker_unfold. reflexivity. Qed.

Lemma marker_core_of_marker (k : nat) (s : str) :
  starts_with (XLIFFTranslator.marker k) s = true ->
  matches_classes marker_core s = true.
Proof.
  intros H. apply starts_with_inv in H as [r ->].
  rewrite marker_unfold. destruct (str_of_nat_head k) as (d & ds & -> & Hd).
  cbn. rewrite Hd. reflexivity.
Qed.

(** Digits followed by an underscore are delimited: two such runs that
    agree character by character are the same run. *)
Lemma digits_delimited (a b x y : str) :
  forallb is_ascii_digit a = true -> forallb is_ascii_digit b = true ->
  starts_with (a ++ UNDERSCORE :: x) (b ++ UNDERSCORE :: y) = true -> a = b.
Proof.
  revert b. induction a as [|c a IH]; intros b Ha Hb H.
  - destruct b as [|d b]; [reflexivity|].
    cbn [starts_with app forallb] in *.
    apply andb_true_iff in H as [H _]. apply N.eqb_eq in H. subst d.
    discriminate Hb.
  - destruct b as [|d b]; cbn [starts_with app forallb] in *.
    + apply andb_true_iff in H as [H _]. apply N.eqb_eq in H. subst c.
      discriminate Ha.
    + apply andb_true_iff in H as [Hcd H]. apply N.eqb_eq in Hcd. subst d.
      apply andb_true_iff in Ha as [_ Ha]. apply andb_true_iff in Hb as [_ Hb].
      f_equal. now apply IH.
Qed.

Lemma marker_prefix_inj (k j : nat) (rest : str) :
  starts_with (XLIFFTranslator.marker k) (XLIFFTranslator.marker j ++ rest) = true ->
  k = j.
Proof.
  rewrite !marker_unfold. cbn [starts_with app]. rewrite !N.eqb_refl.
  cbn [andb]. rewrite <- app_assoc. cbn [app]. intros H.
  apply str_of_nat_inj.
  apply (digits_delimited _ _ [UNDERSCORE] (UNDERSCORE :: rest));
    auto using str_of_nat_digits.
Qed.

(** ** Where [PH] and a digit may stand *)

Lemma starts_PHd_app (a b : str) :
  starts_PHd a = true -> starts_PHd (a ++ b) = true.
Proof. destruct a as [|c1 [|c2 [|c3 a]]]; simpl; auto; discriminate. Qed.

Lemma has_PHd_app (a b : str) :
  has_PHd (a ++ b) = false -> has_PHd a = false /\ has_PHd b = false.
Proof.
  induction a as [|c a IH]; intros H.
  - auto.
  - cbn [app has_PHd] in *. apply orb_false_iff in H as [Hs H].
    destruct (IH H) as [Ha Hb]. split; [|assumption].
    rewrite Ha, orb_false_r.
    destruct (starts_PHd (c :: a)) eqn:E; [|reflexivity].
    apply (starts_PHd_app (c :: a) b) in E. cbn [app] in E. congruence.
Qed.

Lemma has_PHd_tail (c : char) (s : str) :
  has_PHd (c :: s) = false -> has_PHd s = false.
Proof. cbn [has_PHd]. intros H. now apply orb_false_iff in H as [_ H]. Qed.

(** A gap that holds no [PH] and digit, followed by nothing or by a marker,
    does not start like a marker; nor does it continue one that lost its
    first character or its first two. *)
Lemma gap_not_marker_core (g w : str) :
  g <> [] -> has_PHd g = false -> safe_tail w = true ->
  matches_classes marker_core (g ++ w) = false.
Proof.
  intros Hg Hp Hw.
  destruct g as [|c1 [|c2 [|c3 [|c4 [|c5 g]]]]]; [contradiction|..];
    destruct w as [|w1 [|w2 w]]; char_clash.
Qed.

Lemma gap_not_marker_core_1 (g w : str) :
  has_PHd g = false -> safe_tail w = true ->
  matches_classes (drop 1 marker_core) (g ++ w) = false.
Proof.
  intros Hp Hw.
  destruct g as [|c1 [|c2 [|c3 [|c4 g]]]];
    destruct w as [|w1 [|w2 w]]; char_clash.
Qed.

Lemma gap_not_marker_core_2 (g w : str) :
  has_PHd g = false -> safe_tail w = true ->
  matches_classes (drop 2 marker_core) (g ++ w) = false.
Proof.
  intros Hp Hw.
  destruct g as [|c1 [|c2 [|c3 g]]];
    destruct w as [|w1 [|w2 w]]; char_clash.
Qed.

(** ** The pattern *)

Lemma span_spec (p : char -> bool) (s : str) :
  exists a b,
    s = a ++ b /\ length a = span p s /\ forallb p a = true
    /\ match b with
       | [] => True
       | c :: _ => p c = false
       end.
Proof.
  induction s as [|c s IH].
  - exists [], []. simpl. auto.
  - simpl. destruct (p c) eqn:Hc.
    + destruct IH as (a & b & -> & Hlen & Hall & Hb).
      exists (c :: a), b. simpl. rewrite Hc, Hall, Hlen. auto.
    + exists [], (c :: s). simpl. auto.
Qed.

Lemma span_app_stop (p : char -> bool) (a : str) (c : char) (b : str) :
  forallb p a = true -> p c = false -> span p (a ++ c :: b) = length a.
Proof.
  intros Ha Hc. induction a as [|x a IH]; simpl in *.
  - rewrite Hc. reflexivity.
  - apply andb_true_iff in Ha as [Hx Ha]. rewrite Hx, IH by assumption.
    reflexivity.
Qed.

Lemma span_pos (p : char -> bool) (c : char) (s : str) :
  p c = true -> exists k, span p (c :: s) = S k.
Proof. intros H. simpl. rewrite H. eauto. Qed.

Lemma lazy_to_rparen_spec (s : str) (k : nat) :
  lazy_to_rparen s = Some k ->
  exists body rest,
    s = body ++ RPAREN :: rest /\ length body = k
    /\ forallb (fun c => negb (c =? RPAREN) && negb (c =? LF)) body = true.
Proof.
  revert k. induction s as [|c s IH]; intros k H; [discriminate|].
  cbn [lazy_to_rparen] in H.
  destruct (N.eqb_spec c RPAREN) as [->|Hr].
  - injection H as <-. exists [], s. auto.
  - destruct (c =? LF) eqn:Hl; [discriminate|].
    destruct (lazy_to_rparen s) as [k'|] eqn:E; [|discriminate].
    injection H as <-. destruct (IH k' eq_refl) as (body & rest & -> & Hlen & Hall).
    exists (c :: body), rest. cbn [forallb length app].
    rewrite Hl, Hall, Hlen. apply N.eqb_neq in Hr. rewrite Hr. auto.
Qed.

Lemma lazy_to_rparen_body (body rest : str) :
  forallb (fun c => negb (c =? RPAREN) && negb (c =? LF)) body = true ->
  lazy_to_rparen (body ++ RPAREN :: rest) = Some (length body).
Proof.
  induction body as [|c body IH]; intros H.
  - reflexivity.
  - cbn [forallb] in H. apply andb_true_iff in H as [Hc H].
    apply andb_true_iff in Hc as [Hr Hl].
    apply negb_true_iff in Hr, Hl.
    cbn [app lazy_to_rparen length]. rewrite Hr, Hl, IH by assumption.
    reflexivity.
Qed.

Lemma not_nil_of_length {A} (l : list A) (k : nat) : length l = S k -> l <> [].
Proof. destruct l; [discriminate | intros _; discriminate]. Qed.

Lemma alt_spec_shape (s : str) (n : nat) :
  alt_spec s = Some n ->
  exists m rest, s = m ++ rest /\ n = length m /\ placeholder_shape m.
Proof.
  unfold alt_spec. destruct s as [|c r]; [discriminate|].
  destruct (N.eqb_spec c PERCENT) as [->|]; [|discriminate].
  destruct (span_spec in_spec_class r) as (cs & rest & -> & Hlen & Hall & _).
  destruct (span in_spec_class (cs ++ rest)) as [|k]; [discriminate|].
  intros [= <-]. exists (PERCENT :: cs), rest. repeat split.
  - simpl. rewrite Hlen. reflexivity.
  - constructor; [exact (not_nil_of_length cs k Hlen) | assumption].
Qed.

Lemma alt_positional_shape (s : str) (n : nat) :
  alt_positional s = Some n ->
  exists m rest, s = m ++ rest /\ n = length m /\ placeholder_shape m.
Proof.
  unfold alt_positional. destruct s as [|c r]; [discriminate|].
  destruct (N.eqb_spec c PERCENT) as [->|]; [|discriminate].
  destruct (span_spec is_decimal r) as (ds & rest & -> & Hlen & Hall & _).
  destruct (span is_decimal (ds ++ rest)) as [|k]; [discriminate|].
  rewrite (drop_app_length' ds rest (S k)) by congruence.
  destruct rest as [|c' r']; [discriminate|].
  destruct (N.eqb_spec c' DOLLAR) as [->|]; [|discriminate].
  destruct (span_spec in_spec_class r') as (cs & rest & -> & Hlen' & Hall' & _).
  destruct (span in_spec_class (cs ++ rest)) as [|j]; [discriminate|].
  intros [= <-]. exists (PERCENT :: ds ++ DOLLAR :: cs), rest. repeat split.
  - cbn [app]. rewrite <- app_assoc. reflexivity.
  - cbn [length]. rewrite length_app. cbn [length]. lia.
  - constructor;
      [exact (not_nil_of_length _ _ Hlen) | assumption
      |exact (not_nil_of_length _ _ Hlen') | assumption].
Qed.

Lemma alt_variable_shape (s : str) (n : nat) :
  alt_variable s = Some n ->
  exists m rest, s = m ++ rest /\ n = length m /\ placeholder_shape m.
Proof.
  unfold alt_variable. destruct s as [|c1 [|c2 r]]; try discriminate.
  destruct (N.eqb_spec c1 DOLLAR) as [->|]; [|discriminate].
  destruct (N.eqb_spec c2 LPAREN) as [->|]; [|discriminate].
  cbn [andb]. destruct (lazy_to_rparen r) as [k|] eqn:E; [|discriminate].
  destruct (lazy_to_rparen_spec r k E) as (body & rest & -> & Hlen & Hall).
  intros [= <-]. exists (DOLLAR :: LPAREN :: body ++ [RPAREN]), rest.
  repeat split.
  - cbn [app]. rewrite <- app_assoc. reflexivity.
  - cbn [length]. rewrite length_app. cbn [length]. lia.
  - now constructor.
Qed.

Lemma alt_brace_shape (s : str) (n : nat) :
  alt_brace s = Some n ->
  exists m rest, s = m ++ rest /\ n = length m /\ placeholder_shape m.
Proof.
  unfold alt_brace. destruct s as [|c r]; [discriminate|].
  destruct (N.eqb_spec c LBRACE) as [->|]; [|discriminate].
  destruct (span_spec is_decimal r) as (ds & rest & -> & Hlen & Hall & _).
  destruct (span is_decimal (ds ++ rest)) as [|k]; [discriminate|].
  rewrite (drop_app_length' ds rest (S k)) by congruence.
  destruct rest as [|c' r']; [discriminate|].
  destruct (N.eqb_spec c' RBRACE) as [->|]; [|discriminate].
  intros [= <-]. exists (LBRACE :: ds ++ [RBRACE]), r'. repeat split.
  - cbn [app]. rewrite <- app_assoc. reflexivity.
  - cbn [length]. rewrite length_app. cbn [length]. lia.
  - constructor; [exact (not_nil_of_length _ _ Hlen) | assumption].
Qed.

Lemma alt_degree_shape (s : str) (n : nat) :
  alt_degree s = Some n ->
  exists m rest, s = m ++ rest /\ n = length m /\ placeholder_shape m.
Proof.
  unfold alt_degree. destruct s as [|c1 [|c2 [|c3 r]]]; try discriminate.
  destruct (N.eqb_spec c1 194) as [->|]; [|discriminate].
  destruct (N.eqb_spec c2 176) as [->|]; [|discriminate].
  cbn [andb].
  destruct (N.eqb_spec c3 UPPER_C) as [->|];
    [|destruct (N.eqb_spec c3 UPPER_F) as [->|]; [|discriminate]];
    intros [= <-]; eexists [194; 176; _], r; repeat split;
    constructor; auto.
Qed.

Lemma alt_drop_shape (s : str) (n : nat) :
  alt_drop s = Some n ->
  exists m rest, s = m ++ rest /\ n = length m /\ placeholder_shape m.
Proof.
  unfold alt_drop. destruct (starts_with _ s) eqn:E; [|discriminate].
  apply starts_with_inv in E as [r ->]. intros [= <-].
  exists [240; 376; 8217; 167], r. repeat split. constructor.
Qed.

(** What the pattern matches has one of the six shapes. *)
Lemma match_at_shape (s : str) (n : nat) :
  match_at s = Some n ->
  exists m rest, s = m ++ rest /\ n = length m /\ placeholder_shape m.
Proof.
  unfold match_at, first_of.
  destruct (alt_spec s) eqn:E1;
    [intros [= <-]; eauto using alt_spec_shape|].
  destruct (alt_positional s) eqn:E2;
    [intros [= <-]; eauto using alt_positional_shape|].
  destruct (alt_variable s) eqn:E3;
    [intros [= <-]; eauto using alt_variable_shape|].
  destruct (alt_brace s) eqn:E4;
    [intros [= <-]; eauto using alt_brace_shape|].
  destruct (alt_degree s) eqn:E5;
    [intros [= <-]; eauto using alt_degree_shape|].
  apply alt_drop_shape.
Qed.

Lemma match_at_of_alternative (s : str) :
  alt_spec s <> None \/ alt_positional s <> None \/ alt_variable s <> None
  \/ alt_brace s <> None \/ alt_degree s <> None \/ alt_drop s <> None ->
  match_at s <> None.
Proof.
  unfold match_at, first_of.
  destruct (alt_spec s), (alt_positional s), (alt_variable s), (alt_brace s),
    (alt_degree s), (alt_drop s); intuition congruence.
Qed.

(** A text of one of the six shapes is matched wherever it stands, whatever
    follows it. *)
Lemma shape_matches (m : str) :
  placeholder_shape m -> forall x, match_at (m ++ x) <> None.
Proof.
  intros Hm x. apply match_at_of_alternative.
  destruct Hm as [cs Hne Hall | ds cs Hd Hda Hc Hca | body Hb | ds Hd Hda
                 | c Hc | ].
  - left. destruct cs as [|c cs]; [contradiction|].
    cbn [forallb] in Hall. apply andb_true_iff in Hall as [Hc _].
    cbn [app alt_spec]. rewrite N.eqb_refl.
    destruct (span_pos in_spec_class c (cs ++ x) Hc) as [k ->]. discriminate.
  - right. left. destruct cs as [|c cs]; [contradiction|].
    cbn [forallb] in Hca. apply andb_true_iff in Hca as [Hc' _].
    cbn [app alt_positional]. rewrite N.eqb_refl.
    rewrite <- app_assoc. cbn [app].
    rewrite (span_app_stop is_decimal ds DOLLAR _ Hda eq_refl).
    destruct ds as [|d ds]; [contradiction|]. cbn [length].
    rewrite (drop_app_length' (d :: ds) _ (S (length ds)) eq_refl).
    rewrite N.eqb_refl.
    destruct (span_pos in_spec_class c (cs ++ x) Hc') as [k ->]. discriminate.
  - right. right. left. cbn [app alt_variable]. rewrite !N.eqb_refl.
    cbn [andb]. rewrite <- app_assoc. cbn [app].
    rewrite (lazy_to_rparen_body body x Hb). discriminate.
  - right. right. right. left. cbn [app alt_brace]. rewrite N.eqb_refl.
    rewrite <- app_assoc. cbn [app].
    rewrite (span_app_stop is_decimal ds RBRACE _ Hda eq_refl).
    destruct ds as [|d ds]; [contradiction|]. cbn [length].
    rewrite (drop_app_length' (d :: ds) _ (S (length ds)) eq_refl).
    rewrite N.eqb_refl. discriminate.
  - right. right. right. right. left.
    destruct Hc as [-> | ->]; discriminate.
  - right. right. right. right. right. discriminate.
Qed.

Lemma shape_first (m : str) :
  placeholder_shape m -> exists c m', m = c :: m' /\ is_marker_char c = false.
Proof. intros []; eexists _, _; split; reflexivity. Qed.

Lemma spec_class_outside_markers (c : char) :
  in_spec_class c = true -> is_marker_char c = false.
Proof.
  unfold in_spec_class. intros H.
  apply orb_true_iff in H as [H|H]; [apply orb_true_iff in H as [H|H]|];
    apply N.eqb_eq in H; subst c; reflexivity.
Qed.

Lemma forallb_last (p : char -> bool) (s : str) :
  s <> [] -> forallb p s = true -> exists body c, s = body ++ [c] /\ p c = true.
Proof.
  intros Hne Hall. destruct (exists_last Hne) as (body & c & ->).
  rewrite forallb_app in Hall. apply andb_true_iff in Hall as [_ Hc].
  cbn in Hc. rewrite andb_true_r in Hc. eauto.
Qed.

Lemma shape_last (m : str) :
  placeholder_shape m ->
  exists body c, m = body ++ [c] /\ is_marker_char c = false.
Proof.
  intros [cs Hne Hall | ds cs Hd Hda Hc Hca | body Hb | ds Hd Hda | c Hc | ].
  - destruct (forallb_last _ cs Hne Hall) as (body & c & -> & Hc).
    exists (PERCENT :: body), c. auto using spec_class_outside_markers.
  - destruct (forallb_last _ cs Hc Hca) as (body & c & -> & Hc').
    exists (PERCENT :: ds ++ DOLLAR :: body), c. split.
    + cbn [app]. rewrite <- app_assoc. reflexivity.
    + auto using spec_class_outside_markers.
  - exists (DOLLAR :: LPAREN :: body), RPAREN. auto.
  - exists (LBRACE :: ds), RBRACE. auto.
  - exists [194; 176], c. destruct Hc as [-> | ->]; auto.
  - exists [240; 376; 8217], 167. auto.
Qed.

Lemma shape_not_nil (m : str) : placeholder_shape m -> m <> [].
Proof. intros H. destruct (shape_first m H) as (c & m' & -> & _). discriminate. Qed.

(** ** The scan *)

Lemma scan_from_drop (k : nat) (s : str) : scan_from k s = scan (drop k s).
Proof.
  revert k. induction s as [|c s IH]; intros k.
  - destruct k; reflexivity.
  - destruct k as [|k]; [reflexivity|]. cbn [scan_from drop]. apply IH.
Qed.

Lemma scan_match (m rest : str) :
  placeholder_shape m ->
  match_at (m ++ rest) = Some (length m) ->
  scan (m ++ rest) = Match m :: scan rest.
Proof.
  intros Hm Hat. destruct (shape_first m Hm) as (c & m' & -> & _).
  unfold scan. cbn [app scan_from].
  change (c :: m' ++ rest) with ((c :: m') ++ rest). rewrite Hat.
  rewrite take_app_length. f_equal.
  rewrite scan_from_drop. cbn [length]. rewrite Nat.sub_succ, Nat.sub_0_r.
  rewrite drop_app_length. reflexivity.
Qed.

Lemma scan_gap (c : char) (s : str) :
  match_at (c :: s) = None -> scan (c :: s) = Gap c :: scan s.
Proof. intros H. unfold scan. cbn [scan_from]. rewrite H. reflexivity. Qed.

(** The scan cuts a text into pieces that render back to the text, with no
    match starting at a gap. *)
Lemma scan_spec (n : nat) (text : str) :
  (length text <= n)%nat ->
  scanned (scan text) /\ render_orig (scan text) = text.
Proof.
  revert text. induction n as [|n IH]; intros text Hlen.
  - destruct text; [|simpl in Hlen; lia]. split; [constructor | reflexivity].
  - destruct text as [|c s]; [split; [constructor | reflexivity]|].
    destruct (match_at (c :: s)) as [k|] eqn:E.
    + destruct (match_at_shape _ _ E) as (m & rest & Hs & -> & Hm).
      rewrite Hs in *. rewrite (scan_match m rest Hm E).
      assert (Hrest : (length rest <= n)%nat).
      { rewrite length_app in Hlen.
        pose proof (shape_not_nil m Hm). destruct m; [contradiction|].
        simpl in Hlen. lia. }
      destruct (IH rest Hrest) as [Hsc Hre]. split.
      * constructor; [rewrite Hre; exact E | exact Hsc].
      * cbn [render_orig]. rewrite Hre. reflexivity.
    + rewrite (scan_gap c s E).
      assert (Hs : (length s <= n)%nat) by (simpl in Hlen; lia).
      destruct (IH s Hs) as [Hsc Hre]. split.
      * constructor; [rewrite Hre; exact E | exact Hsc].
      * cbn [render_orig]. rewrite Hre. reflexivity.
Qed.

Lemma findall_matches (text : str) : findall text = matches (scan text).
Proof.
  unfold findall. induction (scan text) as [|[c|m] ps IH]; simpl; congruence.
Qed.

Lemma scanned_match_shape (m : str) (ps : list piece) :
  scanned (Match m :: ps) -> placeholder_shape m.
Proof.
  intros H. inversion H as [| |m' ps' Hat Hps]; subst.
  destruct (match_at_shape _ _ Hat) as (m2 & rest & Hs & Hlen & Hm).
  assert (m = m2); [|congruence].
  apply (f_equal (take (length m))) in Hs.
  rewrite take_app_length in Hs. rewrite Hlen, take_app_length in Hs.
  exact Hs.
Qed.

Lemma scanned_app (pre post : list piece) :
  scanned (pre ++ post) -> scanned post.
Proof.
  induction pre as [|p pre IH]; intros H; [exact H|].
  apply IH. inversion H; assumption.
Qed.

Lemma render_orig_app (a b : list piece) :
  render_orig (a ++ b) = render_orig a ++ render_orig b.
Proof.
  induction a as [|[c|m] a IH]; cbn [app render_orig]; [reflexivity| |];
    rewrite IH; [reflexivity | apply app_assoc].
Qed.

Lemma matches_app (a b : list piece) : matches (a ++ b) = matches a ++ matches b.
Proof. induction a as [|[c|m] a IH]; simpl; congruence. Qed.

Lemma render_sub_app (i : nat) (a b : list piece) :
  render_sub i (a ++ b)
  = render_sub i a ++ render_sub (i + length (matches a)) b.
Proof.
  revert i. induction a as [|[c|m] a IH]; intros i; cbn [app render_sub matches length].
  - rewrite Nat.add_0_r. reflexivity.
  - rewrite IH. reflexivity.
  - rewrite IH, <- app_assoc, Nat.add_succ_r. reflexivity.
Qed.

(** ** Extraction puts each marker where its placeholder stood *)

Lemma ends_outside_markers_tail (a : char) (m : str) :
  ends_outside_markers (a :: m) -> ends_outside_markers m.
Proof.
  intros [H|(body & c & H & Hc)]; [discriminate|].
  destruct body as [|b body]; cbn [app] in H; injection H as -> ->.
  - left. reflexivity.
  - right. eauto.
Qed.

Lemma marker_prefix_ends_inside (i : nat) (m a2 : str) :
  m <> [] -> XLIFFTranslator.marker i = m ++ a2 -> ~ ends_outside_markers m.
Proof.
  intros Hne Hm [H|(body & c & -> & Hc)]; [contradiction|].
  pose proof (marker_chars i) as Hall. rewrite Hm, !forallb_app in Hall.
  cbn [forallb] in Hall. rewrite Hc in Hall.
  rewrite andb_false_r in Hall. discriminate.
Qed.

(** An occurrence of [m] read over marked text is an occurrence over the
    original text, when [m] can neither hold a marker nor end in one. *)
Lemma starts_with_through_markers (ps : list piece) (i : nat) (z m : str) :
  has_PHd m = false -> ends_outside_markers m ->
  starts_with m (render_sub i ps ++ z) = true ->
  starts_with m (render_orig ps ++ z) = true.
Proof.
  revert i m. induction ps as [|[c|x] ps IH]; intros i m Hp He H.
  - exact H.
  - destruct m as [|a m]; [reflexivity|].
    cbn [render_sub render_orig app starts_with] in *.
    apply andb_true_iff in H as [Hac H]. rewrite Hac. cbn [andb].
    apply (IH i); eauto using has_PHd_tail, ends_outside_markers_tail.
  - destruct m as [|a m]; [reflexivity|]. exfalso.
    cbn [render_sub] in H. rewrite <- app_assoc in H.
    apply starts_with_app_cases in H as [[a2 Ha2]|(p2 & Hp2 & _)].
    + exact (marker_prefix_ends_inside i (a :: m) a2 ltac:(discriminate) Ha2 He).
    + pose proof (marker_has_PHd i [] p2) as Hm. cbn [app] in Hm.
      rewrite <- Hp2 in Hm. congruence.
Qed.

Lemma no_placeholder_in_marker (i : nat) (m b : str) :
  placeholder_shape m -> no_start m (XLIFFTranslator.marker i) b.
Proof.
  intros Hm a1 a2 Ha Hne.
  destruct (shape_first m Hm) as (c0 & m0 & -> & Hc0).
  destruct a2 as [|c a2]; [contradiction|].
  pose proof (marker_chars i) as Hall. rewrite Ha, forallb_app in Hall.
  apply andb_true_iff in Hall as [_ Hall]. cbn [forallb] in Hall.
  apply andb_true_iff in Hall as [Hc _].
  cbn [app starts_with]. destruct (N.eqb_spec c0 c) as [->|]; [|reflexivity].
  congruence.
Qed.

Lemma no_placeholder_before (pre post : list piece) (m : str) (i : nat) :
  scanned (pre ++ Match m :: post) ->
  has_PHd (render_orig (pre ++ Match m :: post)) = false ->
  no_start m (render_sub i pre) (m ++ render_orig post).
Proof.
  intros Hsc Hp.
  assert (Hm : placeholder_shape m)
    by exact (scanned_match_shape m post (scanned_app pre _ Hsc)).
  assert (Hpm : has_PHd m = false).
  { rewrite render_orig_app in Hp. apply has_PHd_app in Hp as [_ Hp].
    cbn [render_orig] in Hp. now apply has_PHd_app in Hp as [Hp _]. }
  revert i. induction pre as [|[c|x] pre IH]; intros i.
  - apply no_start_nil.
  - cbn [render_sub]. inversion Hsc as [|c' ps' Hgap Hsc'|]; subst.
    apply no_start_cons.
    + destruct (starts_with m (c :: render_sub i pre ++ m ++ render_orig post))
        eqn:E; [exfalso|reflexivity].
      apply (starts_with_through_markers (Gap c :: pre) i
               (m ++ render_orig post) m Hpm) in E;
        [|right; exact (shape_last m Hm)].
      apply starts_with_inv in E as [r Hr].
      rewrite render_orig_app in Hgap. cbn [render_orig app] in Hr, Hgap.
      rewrite Hr in Hgap. exact (shape_matches m Hm r Hgap).
    + apply IH; [assumption|]. cbn [app render_orig] in Hp.
      exact (has_PHd_tail _ _ Hp).
  - cbn [render_sub]. inversion Hsc as [| |x' ps' Hat Hsc']; subst.
    apply no_start_app.
    + now apply no_placeholder_in_marker.
    + apply IH; [assumption|]. cbn [app render_orig] in Hp.
      now apply has_PHd_app in Hp as [_ Hp].
Qed.

Lemma extract_loop_spec (post pre : list piece) (acc : list (str * str)) :
  scanned (pre ++ post) ->
  has_PHd (render_orig (pre ++ post)) = false ->
  XLIFFTranslator.extract_loop (length (matches pre)) (matches post)
    (render_sub 0 pre ++ render_orig post) acc
  = (render_sub 0 (pre ++ post),
     acc ++ pairs_from (length (matches pre)) (matches post)).
Proof.
  revert pre acc. induction post as [|[c|m] post IH]; intros pre acc Hsc Hp.
  - cbn. rewrite !app_nil_r. reflexivity.
  - cbn [matches render_orig].
    assert (Heq : pre ++ Gap c :: post = (pre ++ [Gap c]) ++ post)
      by (rewrite <- app_assoc; reflexivity).
    rewrite Heq in Hsc, Hp |- *.
    specialize (IH (pre ++ [Gap c]) acc Hsc Hp).
    rewrite matches_app, render_sub_app in IH.
    cbn [matches length render_sub app Nat.add] in IH.
    rewrite app_nil_r, <- app_assoc in IH. exact IH.
  - pose proof (no_placeholder_before pre post m 0 Hsc Hp) as Hno.
    assert (Hm : placeholder_shape m)
      by exact (scanned_match_shape m post (scanned_app pre _ Hsc)).
    cbn [matches XLIFFTranslator.extract_loop render_orig pairs_from].
    assert (Hrep : str_replace1 m (XLIFFTranslator.marker (length (matches pre)))
                     (render_sub 0 pre ++ m ++ render_orig post)
                   = render_sub 0 pre
                       ++ XLIFFTranslator.marker (length (matches pre))
                       ++ render_orig post).
    { rewrite str_replace1_not_nil by exact (shape_not_nil m Hm).
      rewrite replace_first_no_start by exact Hno.
      rewrite replace_first_here by exact (shape_not_nil m Hm). reflexivity. }
    rewrite Hrep.
    assert (Heq : pre ++ Match m :: post = (pre ++ [Match m]) ++ post)
      by (rewrite <- app_assoc; reflexivity).
    rewrite Heq in Hsc, Hp |- *.
    specialize (IH (pre ++ [Match m])
                  (acc ++ [(XLIFFTranslator.marker (length (matches pre)), m)])
                  Hsc Hp).
    rewrite matches_app, render_sub_app, length_app in IH.
    cbn [matches length render_sub app Nat.add] in IH.
    rewrite app_nil_r, Nat.add_1_r in IH.
    rewrite <- (app_assoc (render_sub 0 pre)) in IH.
    rewrite IH. f_equal. rewrite <- app_assoc. reflexivity.
Qed.

(** ** Restoration finds each marker once *)

Lemma not_marker_core (k : nat) (s : str) :
  matches_classes marker_core s = false ->
  starts_with (XLIFFTranslator.marker k) s = false.
Proof.
  intros H. destruct (starts_with (XLIFFTranslator.marker k) s) eqn:E;
    [|reflexivity].
  apply marker_core_of_marker in E. congruence.
Qed.

Lemma no_marker_in_text (k : nat) (text w : str) :
  has_PHd text = false ->
  no_start (XLIFFTranslator.marker k) text (XLIFFTranslator.marker k ++ w).
Proof.
  intros Hp a1 a2 -> Hne. apply not_marker_core.
  apply gap_not_marker_core; [assumption | | apply marker_safe_tail].
  now apply has_PHd_app in Hp as [_ Hp].
Qed.

(** Marked text starts with a stretch of the original text, followed by
    nothing or by a marker. *)
Lemma render_sub_gap_split (ps : list piece) (j : nat) :
  exists g w x,
    render_sub j ps = g ++ w /\ safe_tail w = true /\ render_orig ps = g ++ x.
Proof.
  induction ps as [|[c|m] ps IH].
  - exists [], [], []. auto.
  - destruct IH as (g & w & x & Hs & Hw & Ho).
    exists (c :: g), w, x. cbn [render_sub render_orig app].
    rewrite Hs, Ho. auto.
  - exists [], (render_sub j (Match m :: ps)), (render_orig (Match m :: ps)).
    cbn [render_sub app]. auto using marker_safe_tail.
Qed.

Lemma digit_not_underscore (d : char) :
  is_ascii_digit d = true -> (UNDERSCORE =? d) = false.
Proof.
  intros H. destruct (N.eqb_spec UNDERSCORE d) as [<-|]; [discriminate H|reflexivity].
Qed.

(** A non-empty end of a marker, past its first four characters, starts with
    a digit or is one of its closing underscores. *)
Lemma marker_digits_suffix (ds a1 a2 : str) :
  forallb is_ascii_digit ds = true ->
  a1 ++ a2 = ds ++ [UNDERSCORE; UNDERSCORE] -> a2 <> [] ->
  (exists d a2', a2 = d :: a2' /\ is_ascii_digit d = true)
  \/ a2 = [UNDERSCORE; UNDERSCORE] \/ a2 = [UNDERSCORE].
Proof.
  revert a1. induction ds as [|d ds IH]; intros a1 Hd Ha Hne.
  - destruct a1 as [|x [|y [|z a1]]]; cbn [app] in Ha.
    + subst a2. auto.
    + injection Ha as _ ->. auto.
    + injection Ha as _ _ ->. contradiction.
    + injection Ha as _ _ Ha. destruct a1; discriminate.
  - cbn [forallb] in Hd. apply andb_true_iff in Hd as [Hd Hds].
    destruct a1 as [|x a1]; cbn [app] in Ha.
    + subst a2. left. eauto.
    + injection Ha as _ Ha. eauto.
Qed.

Lemma no_other_marker_in_marker (k j : nat) (ps : list piece) :
  k <> j -> has_PHd (render_orig ps) = false ->
  no_start (XLIFFTranslator.marker k) (XLIFFTranslator.marker j)
    (render_sub (S j) ps ++ []).
Proof.
  intros Hkj Hp a1 a2 Ha Hne. rewrite app_nil_r.
  destruct (render_sub_gap_split ps (S j)) as (g & w & x & -> & Hw & Ho).
  assert (Hg : has_PHd g = false)
    by (rewrite Ho in Hp; now apply has_PHd_app in Hp as [Hp _]).
  destruct a1 as [|x1 a1].
  - cbn [app] in Ha. subst a2.
    destruct (starts_with _ _) eqn:E; [|reflexivity].
    apply marker_prefix_inj in E. contradiction.
  - apply not_marker_core. rewrite marker_unfold in Ha.
    destruct a1 as [|x2 [|x3 [|x4 a1]]]; cbn [app] in Ha;
      try (injection Ha as _ <-; reflexivity);
      try (injection Ha as _ _ <-; reflexivity);
      try (injection Ha as _ _ _ <-; reflexivity).
    injection Ha as _ _ _ _ Ha. symmetry in Ha.
    destruct (marker_digits_suffix _ a1 a2 (str_of_nat_digits j) Ha Hne)
      as [(d & a2' & -> & Hd)|[-> | ->]].
    + cbn [app matches_classes marker_core].
      rewrite (digit_not_underscore d Hd). reflexivity.
    + pose proof (gap_not_marker_core_2 g w Hg Hw) as H2.
      cbn [app matches_classes marker_core drop] in *.
      rewrite !N.eqb_refl. exact H2.
    + pose proof (gap_not_marker_core_1 g w Hg Hw) as H1.
      cbn [app matches_classes marker_core drop] in *.
      rewrite !N.eqb_refl. exact H1.
Qed.

Lemma no_marker_after (k : nat) (post : list piece) (j : nat) :
  (k < j)%nat -> has_PHd (render_orig post) = false ->
  no_start (XLIFFTranslator.marker k) (render_sub j post) [].
Proof.
  revert j. induction post as [|[c|x] post IH]; intros j Hkj Hp.
  - apply no_start_nil.
  - cbn [render_sub]. apply no_start_cons.
    + apply not_marker_core.
      destruct (render_sub_gap_split post j) as (g & w & y & -> & Hw & Ho).
      rewrite app_nil_r.
      apply (gap_not_marker_core (c :: g) w); [discriminate| |assumption].
      cbn [render_orig] in Hp. rewrite Ho in Hp.
      change (c :: g ++ y) with ((c :: g) ++ y) in Hp.
      now apply has_PHd_app in Hp as [Hp _].
    + apply IH; [assumption|]. exact (has_PHd_tail _ _ Hp).
  - cbn [render_sub]. cbn [render_orig] in Hp.
    apply has_PHd_app in Hp as [_ Hp]. apply no_start_app.
    + apply no_other_marker_in_marker; [lia | assumption].
    + apply IH; [lia | assumption].
Qed.

Lemma restore_spec (post pre : list piece) (k : nat) :
  has_PHd (render_orig (pre ++ post)) = false ->
  XLIFFTranslator.restore_placeholders
    (render_orig pre ++ render_sub k post) (pairs_from k (matches post))
  = render_orig (pre ++ post).
Proof.
  revert pre k. induction post as [|[c|m] post IH]; intros pre k Hp.
  - cbn. rewrite !app_nil_r. reflexivity.
  - cbn [matches render_sub].
    assert (Heq : pre ++ Gap c :: post = (pre ++ [Gap c]) ++ post)
      by (rewrite <- app_assoc; reflexivity).
    rewrite Heq in Hp |- *. rewrite <- (IH (pre ++ [Gap c]) k Hp).
    rewrite render_orig_app. cbn [render_orig]. rewrite <- app_assoc.
    reflexivity.
  - cbn [matches render_sub pairs_from].
    unfold XLIFFTranslator.restore_placeholders. cbn [fold_left fst snd].
    fold (XLIFFTranslator.restore_placeholders).
    pose proof Hp as Hp'. rewrite render_orig_app in Hp'.
    apply has_PHd_app in Hp' as [Hpre Hpost]. cbn [render_orig] in Hpost.
    apply has_PHd_app in Hpost as [_ Hpost].
    rewrite str_replace_not_nil by apply marker_not_nil.
    rewrite replace_from_no_start by (now apply no_marker_in_text).
    rewrite replace_from_here by apply marker_not_nil.
    rewrite replace_from_absent by (apply no_marker_after; [lia | assumption]).
    assert (Heq : pre ++ Match m :: post = (pre ++ [Match m]) ++ post)
      by (rewrite <- app_assoc; reflexivity).
    rewrite Heq in Hp |- *. rewrite <- (IH (pre ++ [Match m]) (S k) Hp).
    rewrite render_orig_app. cbn [render_orig]. rewrite app_nil_r, <- app_assoc.
    reflexivity.
Qed.

(** C1, as stated, fails: a text that already holds the marker of its
    placeholder does not come back. *)
Lemma roundtrip_breaks_on_marker_text :
  roundtrip (lit "__PH0__ %d") = lit "%d %d"
  /\ roundtrip (lit "__PH0__ %d") <> lit "__PH0__ %d".
Proof. split; [vm_compute; reflexivity | vm_compute; discriminate]. Qed.

(** C1, amended.  For every text in which [PH] is nowhere followed by an
    ASCII digit, whatever placeholders it holds, restoring the extracted
    tokens into the extracted text gives the text back. *)
Theorem roundtrip_without_marker_core (text : str) :
  has_PHd text = false -> roundtrip text = text.
Proof.
  intros Hp. unfold roundtrip, XLIFFTranslator.extract_placeholders.
  rewrite findall_matches.
  destruct (scan_spec (length text) text (le_n _)) as [Hsc Hre].
  pose proof (extract_loop_spec (scan text) [] [] Hsc) as He.
  cbn [app render_sub render_orig matches length] in He.
  rewrite Hre in He. rewrite He by exact Hp.
  pose proof (restore_spec (scan text) [] 0) as Hr.
  cbn [app render_orig] in Hr. rewrite Hre in Hr. exact (Hr Hp).
Qed.

Lemma roundtrip_without_marker_core_witness :
  roundtrip (lit "%d of %1$@ in $(HOME) {0} PH %lld_") = lit "%d of %1$@ in $(HOME) {0} PH %lld_".
Proof. apply roundtrip_without_marker_core. vm_compute. reflexivity. Defined.

(** ** The validator *)

Lemma difference_empty_iff (A B : gset str) :
  A ∖ B = ∅ /\ B ∖ A = ∅ <-> B = A.
Proof.
  split.
  - intros [HA HB]. apply set_eq. intros x. split; intros Hx.
    + destruct (decide (x ∈ A)) as [|Hn]; [assumption|].
      exfalso. apply (not_elem_of_empty (C:=gset str) x).
      rewrite <- HB. apply elem_of_difference. auto.
    + destruct (decide (x ∈ B)) as [|Hn]; [assumption|].
      exfalso. apply (not_elem_of_empty (C:=gset str) x).
      rewrite <- HA. apply elem_of_difference. auto.
  - intros ->. split; apply set_eq; intros x; rewrite elem_of_difference;
      split; [tauto | intros Hx; exfalso; exact (not_elem_of_empty x Hx)
             |tauto | intros Hx; exfalso; exact (not_elem_of_empty x Hx)].
Qed.

(** C3.  The validator accepts exactly when the translated text yields as
    many placeholders as the original and the same set of distinct tokens. *)
Theorem validate_accepts_iff (original translated : str) :
  fst (PlaceholderValidator.validate original translated) = true <->
  length (PlaceholderValidator.extract_placeholders translated)
    = length (PlaceholderValidator.extract_placeholders original)
  /\ (list_to_set (PlaceholderValidator.extract_placeholders translated) : gset str)
     = list_to_set (PlaceholderValidator.extract_placeholders original).
Proof.
  unfold PlaceholderValidator.validate.
  set (o := PlaceholderValidator.extract_placeholders original).
  set (t := PlaceholderValidator.extract_placeholders translated).
  pose proof (difference_empty_iff (list_to_set o) (list_to_set t)) as Hd.
  destruct (Nat.eqb_spec (length o) (length t)) as [Hlen|Hlen]; simpl.
  - repeat case_bool_decide; simpl; split; intros; try discriminate;
      intuition congruence.
  - split; [discriminate | intros [H _]; congruence].
Qed.

(** ** The skip policy *)

Lemma is_empty_true {A} (l : list A) : is_empty l = true <-> l = [].
Proof. destruct l; simpl; split; congruence. Qed.

(** C9, as stated, fails: two placeholders separated by a blank leave the
    remainder [" "], neither empty nor a punctuation token, and the text is
    skipped all the same. *)
Lemma should_skip_not_as_specified :
  XLIFFTranslator.should_skip_translation (lit "%@ %@") = true
  /\ skip_as_specified (lit "%@ %@") = false.
Proof. vm_compute. split; reflexivity. Qed.

(** C9, amended.  A text is skipped exactly when it is empty or blank, or its
    trimmed form is a unit literal, or the remainder left by removing the
    placeholders is, once trimmed, empty or one of the punctuation tokens;
    the five sample texts behave as listed. *)
Theorem should_skip_translation_iff :
  (forall text : str,
     XLIFFTranslator.should_skip_translation text = true <->
     (text = [] \/ strip text = [])
     \/ strip text ∈ UNITS
     \/ strip (sub_empty text) = []
     \/ strip (sub_empty text) ∈ PUNCTUATION)
  /\ XLIFFTranslator.should_skip_translation (lit "") = true
  /\ XLIFFTranslator.should_skip_translation (lit "  ") = true
  /\ XLIFFTranslator.should_skip_translation (lit "kg") = true
  /\ XLIFFTranslator.should_skip_translation (lit "%@") = true
  /\ XLIFFTranslator.should_skip_translation (lit "Hello %@") = false.
Proof.
  split; [| vm_compute; repeat split; reflexivity].
  intros text. unfold XLIFFTranslator.should_skip_translation.
  fold PUNCTUATION.
  rewrite <- !(is_empty_true (A:=char)).
  destruct (is_empty text); simpl; [tauto|].
  destruct (is_empty (strip text)); simpl; [tauto|].
  case_bool_decide; [tauto|].
  destruct (is_empty (strip (sub_empty text))); simpl; [tauto|].
  case_bool_decide; [tauto|].
  split; [discriminate|].
  intros [[?|?]|[?|[?|?]]]; try discriminate; contradiction.
Qed.

(** ** The unit translator *)

Section TranslateText.

Variable service : list request -> request -> response.
Variables target_lang source_lang : str.

(** The call [translate_text] makes for [text]. *)
Let request_for (text : str) : request :=
  {| req_source_lang := source_lang; req_target_lang := target_lang;
     req_text := fst (XLIFFTranslator.extract_placeholders text) |}.

(** The translated text once the markers are put back. *)
Let restored (text translated : str) : str :=
  let placeholders := snd (XLIFFTranslator.extract_placeholders text) in
  if negb (is_empty placeholders)
  then XLIFFTranslator.restore_placeholders translated placeholders
  else translated.

Lemma translate_text_skipped policy text w :
  XLIFFTranslator.should_skip_translation text = true
  \/ is_empty (strip (fst (XLIFFTranslator.extract_placeholders text))) = true ->
  XLIFFTranslator.translate_text service policy text target_lang source_lang w
  = ((text, None), w).
Proof.
  unfold XLIFFTranslator.translate_text. intros H.
  destruct (XLIFFTranslator.should_skip_translation text); [reflexivity|].
  destruct H as [H|H]; [discriminate|].
  destruct (XLIFFTranslator.extract_placeholders text) as [t ph].
  simpl in H. rewrite H. reflexivity.
Qed.

Lemma translate_text_raised policy text w e :
  XLIFFTranslator.should_skip_translation text = false ->
  is_empty (strip (fst (XLIFFTranslator.extract_placeholders text))) = false ->
  service (w_calls w) (request_for text) = Raises e ->
  XLIFFTranslator.translate_text service policy text target_lang source_lang w
  = ((text, Some (TranslationError e)), call_service (request_for text) w).
Proof.
  unfold XLIFFTranslator.translate_text, request_for. intros Hs Hb Hr.
  rewrite Hs.
  destruct (XLIFFTranslator.extract_placeholders text) as [t ph].
  simpl in *. rewrite Hb, Hr. reflexivity.
Qed.

Lemma translate_text_answered policy text w translated :
  XLIFFTranslator.should_skip_translation text = false ->
  is_empty (strip (fst (XLIFFTranslator.extract_placeholders text))) = false ->
  service (w_calls w) (request_for text) = Translated translated ->
  XLIFFTranslator.translate_text service policy text target_lang source_lang w
  = let w1 := call_service (request_for text) w in
    let v := PlaceholderValidator.validate text (restored text translated) in
    if fst v then ((restored text translated, None), w1)
    else if policy then ((text, Some (ValidationFailed (snd v))), w1)
    else ((restored text translated, None),
          print (WarningLine (ValidationFailed (snd v))) w1).
Proof.
  unfold XLIFFTranslator.translate_text, request_for, restored.
  intros Hs Hb Hr. rewrite Hs.
  destruct (XLIFFTranslator.extract_placeholders text) as [t ph].
  simpl in *. rewrite Hb, Hr.
  destruct (PlaceholderValidator.validate text _) as [[|] err];
    simpl; reflexivity.
Qed.

(** C8.  When the skip policy signals skip, or nothing remains once the
    placeholders are replaced, the source text comes back with no error and
    no call is made; when the service call fails, the source text comes
    back with a service error. *)
Theorem translate_text_returns_source policy text w :
  (XLIFFTranslator.should_skip_translation text = true
   \/ is_empty (strip (fst (XLIFFTranslator.extract_placeholders text))) = true ->
   XLIFFTranslator.translate_text service policy text target_lang source_lang w
   = ((text, None), w))
  /\ (forall e,
        XLIFFTranslator.should_skip_translation text = false ->
        is_empty (strip (fst (XLIFFTranslator.extract_placeholders text))) = false ->
        service (w_calls w) (request_for text) = Raises e ->
        XLIFFTranslator.translate_text service policy text target_lang
          source_lang w
        = ((text, Some (TranslationError e)),
           call_service (request_for text) w)).
Proof.
  split.
  - apply translate_text_skipped.
  - intros e. apply translate_text_raised.
Qed.

End TranslateText.

Lemma translate_text_returns_source_witness :
  XLIFFTranslator.translate_text (answering (lit "x")) true (lit "kg")
    (lit "fr") (lit "en") empty_world
  = ((lit "kg", None), empty_world)
  /\ XLIFFTranslator.translate_text (failing (lit "timed out")) true
       (lit "Hello") (lit "fr") (lit "en") empty_world
     = ((lit "Hello", Some (TranslationError (lit "timed out"))),
        call_service {| req_source_lang := lit "en"; req_target_lang := lit "fr";
                        req_text := lit "Hello" |} empty_world).
Proof.
  split.
  - apply (proj1 (translate_text_returns_source (answering (lit "x"))
                    (lit "fr") (lit "en") true (lit "kg") empty_world)).
    left. vm_compute. reflexivity.
  - apply (proj2 (translate_text_returns_source (failing (lit "timed out"))
                    (lit "fr") (lit "en") true (lit "Hello") empty_world)
                 (lit "timed out")); vm_compute; reflexivity.
Defined.

Lemma validate_count_mismatch (original translated : str) :
  length (findall original) <> length (findall translated) ->
  PlaceholderValidator.validate original translated
  = (false, Some (CountMismatch (length (findall original))
                                (length (findall translated)))).
Proof.
  intros H. unfold PlaceholderValidator.validate,
    PlaceholderValidator.extract_placeholders.
  destruct (Nat.eqb_spec (length (findall original)) (length (findall translated)));
    [contradiction | reflexivity].
Qed.

Lemma validate_missing (original translated p : str) :
  length (findall original) = length (findall translated) ->
  p ∈ findall original -> p ∉ findall translated ->
  exists missing,
    PlaceholderValidator.validate original translated
    = (false, Some (MissingPlaceholders missing))
    /\ p ∈ missing.
Proof.
  intros Hlen Hin Hout. unfold PlaceholderValidator.validate,
    PlaceholderValidator.extract_placeholders.
  rewrite Hlen, Nat.eqb_refl. simpl.
  set (missing := list_to_set (findall original) ∖ list_to_set (findall translated)).
  assert (Hp : p ∈ missing).
  { apply elem_of_difference. rewrite !elem_of_list_to_set. auto. }
  case_bool_decide as He; simpl.
  - rewrite He in Hp. exfalso. exact (not_elem_of_empty p Hp).
  - exists missing. auto.
Qed.

(** C4, as stated, fails: when the service drops [%lld], the counts differ
    and the strict policy returns the source with the count message, which
    does not name the placeholder. *)
Lemma mismatch_error_need_not_name_placeholder :
  fst (XLIFFTranslator.translate_text
         (answering (lit "Vous avez bu ml aujourd'hui")) true
         drank_source (lit "fr") (lit "en") empty_world)
  = (drank_source, Some (ValidationFailed (Some (CountMismatch 1 0))))
  /\ error_message_text (ValidationFailed (Some (CountMismatch 1 0)))
     = lit "Placeholder validation failed: Placeholder count mismatch: original has 1, translated has 0"
  /\ names (ValidationFailed (Some (CountMismatch 1 0))) (lit "%lld") = false.
Proof. vm_compute. repeat split; reflexivity. Qed.

(** C4, amended.  When the restored translation fails validation, the strict
    policy returns the source text with the validation error and the relaxed
    policy returns the translated text with a printed warning and no error.
    The error is the count mismatch when the counts differ; it lists the
    missing placeholders only when the counts agree. *)
Theorem translate_text_on_mismatch
    (service : list request -> request -> response)
    (target_lang source_lang text : str) (w : world) (translated : str) :
  let placeholders := snd (XLIFFTranslator.extract_placeholders text) in
  let r := {| req_source_lang := source_lang; req_target_lang := target_lang;
              req_text := fst (XLIFFTranslator.extract_placeholders text) |} in
  let restored :=
    if negb (is_empty placeholders)
    then XLIFFTranslator.restore_placeholders translated placeholders
    else translated in
  let v := PlaceholderValidator.validate text restored in
  XLIFFTranslator.should_skip_translation text = false ->
  is_empty (strip (fst (XLIFFTranslator.extract_placeholders text))) = false ->
  service (w_calls w) r = Translated translated ->
  fst v = false ->
  XLIFFTranslator.translate_text service true text target_lang source_lang w
  = ((text, Some (ValidationFailed (snd v))), call_service r w)
  /\ XLIFFTranslator.translate_text service false text target_lang source_lang w
     = ((restored, None),
        print (WarningLine (ValidationFailed (snd v))) (call_service r w))
  /\ (length (findall text) <> length (findall restored) ->
      snd v = Some (CountMismatch (length (findall text))
                                  (length (findall restored))))
  /\ (length (findall text) = length (findall restored) ->
      forall p, p ∈ findall text -> p ∉ findall restored ->
      exists missing, snd v = Some (MissingPlaceholders missing) /\ p ∈ missing).
Proof.
  intros placeholders r restored v Hs Hb Hr Hv.
  repeat split.
  - rewrite (translate_text_answered service target_lang source_lang true
               text w translated Hs Hb Hr).
    cbv zeta. fold placeholders restored v. rewrite Hv. reflexivity.
  - rewrite (translate_text_answered service target_lang source_lang false
               text w translated Hs Hb Hr).
    cbv zeta. fold placeholders restored v. rewrite Hv. reflexivity.
  - intros Hlen. unfold v. rewrite validate_count_mismatch by assumption.
    reflexivity.
  - intros Hlen p Hin Hout.
    destruct (validate_missing text restored p Hlen Hin Hout) as (m & Hm & Hpm).
    exists m. unfold v. rewrite Hm. auto.
Qed.

Lemma translate_text_on_mismatch_witness :
  XLIFFTranslator.translate_text
    (answering (lit "Vous avez bu ml aujourd'hui")) true
    drank_source (lit "fr") (lit "en") empty_world
  = ((drank_source, Some (ValidationFailed (Some (CountMismatch 1 0)))),
     call_service {| req_source_lang := lit "en"; req_target_lang := lit "fr";
                     req_text := lit "You drank __PH0__ ml today" |}
       empty_world).
Proof.
  refine (proj1 (translate_text_on_mismatch
                   (answering (lit "Vous avez bu ml aujourd'hui"))
                   (lit "fr") (lit "en") drank_source empty_world
                   (lit "Vous avez bu ml aujourd'hui") _ _ _ _));
    vm_compute; reflexivity.
Defined.

Lemma should_skip_unit (text : str) :
  strip text ∈ UNITS -> XLIFFTranslator.should_skip_translation text = true.
Proof.
  intros H. unfold XLIFFTranslator.should_skip_translation.
  destruct (is_empty text || is_empty (strip text)); [reflexivity|].
  rewrite bool_decide_true by assumption. reflexivity.
Qed.

Lemma units_hold_no_placeholder : Forall (fun u => findall u = []) UNITS.
Proof. unfold UNITS. repeat constructor. Qed.

(** C5, as stated, fails: a unit literal inside a longer text is not a
    placeholder; it reaches the service as plain text, and a translation that
    alters it is returned with no error. *)
Lemma unit_inside_text_is_not_protected :
  XLIFFTranslator.translate_text
    (answering (lit "Vous avez bu __PH0__ millilitres aujourd'hui")) true
    drank_source (lit "fr") (lit "en") empty_world
  = ((lit "Vous avez bu %lld millilitres aujourd'hui", None),
     call_service {| req_source_lang := lit "en"; req_target_lang := lit "fr";
                     req_text := lit "You drank __PH0__ ml today" |}
       empty_world)
  /\ contains (lit "ml") (lit "Vous avez bu %lld millilitres aujourd'hui") = false.
Proof. vm_compute. split; reflexivity. Qed.

(** C5, amended.  A unit literal is protected when it is the whole trimmed
    text: the text comes back unchanged and no call is made.  No unit literal
    is a placeholder, so inside a longer text it is sent to the service as it
    stands.  When the service answers ["You drank __PH0__ ml today"] with
    ["Vous avez bu __PH0__ ml aujourd'hui"], [translate_text] returns
    ["Vous avez bu %lld ml aujourd'hui"] with no error. *)
Theorem units_protected_when_alone
    (service : list request -> request -> response) (policy : bool)
    (target_lang source_lang : str) (w : world) :
  (forall text,
     strip text ∈ UNITS ->
     XLIFFTranslator.translate_text service policy text target_lang source_lang w
     = ((text, None), w))
  /\ (forall u, u ∈ UNITS -> findall u = [])
  /\ (service (w_calls w)
        {| req_source_lang := source_lang; req_target_lang := target_lang;
           req_text := lit "You drank __PH0__ ml today" |}
      = Translated (lit "Vous avez bu __PH0__ ml aujourd'hui") ->
      XLIFFTranslator.translate_text service policy drank_source target_lang
        source_lang w
      = ((lit "Vous avez bu %lld ml aujourd'hui", None),
         call_service
           {| req_source_lang := source_lang; req_target_lang := target_lang;
              req_text := lit "You drank __PH0__ ml today" |} w)).
Proof.
  repeat split.
  - intros text H. apply translate_text_skipped. left. now apply should_skip_unit.
  - intros u Hu. exact (proj1 (Forall_forall _ _) units_hold_no_placeholder u Hu).
  - intros Hr.
    rewrite (translate_text_answered service target_lang source_lang policy
               drank_source w (lit "Vous avez bu __PH0__ ml aujourd'hui"));
      [reflexivity | reflexivity | reflexivity | exact Hr].
Qed.

Lemma units_protected_when_alone_witness :
  XLIFFTranslator.translate_text
    (answering (lit "Vous avez bu __PH0__ ml aujourd'hui")) true (lit " kg ")
    (lit "fr") (lit "en") empty_world
  = ((lit " kg ", None), empty_world)
  /\ XLIFFTranslator.translate_text
       (answering (lit "Vous avez bu __PH0__ ml aujourd'hui")) true
       drank_source (lit "fr") (lit "en") empty_world
     = ((lit "Vous avez bu %lld ml aujourd'hui", None),
        call_service {| req_source_lang := lit "en"; req_target_lang := lit "fr";
                        req_text := lit "You drank __PH0__ ml today" |}
          empty_world).
Proof.
  pose proof (units_protected_when_alone
                (answering (lit "Vous avez bu __PH0__ ml aujourd'hui")) true
                (lit "fr") (lit "en") empty_world) as (Hunit & _ & Hscenario).
  split.
  - apply Hunit. vm_compute. apply list_elem_of_here.
  - apply Hscenario. reflexivity.
Defined.

(** ** The file processor *)

Lemma lstrip_all_space (s : str) : forallb is_space s = true -> lstrip s = [].
Proof.
  induction s as [|c s IH]; simpl; [reflexivity|].
  destruct (is_space c); simpl; [exact IH | discriminate].
Qed.

Lemma strip_all_space (s : str) : forallb is_space s = true -> strip s = [].
Proof.
  intros H. unfold strip, rstrip. rewrite (lstrip_all_space s H).
  reflexivity.
Qed.

Lemma translate_text_disk service policy text tl sl w :
  w_disk (snd (XLIFFTranslator.translate_text service policy text tl sl w))
  = w_disk w.
Proof.
  unfold XLIFFTranslator.translate_text.
  destruct (XLIFFTranslator.should_skip_translation text); [reflexivity|].
  destruct (XLIFFTranslator.extract_placeholders text) as [t ph].
  destruct (is_empty (strip t)); [reflexivity|].
  destruct (service _ _); [|reflexivity].
  destruct (PlaceholderValidator.validate _ _) as [[|] err]; simpl;
    [reflexivity|]. destruct policy; reflexivity.
Qed.

Lemma lstrip_nil_inv (s : str) : lstrip s = [] -> forallb is_space s = true.
Proof.
  induction s as [|c s IH]; simpl; [reflexivity|].
  destruct (is_space c); simpl; [exact IH | discriminate].
Qed.

Lemma lstrip_lstrip (s : str) : lstrip (lstrip s) = lstrip s.
Proof.
  induction s as [|c s IH]; simpl; [reflexivity|].
  destruct (is_space c) eqn:E; [exact IH|]. simpl. rewrite E. reflexivity.
Qed.

Lemma forallb_rev_inv (p : char -> bool) (s : str) :
  forallb p (rev s) = true -> forallb p s = true.
Proof.
  rewrite !forallb_forall. intros H c Hc. apply H. now apply in_rev in Hc.
Qed.

(** A text strips to nothing exactly when it holds white space only. *)
Lemma is_empty_strip (s : str) : is_empty (strip s) = forallb is_space s.
Proof.
  destruct (forallb is_space s) eqn:E.
  - rewrite (strip_all_space s E). reflexivity.
  - destruct (strip s) as [|c r] eqn:Es; [|reflexivity]. exfalso.
    unfold strip, rstrip in Es.
    assert (Hl : lstrip (rev (lstrip s)) = []).
    { destruct (lstrip (rev (lstrip s))) as [|c r]; [reflexivity|].
      simpl in Es. destruct (rev r); discriminate. }
    apply lstrip_nil_inv, forallb_rev_inv in Hl.
    apply lstrip_all_space in Hl. rewrite lstrip_lstrip in Hl.
    apply lstrip_nil_inv in Hl. congruence.
Qed.

Lemma needs_translation_inv only_missing u :
  needs_translation only_missing u = true ->
  exists s,
    unit_source u = Some (Some s) /\ is_empty (strip s) = false
    /\ XLIFFTranslator.decide_target only_missing s (unit_target u)
       = XLIFFTranslator.NeedsTranslation.
Proof.
  unfold needs_translation. destruct (unit_source u) as [[s|]|]; try discriminate.
  intros H. apply andb_true_iff in H as [Hs Hd]. apply negb_true_iff in Hs.
  exists s. repeat split; [assumption|].
  destruct (XLIFFTranslator.decide_target only_missing s (unit_target u));
    [reflexivity | discriminate | discriminate].
Qed.

(** The [if / elif] chain of the loop selects the units the specification
    names. *)
Lemma needs_translation_as_specified only_missing u :
  needs_translation only_missing u = selected_for_translation only_missing u.
Proof.
  unfold needs_translation, selected_for_translation, source_unusable,
    unit_source_text.
  destruct (unit_source u) as [[s|]|]; [|reflexivity ..].
  rewrite is_empty_strip. destruct (forallb is_space s); [reflexivity|].
  cbn [negb andb]. destruct (unit_target u) as [target|]; [|reflexivity].
  unfold XLIFFTranslator.decide_target.
  destruct (target_text target) as [t|]; [|reflexivity].
  cbn [default truthy]. unfold id.
  rewrite is_empty_strip.
  destruct (forallb is_space t) eqn:Et.
  { rewrite orb_true_r. reflexivity. }
  assert (Hne : is_empty t = false) by (destruct t; [discriminate | reflexivity]).
  rewrite Hne. cbn [negb orb].
  destruct (bool_decide (target_state target = Some (lit "needs-review-l10n")));
    [reflexivity|]. cbn [orb].
  destruct only_missing; cbn [andb]; [|reflexivity].
  destruct (bool_decide (strip t = strip s)); reflexivity.
Qed.

Section Processing.

Variable service : list request -> request -> response.
Variable policy : bool.
Variable xml_char : char -> bool.
Variable xml_frame : Type.
Variable parse : file_content -> option (xml_frame * list trans_unit).
Variable tree_write : xml_frame -> list trans_unit -> option file_content.
Variable os_linesep : str.
Variables xliff_path target_lang source_lang : str.

Let process_unit :=
  XLIFFTranslator.process_unit service policy xml_char xliff_path target_lang
    source_lang.
Let process_units :=
  XLIFFTranslator.process_units service policy xml_char xliff_path target_lang
    source_lang.
Let translate (s : str) (w : world) :=
  XLIFFTranslator.translate_text service policy s target_lang source_lang w.
Let accepted := XLIFFTranslator.text_accepted xml_char.

Lemma process_unit_unusable dry_run only_missing u st :
  source_unusable u = true ->
  process_unit dry_run only_missing u st = Returns (u, st).
Proof.
  unfold source_unusable, process_unit, XLIFFTranslator.process_unit.
  destruct (unit_source u) as [[s|]|]; try reflexivity.
  intros H. rewrite (strip_all_space s H). reflexivity.
Qed.

Lemma process_unit_idle dry_run only_missing u st :
  needs_translation only_missing u = false ->
  process_unit dry_run only_missing u st = Returns (u, st).
Proof.
  unfold needs_translation, process_unit, XLIFFTranslator.process_unit.
  destruct (unit_source u) as [[s|]|]; try reflexivity.
  destruct (is_empty (strip s)); [reflexivity|]. cbn [negb andb].
  destruct (XLIFFTranslator.decide_target only_missing s (unit_target u));
    [discriminate | reflexivity | reflexivity].
Qed.

(** What one iteration does with a unit that needs translation. *)
Lemma process_unit_busy dry_run only_missing u s st :
  unit_source u = Some (Some s) -> is_empty (strip s) = false ->
  XLIFFTranslator.decide_target only_missing s (unit_target u)
  = XLIFFTranslator.NeedsTranslation ->
  process_unit dry_run only_missing u st
  = let out := translate s (XLIFFTranslator.ls_world st) in
    let w2 :=
      match snd (fst out) with
      | Some e => append_error {| er_file := path_name xliff_path;
                                  er_text := take 50 s; er_error := e |} (snd out)
      | None => snd out
      end in
    if negb dry_run && negb (accepted (fst (fst out))) then Raised w2
    else
      Returns
        ({| unit_source := unit_source u;
            unit_target :=
              Some (if dry_run
                    then default XLIFFTranslator.new_target (unit_target u)
                    else {| target_text := Some (fst (fst out));
                            target_state := Some (lit "translated") |}) |},
         {| XLIFFTranslator.translated_count :=
              S (XLIFFTranslator.translated_count st);
            XLIFFTranslator.error_count :=
              match snd (fst out) with
              | Some _ => S (XLIFFTranslator.error_count st)
              | None => XLIFFTranslator.error_count st
              end;
            XLIFFTranslator.modified :=
              if dry_run then XLIFFTranslator.modified st else true;
            XLIFFTranslator.ls_world :=
              if (S (XLIFFTranslator.translated_count st) mod 10 =? 0)%nat
              then sleep w2 else w2 |}).
Proof.
  intros Hsrc Hs Hd.
  unfold process_unit, XLIFFTranslator.process_unit, translate, accepted.
  rewrite Hsrc, Hs, Hd. cbv zeta.
  destruct (XLIFFTranslator.translate_text _ _ _ _ _ _) as [[tt [e|]] w1];
    destruct dry_run; cbn [negb andb fst snd and_then]; try reflexivity;
    destruct (XLIFFTranslator.text_accepted xml_char tt); reflexivity.
Qed.

Lemma process_units_cons dry_run only_missing u units st :
  process_units dry_run only_missing (u :: units) st
  = and_then (process_unit dry_run only_missing u st)
      (fun '(u', st1) =>
         and_then (process_units dry_run only_missing units st1)
           (fun '(units', st2) => Returns (u' :: units', st2))).
Proof. reflexivity. Qed.

Lemma process_units_app dry_run only_missing before after st :
  process_units dry_run only_missing (before ++ after) st
  = and_then (process_units dry_run only_missing before st)
      (fun '(before', st1) =>
         and_then (process_units dry_run only_missing after st1)
           (fun '(after', st2) => Returns (before' ++ after', st2))).
Proof.
  revert st. induction before as [|u before IH]; intros st.
  - cbn [app]. unfold process_units at 2. cbn [XLIFFTranslator.process_units and_then].
    destruct (process_units dry_run only_missing after st) as [[after' st2]|w];
      reflexivity.
  - cbn [app]. rewrite !process_units_cons.
    destruct (process_unit dry_run only_missing u st) as [[u' st1]|w];
      [|reflexivity].
    cbn [and_then]. rewrite IH.
    destruct (process_units dry_run only_missing before st1)
      as [[before' st2]|w]; [|reflexivity].
    cbn [and_then].
    destruct (process_units dry_run only_missing after st2)
      as [[after' st3]|w]; reflexivity.
Qed.

(** C10.  A unit without a source element, without source text, or with a
    blank source text is passed over: wherever it stands among the units,
    it is left as it was and the counts, the calls to the service and the
    rest of the state are those of the loop run without it. *)
Theorem unusable_source_unit_skipped dry_run only_missing u before after st :
  source_unusable u = true ->
  process_unit dry_run only_missing u st = Returns (u, st)
  /\ process_units dry_run only_missing (before ++ u :: after) st
     = and_then (process_units dry_run only_missing before st)
         (fun '(before', st1) =>
            and_then (process_units dry_run only_missing after st1)
              (fun '(after', st2) => Returns (before' ++ u :: after', st2))).
Proof.
  intros H. split; [now apply process_unit_unusable|].
  rewrite process_units_app.
  destruct (process_units dry_run only_missing before st)
    as [[before' st1]|w]; [|reflexivity].
  cbn [and_then]. rewrite process_units_cons.
  rewrite (process_unit_unusable dry_run only_missing u st1 H).
  cbn [and_then].
  destruct (process_units dry_run only_missing after st1)
    as [[after' st2]|w]; reflexivity.
Qed.

Lemma strip_nil_of_empty (s : str) : is_empty s = true -> is_empty (strip s) = true.
Proof. destruct s; [reflexivity | discriminate]. Qed.

Lemma truthy_of_strip (s : str) :
  is_empty (strip s) = false -> truthy (Some s) = true.
Proof.
  intros H. simpl. destruct (is_empty s) eqn:E; [|reflexivity].
  rewrite (strip_nil_of_empty s E) in H. discriminate.
Qed.

Lemma decide_target_same_as_source source_text target :
  is_empty (strip source_text) = false ->
  target_text target = Some source_text ->
  XLIFFTranslator.decide_target true source_text (Some target)
  = XLIFFTranslator.NeedsTranslation.
Proof.
  intros Hs Ht. unfold XLIFFTranslator.decide_target. rewrite Ht.
  rewrite (truthy_of_strip source_text Hs). simpl. rewrite Hs.
  case_bool_decide; [reflexivity|].
  rewrite bool_decide_true by reflexivity. reflexivity.
Qed.

Lemma decide_target_differs source_text target t :
  target_text target = Some t ->
  is_empty (strip t) = false ->
  strip t <> strip source_text ->
  target_state target <> Some (lit "needs-review-l10n") ->
  XLIFFTranslator.decide_target true source_text (Some target)
  = XLIFFTranslator.Continue.
Proof.
  intros Ht Hne Hdiff Hstate. unfold XLIFFTranslator.decide_target.
  rewrite Ht. rewrite (truthy_of_strip t Hne). simpl. rewrite Hne.
  rewrite !bool_decide_false by assumption. reflexivity.
Qed.

(** A unit that reaches translation is counted, unless the back end refuses
    the text in a real run; either way the world holds the calls
    [translate_text] made for its source. *)
Lemma process_unit_needing dry_run only_missing u source_text st :
  unit_source u = Some (Some source_text) ->
  is_empty (strip source_text) = false ->
  XLIFFTranslator.decide_target only_missing source_text (unit_target u)
  = XLIFFTranslator.NeedsTranslation ->
  w_calls (loop_world (process_unit dry_run only_missing u st))
  = w_calls (snd (translate source_text (XLIFFTranslator.ls_world st)))
  /\ match process_unit dry_run only_missing u st with
     | Returns (_, st') =>
         XLIFFTranslator.translated_count st'
         = S (XLIFFTranslator.translated_count st)
     | Raised _ =>
         dry_run = false
         /\ accepted (fst (fst (translate source_text
                                  (XLIFFTranslator.ls_world st)))) = false
     end.
Proof.
  intros Hsrc Hs Hd.
  rewrite (process_unit_busy dry_run only_missing u source_text) by assumption.
  cbv zeta.
  destruct (translate source_text (XLIFFTranslator.ls_world st))
    as [[tt e] w1].
  cbn [fst snd].
  destruct dry_run; cbn [negb andb].
  - split; [|reflexivity].
    destruct e; cbn [loop_world XLIFFTranslator.ls_world];
      destruct (_ =? _)%nat; reflexivity.
  - destruct (accepted tt); cbn [negb].
    + split; [|reflexivity].
      destruct e; cbn [loop_world XLIFFTranslator.ls_world];
        destruct (_ =? _)%nat; reflexivity.
    + split; [destruct e; reflexivity | split; reflexivity].
Qed.

(** C7, amended.  With [only_missing] set, a unit whose target text equals
    its source text reaches translation: [translate_text] is run on its
    source and the unit is counted (unless, in a real run, the back end
    refuses the text, which ends the loop); a unit whose target text is not
    blank, differs from the source text once both are trimmed, and is not
    flagged [needs-review-l10n], is passed over unchanged. *)
Theorem only_missing_decision dry_run source_text target st :
  is_empty (strip source_text) = false ->
  (target_text target = Some source_text ->
   let r := process_unit dry_run true
              {| unit_source := Some (Some source_text);
                 unit_target := Some target |} st in
   w_calls (loop_world r)
   = w_calls (snd (translate source_text (XLIFFTranslator.ls_world st)))
   /\ match r with
      | Returns (_, st') =>
          XLIFFTranslator.translated_count st'
          = S (XLIFFTranslator.translated_count st)
      | Raised _ =>
          dry_run = false
          /\ accepted (fst (fst (translate source_text
                                   (XLIFFTranslator.ls_world st)))) = false
      end)
  /\ (forall t,
        target_text target = Some t ->
        is_empty (strip t) = false ->
        strip t <> strip source_text ->
        target_state target <> Some (lit "needs-review-l10n") ->
        process_unit dry_run true
          {| unit_source := Some (Some source_text);
             unit_target := Some target |} st
        = Returns ({| unit_source := Some (Some source_text);
                      unit_target := Some target |}, st)).
Proof.
  intros Hs. split.
  - intros Ht. cbv zeta. apply (process_unit_needing _ _ _ source_text);
      [reflexivity | assumption |].
    now apply decide_target_same_as_source.
  - intros t Ht Hne Hdiff Hstate.
    unfold process_unit, XLIFFTranslator.process_unit.
    cbn [unit_source unit_target]. rewrite Hs.
    rewrite (decide_target_differs source_text target t) by assumption.
    reflexivity.
Qed.

(** *** Dry runs *)

(** An iteration of a dry run always returns. *)
Lemma process_unit_dry_run only_missing u st :
  exists u' st',
    process_unit true only_missing u st = Returns (u', st')
    /\ unit_target_text u' = unit_target_text u
    /\ unit_source u' = unit_source u
    /\ XLIFFTranslator.modified st' = XLIFFTranslator.modified st
    /\ w_disk (XLIFFTranslator.ls_world st')
       = w_disk (XLIFFTranslator.ls_world st)
    /\ XLIFFTranslator.translated_count st'
       = (XLIFFTranslator.translated_count st
          + length (List.filter (needs_translation only_missing) [u]))%nat.
Proof.
  cbn [List.filter].
  destruct (needs_translation only_missing u) eqn:Hn.
  - destruct (needs_translation_inv _ _ Hn) as (s & Hsrc & Hs & Hd).
    rewrite (process_unit_busy true only_missing u s) by assumption.
    cbv zeta. cbn [negb andb].
    pose proof (translate_text_disk service policy s target_lang source_lang
                  (XLIFFTranslator.ls_world st)) as Hdisk.
    fold (translate s (XLIFFTranslator.ls_world st)) in Hdisk.
    destruct (translate s (XLIFFTranslator.ls_world st)) as [[tt e] w1].
    cbn [fst snd] in *.
    eexists _, _. split; [reflexivity|].
    cbn [XLIFFTranslator.modified XLIFFTranslator.ls_world
         XLIFFTranslator.translated_count unit_source length].
    repeat split.
    + unfold unit_target_text. cbn [unit_target].
      destruct (unit_target u); reflexivity.
    + destruct e; destruct (_ =? _)%nat; exact Hdisk.
    + lia.
  - rewrite process_unit_idle by assumption.
    exists u, st. cbn [length]. repeat split. lia.
Qed.

(** So does its loop: it leaves the source and the target text of every
    unit, and the disk, as they were, and counts the units that need
    translation. *)
Lemma process_units_dry_run only_missing units st :
  exists units' st',
    process_units true only_missing units st = Returns (units', st')
    /\ map unit_target_text units' = map unit_target_text units
    /\ map unit_source units' = map unit_source units
    /\ XLIFFTranslator.modified st' = XLIFFTranslator.modified st
    /\ w_disk (XLIFFTranslator.ls_world st')
       = w_disk (XLIFFTranslator.ls_world st)
    /\ XLIFFTranslator.translated_count st'
       = (XLIFFTranslator.translated_count st
          + length (List.filter (needs_translation only_missing) units))%nat.
Proof.
  revert st. induction units as [|u units IH]; intros st.
  - exists [], st. cbn. repeat split. lia.
  - rewrite process_units_cons.
    destruct (process_unit_dry_run only_missing u st)
      as (u' & st1 & -> & H1 & H2 & H3 & H4 & H5).
    cbn [and_then].
    destruct (IH st1) as (units' & st2 & -> & I1 & I2 & I3 & I4 & I5).
    exists (u' :: units'), st2. cbn [and_then map].
    repeat split; try congruence.
    rewrite I5, H5. cbn [List.filter].
    destruct (needs_translation only_missing u); cbn [length]; lia.
Qed.

Lemma filter_length_nonzero (p : trans_unit -> bool) (units : list trans_unit) :
  length (List.filter p units) <> 0%nat <->
  exists u, u ∈ units /\ p u = true.
Proof.
  split.
  - intros Hn. destruct (List.filter p units) as [|u l] eqn:E;
      [contradiction|].
    assert (Hin : In u (List.filter p units))
      by (rewrite E; left; reflexivity).
    apply filter_In in Hin as [Hin Hu]. exists u. split; [|assumption].
    now apply list_elem_of_In.
  - intros (u & Hin & Hu) Hz.
    assert (Hf : In u (List.filter p units)).
    { apply filter_In. split; [now apply list_elem_of_In | assumption]. }
    destruct (List.filter p units); [contradiction | discriminate].
Qed.

(** C6, amended.  A dry run on a file that is read and parsed returns as
    its first count the number of units selected for translation (usable
    source; target absent, blank, flagged for review or, with
    [only_missing], equal to the source once trimmed), non-zero exactly
    when there is one; it leaves the source and the target text of every
    unit, and the disk, as they were.  On a file that cannot be read it
    returns [(0, 1)] and leaves the disk as it was; on one that is read
    and cannot be parsed it returns [(0, 1)]. *)
Theorem dry_run_leaves_targets_and_disk only_missing w :
  let o := XLIFFTranslator.process_xliff_file service policy xml_char xml_frame
             parse tree_write os_linesep xliff_path target_lang source_lang
             true only_missing w in
  match read_text xliff_path w with
  | None =>
      XLIFFTranslator.result o = (0, 1)%nat
      /\ w_disk (XLIFFTranslator.world_after o) = w_disk w
  | Some _ =>
      match w_disk w !! xliff_path ≫= parse with
      | None => XLIFFTranslator.result o = (0, 1)%nat
      | Some (frame, units) =>
          fst (XLIFFTranslator.result o)
          = length (List.filter (selected_for_translation only_missing) units)
          /\ (fst (XLIFFTranslator.result o) <> 0%nat <->
              exists u, u ∈ units
                        /\ selected_for_translation only_missing u = true)
          /\ (exists units',
                XLIFFTranslator.units_after o = Some units'
                /\ map unit_target_text units' = map unit_target_text units
                /\ map unit_source units' = map unit_source units)
          /\ w_disk (XLIFFTranslator.world_after o) = w_disk w
      end
  end.
Proof.
  cbv zeta. unfold XLIFFTranslator.process_xliff_file.
  destruct (read_text xliff_path w) as [original_content|];
    [|split; reflexivity].
  destruct (w_disk w !! xliff_path ≫= parse) as [[frame units]|];
    [|reflexivity].
  destruct (process_units_dry_run only_missing units (initial_state w))
    as (units' & st & Hr & H1 & H2 & H3 & H4 & H5).
  unfold process_units, initial_state in Hr. rewrite Hr.
  cbn [negb andb XLIFFTranslator.result XLIFFTranslator.units_after
       XLIFFTranslator.world_after fst].
  cbn [initial_state XLIFFTranslator.translated_count
       XLIFFTranslator.ls_world] in H4, H5.
  assert (Hc : XLIFFTranslator.translated_count st
               = length (List.filter (selected_for_translation only_missing)
                           units)).
  { rewrite H5. cbn [Nat.add]. f_equal. apply filter_ext.
    intros u. apply needs_translation_as_specified. }
  repeat split.
  - exact Hc.
  - rewrite Hc. apply filter_length_nonzero.
  - rewrite Hc. apply filter_length_nonzero.
  - exists units'. repeat split; assumption.
  - exact H4.
Qed.

End Processing.

Lemma unusable_source_unit_skipped_witness :
  XLIFFTranslator.process_unit (answering (lit "Bonjour")) true lxml_char
    sample_path (lit "fr") (lit "en") false false blank_unit
    (initial_state empty_world)
  = Returns (blank_unit, initial_state empty_world)
  /\ XLIFFTranslator.process_units (answering (lit "Bonjour")) true lxml_char
       sample_path (lit "fr") (lit "en") false false
       ([hello_unit None] ++ blank_unit :: [hello_unit None])
       (initial_state empty_world)
     = and_then
         (XLIFFTranslator.process_units (answering (lit "Bonjour")) true
            lxml_char sample_path (lit "fr") (lit "en") false false
            [hello_unit None] (initial_state empty_world))
         (fun '(before', st1) =>
            and_then
              (XLIFFTranslator.process_units (answering (lit "Bonjour")) true
                 lxml_char sample_path (lit "fr") (lit "en") false false
                 [hello_unit None] st1)
              (fun '(after', st2) =>
                 Returns (before' ++ blank_unit :: after', st2))).
Proof.
  apply (unusable_source_unit_skipped (answering (lit "Bonjour")) true
           lxml_char sample_path (lit "fr") (lit "en") false false blank_unit
           [hello_unit None] [hello_unit None] (initial_state empty_world)).
  vm_compute. reflexivity.
Defined.

(** C7, as stated, fails: with [only_missing] set, a target that differs
    from the source is translated again when it is flagged
    [needs-review-l10n], and when it differs only by surrounding white
    space. *)
Lemma differing_target_translated_again :
  match XLIFFTranslator.process_unit (answering (lit "Salut")) true lxml_char
          sample_path (lit "fr") (lit "en") false true
          (hello_unit (Some needs_review)) (initial_state empty_world) with
  | Returns (u', _) =>
      u' = hello_unit (Some {| target_text := Some (lit "Salut");
                               target_state := Some (lit "translated") |})
  | Raised _ => False
  end
  /\ match XLIFFTranslator.process_unit (answering (lit "Salut")) true
             lxml_char sample_path (lit "fr") (lit "en") false true
             (hello_unit (Some padded_copy)) (initial_state empty_world) with
     | Returns (u', _) =>
         u' = hello_unit (Some {| target_text := Some (lit "Salut");
                                  target_state := Some (lit "translated") |})
     | Raised _ => False
     end.
Proof. vm_compute. split; reflexivity. Qed.

Lemma only_missing_decision_witness :
  (exists u' st',
     XLIFFTranslator.process_unit (answering (lit "Salut")) true lxml_char
       sample_path (lit "fr") (lit "en") false true
       (hello_unit (Some verbatim_copy)) (initial_state empty_world)
     = Returns (u', st')
     /\ XLIFFTranslator.translated_count st' = 1%nat)
  /\ XLIFFTranslator.process_unit (answering (lit "Salut")) true lxml_char
       sample_path (lit "fr") (lit "en") false true
       (hello_unit (Some already_translated)) (initial_state empty_world)
     = Returns (hello_unit (Some already_translated), initial_state empty_world).
Proof.
  split.
  - pose proof (proj1 (only_missing_decision (answering (lit "Salut")) true
                         lxml_char sample_path (lit "fr") (lit "en") false
                         (lit "Hello") verbatim_copy
                         (initial_state empty_world) eq_refl) eq_refl)
      as [_ H].
    cbv zeta in H. unfold hello_unit.
    destruct (XLIFFTranslator.process_unit _ _ _ _ _ _ _ _ _ _)
      as [[u' st']|w'].
    + exists u', st'. split; [reflexivity | exact H].
    + destruct H as [_ H]. vm_compute in H. discriminate H.
  - apply (proj2 (only_missing_decision (answering (lit "Salut")) true
                    lxml_char sample_path (lit "fr") (lit "en") false
                    (lit "Hello") already_translated
                    (initial_state empty_world) eq_refl)
                 (lit "Bonjour")).
    + reflexivity.
    + reflexivity.
    + vm_compute. discriminate.
    + vm_compute. discriminate.
Defined.

(** C6, as stated, fails twice.  With [only_missing], a unit whose target
    already equals its source [kg] is counted by the dry run although the
    real run leaves every unit as it was: the count is not the number of
    units that would change.  And a dry run on a file that is read but
    cannot be parsed writes the file again, with its line ends changed. *)
Lemma dry_run_count_and_disk_not_as_stated :
  (let w := world_with_file sample_path (Utf8 (kg_xliff [LF])) in
   let run dry_run :=
     XLIFFTranslator.process_xliff_file (failing (lit "offline")) true
       lxml_char unit sample_parse sample_write [LF] sample_path (lit "fr")
       (lit "en") dry_run true w in
   XLIFFTranslator.result (run true) = (1, 0)%nat
   /\ XLIFFTranslator.units_after (run false) = Some [kg_unit]
   /\ sample_parse (Utf8 (kg_xliff [LF])) = Some (tt, [kg_unit]))
  /\ (let w := world_with_file sample_path (Utf8 (lit "<xliff>" ++ [CR; LF])) in
      let o := XLIFFTranslator.process_xliff_file (answering (lit "Bonjour"))
                 true lxml_char unit sample_parse sample_write [LF]
                 sample_path (lit "fr") (lit "en") true false w in
      w_disk w !! sample_path = Some (Utf8 (lit "<xliff>" ++ [CR; LF]))
      /\ w_disk (XLIFFTranslator.world_after o) !! sample_path
         = Some (Utf8 (lit "<xliff>" ++ [LF]))).
Proof. vm_compute. repeat split; reflexivity. Qed.

Lemma dry_run_leaves_targets_and_disk_witness :
  fst (XLIFFTranslator.result
         (XLIFFTranslator.process_xliff_file (answering (lit "Bonjour")) true
            lxml_char unit sample_parse sample_write [LF] sample_path
            (lit "fr") (lit "en") true false
            (world_with_file sample_path (Utf8 (sample_xliff [CR; LF])))))
  = 1%nat
  /\ w_disk (XLIFFTranslator.world_after
       (XLIFFTranslator.process_xliff_file (answering (lit "Bonjour")) true
          lxml_char unit sample_parse sample_write [LF] sample_path (lit "fr")
          (lit "en") true false
          (world_with_file sample_path (Utf8 (sample_xliff [CR; LF])))))
     = w_disk (world_with_file sample_path (Utf8 (sample_xliff [CR; LF]))).
Proof.
  pose proof (dry_run_leaves_targets_and_disk (answering (lit "Bonjour")) true
                lxml_char unit sample_parse sample_write [LF] sample_path
                (lit "fr") (lit "en") false
                (world_with_file sample_path (Utf8 (sample_xliff [CR; LF]))))
    as H.
  cbv zeta in H.
  assert (Hread : read_text sample_path
                    (world_with_file sample_path (Utf8 (sample_xliff [CR; LF])))
                  = Some (sample_xliff [LF]))
    by (vm_compute; reflexivity).
  assert (Hparse : w_disk (world_with_file sample_path
                             (Utf8 (sample_xliff [CR; LF]))) !! sample_path
                   ≫= sample_parse = Some (tt, [hello_unit None]))
    by (vm_compute; reflexivity).
  rewrite Hread, Hparse in H. destruct H as (H1 & _ & _ & H4).
  split; [exact H1 | exact H4].
Defined.

(** ** Rollback after a failed verification *)

Lemma universal_newlines_without_cr (s : str) :
  forallb (fun c => negb (c =? CR)) s = true -> universal_newlines s = s.
Proof.
  induction s as [|c s IH]; simpl; [reflexivity|].
  destruct (c =? CR); simpl; [discriminate|].
  intros H. rewrite IH by assumption. reflexivity.
Qed.

Lemma with_linesep_lf (s : str) : with_linesep [LF] s = s.
Proof.
  unfold with_linesep. induction s as [|c s IH]; simpl; [reflexivity|].
  rewrite IH. destruct (N.eqb_spec c LF); subst; reflexivity.
Qed.

Section Rollback.

Variable service : list request -> request -> response.
Variable policy : bool.
Variable xml_char : char -> bool.
Variable xml_frame : Type.
Variable parse : file_content -> option (xml_frame * list trans_unit).
Variable tree_write : xml_frame -> list trans_unit -> option file_content.
Variable os_linesep : str.
Variables xliff_path target_lang source_lang : str.

Let process_unit :=
  XLIFFTranslator.process_unit service policy xml_char xliff_path target_lang
    source_lang.
Let process_units :=
  XLIFFTranslator.process_units service policy xml_char xliff_path target_lang
    source_lang.
Let process_xliff_file :=
  XLIFFTranslator.process_xliff_file service policy xml_char xml_frame parse
    tree_write os_linesep xliff_path target_lang source_lang.

Lemma process_unit_modified_counted dry_run only_missing u st u' st' :
  process_unit dry_run only_missing u st = Returns (u', st') ->
  (XLIFFTranslator.modified st = true ->
   (0 < XLIFFTranslator.translated_count st)%nat) ->
  XLIFFTranslator.modified st' = true ->
  (0 < XLIFFTranslator.translated_count st')%nat.
Proof.
  destruct (needs_translation only_missing u) eqn:Hn.
  - destruct (needs_translation_inv _ _ Hn) as (s & Hsrc & Hs & Hd).
    unfold process_unit.
    rewrite (process_unit_busy service policy xml_char xliff_path target_lang
               source_lang dry_run only_missing u s) by assumption.
    cbv zeta. destruct (negb dry_run && _); [discriminate|].
    intros [= <- <-] _ _. cbn. lia.
  - unfold process_unit.
    rewrite (process_unit_idle service policy xml_char xliff_path target_lang
               source_lang dry_run only_missing u st Hn).
    intros [= <- <-]. auto.
Qed.

Lemma process_units_modified_counted dry_run only_missing units st units' st' :
  process_units dry_run only_missing units st = Returns (units', st') ->
  (XLIFFTranslator.modified st = true ->
   (0 < XLIFFTranslator.translated_count st)%nat) ->
  XLIFFTranslator.modified st' = true ->
  (0 < XLIFFTranslator.translated_count st')%nat.
Proof.
  revert st units'. induction units as [|u units IH]; intros st units'.
  - intros [= <- <-]. auto.
  - unfold process_units. cbn [XLIFFTranslator.process_units].
    fold (process_unit dry_run only_missing u st).
    destruct (process_unit dry_run only_missing u st) as [[u1 st1]|w] eqn:Eu;
      [|discriminate].
    cbn [and_then]. fold (process_units dry_run only_missing units st1).
    destruct (process_units dry_run only_missing units st1)
      as [[units1 st2]|w] eqn:Eus; [|discriminate].
    cbn [and_then]. intros [= <- <-] Hst.
    apply (IH st1 units1 Eus).
    exact (process_unit_modified_counted _ _ _ _ _ _ Eu Hst).
Qed.

(** After a failed verification the call returns no translation and a
    positive error count, and the file holds the text read at the start,
    written back in text mode. *)
Lemma failed_verification_writes_text_back only_missing w chars frame units
    units' st written :
  w_disk w !! xliff_path = Some (Utf8 chars) ->
  parse (Utf8 chars) = Some (frame, units) ->
  process_units false only_missing units (initial_state w)
  = Returns (units', st) ->
  XLIFFTranslator.modified st = true ->
  tree_write frame units' = Some written ->
  verified written = false ->
  let o := process_xliff_file false only_missing w in
  XLIFFTranslator.result o = (0%nat, XLIFFTranslator.translated_count st)
  /\ (0 < XLIFFTranslator.translated_count st)%nat
  /\ w_disk (XLIFFTranslator.world_after o)
     = <[xliff_path := Utf8 (with_linesep os_linesep (universal_newlines chars))]>
         (w_disk (XLIFFTranslator.ls_world st)).
Proof.
  intros Hdisk Hparse Hloop Hmod Hwrite Hver o.
  assert (Hpos : (0 < XLIFFTranslator.translated_count st)%nat).
  { apply (process_units_modified_counted false only_missing units
             (initial_state w) units' st Hloop); [discriminate | exact Hmod]. }
  unfold o, process_xliff_file, XLIFFTranslator.process_xliff_file, read_text.
  rewrite Hdisk. cbn [mbind option_bind]. rewrite Hparse.
  unfold process_units, initial_state in Hloop. rewrite Hloop.
  rewrite Hmod, Hwrite. cbn [negb andb]. cbv zeta.
  unfold read_text, write_text, store, with_linesep. cbn [w_disk].
  rewrite lookup_insert_eq, insert_insert_eq.
  unfold verified in Hver.
  destruct written as [text|bytes].
  - rewrite Hver. cbn. auto.
  - cbn. auto.
Qed.

Lemma process_unit_disk dry_run only_missing u st :
  w_disk (loop_world (process_unit dry_run only_missing u st))
  = w_disk (XLIFFTranslator.ls_world st).
Proof.
  destruct (needs_translation only_missing u) eqn:Hn.
  - destruct (needs_translation_inv _ _ Hn) as (s & Hsrc & Hs & Hd).
    unfold process_unit.
    rewrite (process_unit_busy service policy xml_char xliff_path target_lang
               source_lang dry_run only_missing u s) by assumption.
    cbv zeta.
    pose proof (translate_text_disk service policy s target_lang source_lang
                  (XLIFFTranslator.ls_world st)) as Hdisk.
    destruct (XLIFFTranslator.translate_text _ _ _ _ _ _) as [[tt e] w1].
    cbn [fst snd] in *.
    destruct (negb dry_run && _); cbn [loop_world XLIFFTranslator.ls_world];
      destruct e; try destruct (_ =? _)%nat; exact Hdisk.
  - unfold process_unit.
    rewrite (process_unit_idle service policy xml_char xliff_path target_lang
               source_lang dry_run only_missing u st Hn).
    reflexivity.
Qed.

Lemma process_units_disk dry_run only_missing units st :
  w_disk (loop_world (process_units dry_run only_missing units st))
  = w_disk (XLIFFTranslator.ls_world st).
Proof.
  revert st. induction units as [|u units IH]; intros st; [reflexivity|].
  unfold process_units. cbn [XLIFFTranslator.process_units].
  fold (process_unit dry_run only_missing u st).
  pose proof (process_unit_disk dry_run only_missing u st) as Hu.
  destruct (process_unit dry_run only_missing u st) as [[u1 st1]|w];
    [|exact Hu].
  cbn [and_then loop_world] in *.
  fold (process_units dry_run only_missing units st1).
  specialize (IH st1).
  destruct (process_units dry_run only_missing units st1)
    as [[units1 st2]|w]; cbn [and_then loop_world] in *; congruence.
Qed.

(** With [\n] as line separator, a file that holds no carriage return is
    put back exactly when the verification fails. *)
Lemma rollback_exact_without_cr only_missing w chars frame units units' st
    written :
  os_linesep = [LF] ->
  forallb (fun c => negb (c =? CR)) chars = true ->
  w_disk w !! xliff_path = Some (Utf8 chars) ->
  parse (Utf8 chars) = Some (frame, units) ->
  process_units false only_missing units (initial_state w)
  = Returns (units', st) ->
  XLIFFTranslator.modified st = true ->
  tree_write frame units' = Some written ->
  verified written = false ->
  w_disk (XLIFFTranslator.world_after (process_xliff_file false only_missing w))
  = w_disk w.
Proof.
  intros Hsep Hcr Hdisk Hparse Hloop Hmod Hwrite Hver.
  destruct (failed_verification_writes_text_back only_missing w chars frame
              units units' st written Hdisk Hparse Hloop Hmod Hwrite Hver)
    as (_ & _ & Hafter).
  rewrite Hafter.
  pose proof (process_units_disk false only_missing units (initial_state w))
    as Hd.
  rewrite Hloop in Hd. cbn [loop_world initial_state XLIFFTranslator.ls_world] in Hd.
  rewrite Hd.
  rewrite Hsep, with_linesep_lf, universal_newlines_without_cr by assumption.
  now apply insert_id.
Qed.

(** The loop over the files goes on after every file, whatever its
    outcome. *)
Lemma process_files_continues xliff_file rest dry_run only_missing results w :
  XLIFFTranslator.process_files service policy xml_char xml_frame parse
    tree_write os_linesep (xliff_file :: rest) target_lang dry_run
    only_missing results w
  = let o := XLIFFTranslator.process_xliff_file service policy xml_char
               xml_frame parse tree_write os_linesep xliff_file target_lang
               (lit "en") dry_run only_missing
               (print (FileLine (path_name xliff_file)) w) in
    XLIFFTranslator.process_files service policy xml_char xml_frame parse
      tree_write os_linesep rest target_lang dry_run only_missing
      (<[path_name xliff_file := XLIFFTranslator.result o]> results)
      (print (SummaryLine (fst (XLIFFTranslator.result o))
                          (snd (XLIFFTranslator.result o)))
             (XLIFFTranslator.world_after o)).
Proof.
  cbn [XLIFFTranslator.process_files]. cbv zeta.
  destruct (XLIFFTranslator.result _) as [translated errors]. reflexivity.
Qed.

(** A file that cannot be parsed is written back in text mode as well, dry
    run or not. *)
Lemma unparsable_file_written_back dry_run only_missing w chars :
  w_disk w !! xliff_path = Some (Utf8 chars) ->
  parse (Utf8 chars) = None ->
  let o := process_xliff_file dry_run only_missing w in
  XLIFFTranslator.result o = (0, 1)%nat
  /\ w_disk (XLIFFTranslator.world_after o)
     = <[xliff_path := Utf8 (with_linesep os_linesep (universal_newlines chars))]>
         (w_disk w).
Proof.
  intros Hdisk Hparse o.
  unfold o, process_xliff_file, XLIFFTranslator.process_xliff_file, read_text.
  rewrite Hdisk. cbn [mbind option_bind]. rewrite Hparse.
  split; reflexivity.
Qed.

End Rollback.

(** C2 fails on a file whose lines end in [\r\n]: the tree writer leaves an
    empty file, the verification fails, the call returns [(0, 1)], and the
    file put back has its line ends rewritten to [\n].  Where the line
    separator is [\r\n], a file whose lines end in [\n] is put back with
    [\r\n]. *)
Theorem rollback_rewrites_line_ends :
  (let w := world_with_file sample_path (Utf8 (sample_xliff [CR; LF])) in
   let o := XLIFFTranslator.process_xliff_file (answering (lit "Bonjour")) true
              lxml_char unit sample_parse truncating_write [LF] sample_path
              (lit "fr") (lit "en") false false w in
   XLIFFTranslator.result o = (0, 1)%nat
   /\ w_disk (XLIFFTranslator.world_after o) !! sample_path
      = Some (Utf8 (sample_xliff [LF]))
   /\ w_disk (XLIFFTranslator.world_after o) !! sample_path
      <> w_disk w !! sample_path)
  /\ (let w := world_with_file sample_path (Utf8 (sample_xliff [LF])) in
      let o := XLIFFTranslator.process_xliff_file (answering (lit "Bonjour"))
                 true lxml_char unit sample_parse truncating_write [CR; LF]
                 sample_path (lit "fr") (lit "en") false false w in
      XLIFFTranslator.result o = (0, 1)%nat
      /\ w_disk (XLIFFTranslator.world_after o) !! sample_path
         = Some (Utf8 (sample_xliff [CR; LF]))
      /\ w_disk (XLIFFTranslator.world_after o) !! sample_path
         <> w_disk w !! sample_path).
Proof.
  cbv zeta. repeat split; try (vm_compute; reflexivity);
    vm_compute; discriminate.
Qed.

(** * Further properties of the code *)

(** ** The codec *)

Lemma pairs_from_imap (i : nat) (ms : list str) :
  pairs_from i ms = imap (fun j m => (XLIFFTranslator.marker (i + j), m)) ms.
Proof.
  revert i. induction ms as [|m ms IH]; intros i; [reflexivity|].
  cbn [pairs_from imap]. rewrite Nat.add_0_r. f_equal.
  rewrite IH. apply imap_ext. intros j x _. unfold compose.
  replace (S i + j)%nat with (i + S j)%nat by lia. reflexivity.
Qed.

Lemma extract_loop_pairs (i : nat) (ms : list str) (t : str)
    (acc : list (str * str)) :
  snd (XLIFFTranslator.extract_loop i ms t acc) = acc ++ pairs_from i ms.
Proof.
  revert i t acc. induction ms as [|m ms IH]; intros i t acc.
  - cbn. rewrite app_nil_r. reflexivity.
  - cbn [XLIFFTranslator.extract_loop pairs_from]. rewrite IH, <- app_assoc.
    reflexivity.
Qed.

Lemma pairs_from_snd (i : nat) (ms : list str) : map snd (pairs_from i ms) = ms.
Proof.
  revert i. induction ms as [|m ms IH]; intros i; [reflexivity|].
  cbn [pairs_from map snd]. rewrite IH. reflexivity.
Qed.

(** [extract_placeholders] returns one pair per match of the pattern, in
    the order of the matches: the i-th pair holds the marker [__PHi__] and
    the i-th match. *)
Theorem extract_placeholders_pairs (text : str) :
  snd (XLIFFTranslator.extract_placeholders text)
  = imap (fun i m => (XLIFFTranslator.marker i, m)) (findall text)
  /\ map snd (snd (XLIFFTranslator.extract_placeholders text)) = findall text.
Proof.
  unfold XLIFFTranslator.extract_placeholders.
  rewrite extract_loop_pairs. cbn [app]. split.
  - apply pairs_from_imap.
  - apply pairs_from_snd.
Qed.

(** Markers are told apart by their ordinal: a marker starts a text that
    begins with a marker only if it is that marker, so [__PH1__] is not found
    at [__PH10__]. *)
Theorem markers_prefix_free (i j : nat) (rest : str) :
  starts_with (XLIFFTranslator.marker i) (XLIFFTranslator.marker j ++ rest) = true
  <-> i = j.
Proof.
  split; [apply marker_prefix_inj | intros ->; apply starts_with_app].
Qed.

Lemma contains_false_suffix (p a1 a2 : str) :
  contains p (a1 ++ a2) = false -> starts_with p a2 = false.
Proof.
  induction a1 as [|c a1 IH]; intros H.
  - destruct a2; cbn [app contains] in H;
      apply orb_false_iff in H as [H _]; exact H.
  - cbn [app contains] in H. apply orb_false_iff in H as [_ H]. auto.
Qed.

Lemma no_start_of_contains (p s : str) : contains p s = false -> no_start p s [].
Proof.
  intros H a1 a2 -> _. rewrite app_nil_r. exact (contains_false_suffix p a1 a2 H).
Qed.

(** A text in which none of the markers occurs comes back from
    [restore_placeholders] as it is. *)
Theorem restore_without_markers (text : str) (placeholders : list (str * str)) :
  Forall (fun mp => fst mp <> [] /\ contains (fst mp) text = false) placeholders ->
  XLIFFTranslator.restore_placeholders text placeholders = text.
Proof.
  unfold XLIFFTranslator.restore_placeholders.
  induction 1 as [|[marker placeholder] rest [Hne Hc] _ IH]; [reflexivity|].
  cbn [fold_left fst snd] in *.
  rewrite str_replace_not_nil by assumption.
  rewrite replace_from_absent by (now apply no_start_of_contains). exact IH.
Qed.

Lemma restore_without_markers_witness :
  XLIFFTranslator.restore_placeholders (lit "Vous avez bu ml aujourd'hui")
    [(lit "__PH0__", lit "%lld")]
  = lit "Vous avez bu ml aujourd'hui".
Proof.
  apply restore_without_markers.
  constructor; [split; [discriminate | vm_compute; reflexivity] | constructor].
Defined.

(** In a text where [PH] is nowhere followed by an ASCII digit, the
    extracted text is the text itself with the i-th match replaced, where it
    stands, by the marker [__PHi__]. *)
Theorem extract_placeholders_in_place (text : str) :
  has_PHd text = false ->
  fst (XLIFFTranslator.extract_placeholders text) = render_sub 0 (scan text).
Proof.
  intros Hp. unfold XLIFFTranslator.extract_placeholders.
  rewrite findall_matches.
  destruct (scan_spec (length text) text (le_n _)) as [Hsc Hre].
  pose proof (extract_loop_spec (scan text) [] [] Hsc) as He.
  cbn [app render_sub render_orig matches length] in He.
  rewrite Hre in He. rewrite He by exact Hp. reflexivity.
Qed.

Lemma extract_placeholders_in_place_witness :
  fst (XLIFFTranslator.extract_placeholders (lit "%d of %d in {0}"))
  = render_sub 0 (scan (lit "%d of %d in {0}")).
Proof. apply extract_placeholders_in_place. vm_compute. reflexivity. Defined.

(** ** The pattern *)

Lemma scanned_shapes (ps : list piece) :
  scanned ps -> Forall placeholder_shape (matches ps).
Proof.
  induction ps as [|[c|m] ps IH]; intros H; cbn [matches].
  - constructor.
  - apply IH. inversion H; assumption.
  - constructor; [exact (scanned_match_shape m ps H)|].
    apply IH. inversion H; assumption.
Qed.

Lemma render_orig_permutation (ps : list piece) :
  render_orig ps
  ≡ₚ flat_map (fun p => match p with Match _ => [] | Gap c => [c] end) ps
     ++ concat (matches ps).
Proof.
  induction ps as [|[c|m] ps IH]; cbn [render_orig flat_map matches concat app].
  - reflexivity.
  - now apply Permutation_skip.
  - rewrite IH. apply Permutation_app_swap_app.
Qed.

Lemma gaps_sublist (ps : list piece) :
  flat_map (fun p => match p with Match _ => [] | Gap c => [c] end) ps
  `sublist_of` render_orig ps.
Proof.
  induction ps as [|[c|m] ps IH]; cbn [render_orig flat_map app].
  - constructor.
  - now apply sublist_skip.
  - now apply sublist_inserts_l.
Qed.

Lemma matches_sublist (ps : list piece) :
  concat (matches ps) `sublist_of` render_orig ps.
Proof.
  induction ps as [|[c|m] ps IH]; cbn [render_orig matches concat].
  - constructor.
  - now apply sublist_cons.
  - now apply sublist_app.
Qed.

(** The scan cuts a text into the matches and the characters between them:
    every token [findall] returns has one of the six shapes of the pattern;
    the characters [sub] keeps together with those of the tokens are the
    characters of the text, each as often as in the text; and both the kept
    characters and the tokens stand in the text in that order. *)
Theorem findall_partitions_text (text : str) :
  Forall placeholder_shape (findall text)
  /\ text ≡ₚ sub_empty text ++ concat (findall text)
  /\ sub_empty text `sublist_of` text
  /\ concat (findall text) `sublist_of` text.
Proof.
  destruct (scan_spec (length text) text (le_n _)) as [Hsc Hre].
  rewrite findall_matches. unfold sub_empty.
  split; [now apply scanned_shapes|].
  remember (scan text) as ps eqn:Eps. clear Eps Hsc. subst text.
  split; [apply render_orig_permutation|].
  split; [apply gaps_sublist | apply matches_sublist].
Qed.

(** A text that begins with a placeholder of one of the six shapes yields a
    token that starts at its first character. *)
Theorem placeholder_at_start_is_found (m x : str) :
  placeholder_shape m ->
  exists n, match_at (m ++ x) = Some n
            /\ findall (m ++ x) = take n (m ++ x) :: findall (drop n (m ++ x)).
Proof.
  intros Hm. destruct (match_at (m ++ x)) as [n|] eqn:E;
    [|exfalso; exact (shape_matches m Hm x E)].
  exists n. split; [reflexivity|].
  destruct (match_at_shape _ _ E) as (m2 & rest & Hs & -> & Hm2).
  rewrite Hs in *. rewrite !findall_matches, (scan_match m2 rest Hm2 E).
  rewrite take_app_length, drop_app_length. reflexivity.
Qed.

Lemma placeholder_at_start_is_found_witness :
  exists n, match_at (lit "%1$@ left") = Some n
            /\ findall (lit "%1$@ left")
               = take n (lit "%1$@ left") :: findall (drop n (lit "%1$@ left")).
Proof.
  apply (placeholder_at_start_is_found (lit "%1$@") (lit " left")).
  apply (shape_positional [49] [AT]); (discriminate || reflexivity).
Defined.

(** ** The validator *)

Lemma validate_same_tokens (original translated : str) :
  length (findall original) = length (findall translated) ->
  (list_to_set (findall original) : gset str) = list_to_set (findall translated) ->
  PlaceholderValidator.validate original translated = (true, None).
Proof.
  intros Hlen Hset. unfold PlaceholderValidator.validate,
    PlaceholderValidator.extract_placeholders.
  rewrite Hlen, Nat.eqb_refl, Hset. cbn [negb].
  rewrite difference_diag_L. rewrite bool_decide_true by reflexivity.
  reflexivity.
Qed.

(** The validator does not look at the order of the placeholders: a
    translation whose placeholders are those of the original in another
    order is accepted, with no message. *)
Theorem validate_accepts_reordering (original translated : str) :
  findall translated ≡ₚ findall original ->
  PlaceholderValidator.validate original translated = (true, None).
Proof.
  intros Hp. apply validate_same_tokens.
  - symmetry. now apply Permutation_length.
  - symmetry. now apply list_to_set_perm_L.
Qed.

Lemma validate_accepts_reordering_witness :
  PlaceholderValidator.validate (lit "%d of %@") (lit "%@ sur %d") = (true, None).
Proof.
  apply validate_accepts_reordering.
  replace (findall (lit "%@ sur %d")) with [lit "%@"; lit "%d"]
    by (vm_compute; reflexivity).
  replace (findall (lit "%d of %@")) with [lit "%d"; lit "%@"]
    by (vm_compute; reflexivity).
  apply perm_swap.
Defined.

(** ** The unit translator, whatever the service does *)

Section AnyService.

Variable service : list request -> request -> response.
Variables target_lang source_lang : str.

(** Under the strict policy the text [translate_text] returns always passes
    the validation against the source: it is the source itself or a
    translation that kept the placeholders. *)
Theorem strict_output_validates (text : str) (w : world) :
  fst (PlaceholderValidator.validate text
         (fst (fst (XLIFFTranslator.translate_text service true text
                      target_lang source_lang w))))
  = true.
Proof.
  assert (Hsame : fst (PlaceholderValidator.validate text text) = true)
    by (rewrite (validate_same_tokens text text eq_refl eq_refl); reflexivity).
  unfold XLIFFTranslator.translate_text.
  destruct (XLIFFTranslator.should_skip_translation text); [exact Hsame|].
  destruct (XLIFFTranslator.extract_placeholders text) as [t ph].
  destruct (is_empty (strip t)); [exact Hsame|].
  destruct (service _ _) as [translated|e]; [|exact Hsame].
  cbv zeta. set (r := if negb (is_empty ph) then _ else _).
  destruct (PlaceholderValidator.validate text r) as [[|] err] eqn:E;
    cbn [negb fst]; [rewrite E; reflexivity | exact Hsame].
Qed.

(** An error never comes with a translation: whenever [translate_text]
    returns an error the text it returns is the source.  Under the relaxed
    policy the only error it returns is that of a failed call. *)
Theorem error_comes_with_source (policy : bool) (text : str) (w : world)
    (e : error_message) :
  snd (fst (XLIFFTranslator.translate_text service policy text target_lang
              source_lang w)) = Some e ->
  fst (fst (XLIFFTranslator.translate_text service policy text target_lang
              source_lang w)) = text
  /\ (policy = false -> exists msg, e = TranslationError msg).
Proof.
  unfold XLIFFTranslator.translate_text.
  destruct (XLIFFTranslator.should_skip_translation text); [discriminate|].
  destruct (XLIFFTranslator.extract_placeholders text) as [t ph].
  destruct (is_empty (strip t)); [discriminate|].
  destruct (service _ _) as [translated|msg].
  - destruct (PlaceholderValidator.validate text _) as [[|] err];
      cbn [negb fst snd]; [discriminate|].
    destruct policy; cbn [fst snd]; [|discriminate].
    intros _. split; [reflexivity | discriminate].
  - cbn [fst snd]. intros [= <-]. eauto.
Qed.

Lemma translate_text_frame (policy : bool) (text : str) (w : world) :
  let w' := snd (XLIFFTranslator.translate_text service policy text target_lang
                   source_lang w) in
  (w_calls w' = w_calls w
   \/ w_calls w'
      = w_calls w
        ++ [{| req_source_lang := source_lang; req_target_lang := target_lang;
               req_text := fst (XLIFFTranslator.extract_placeholders text) |}])
  /\ w_disk w' = w_disk w
  /\ w_errors w' = w_errors w
  /\ w_sleeps w' = w_sleeps w
  /\ (policy = true -> w_stdout w' = w_stdout w).
Proof.
  unfold XLIFFTranslator.translate_text.
  destruct (XLIFFTranslator.should_skip_translation text); [cbn; auto 10|].
  destruct (XLIFFTranslator.extract_placeholders text) as [t ph].
  destruct (is_empty (strip t)); [cbn; auto 10|].
  destruct (service _ _) as [translated|msg]; [|cbn; auto 10].
  destruct (PlaceholderValidator.validate text _) as [[|] err];
    cbn [negb]; [cbn; auto 10|].
  destruct policy; cbn; repeat split; auto; discriminate.
Qed.

(** [translate_text] calls the service at most once, with the extracted text
    of its argument; it leaves the files, [self.errors] and the pauses as
    they are, and prints nothing under the strict policy. *)
Theorem translate_text_effects (policy : bool) (text : str) (w : world) :
  let w' := snd (XLIFFTranslator.translate_text service policy text target_lang
                   source_lang w) in
  (w_calls w' = w_calls w
   \/ w_calls w'
      = w_calls w
        ++ [{| req_source_lang := source_lang; req_target_lang := target_lang;
               req_text := fst (XLIFFTranslator.extract_placeholders text) |}])
  /\ w_disk w' = w_disk w
  /\ w_errors w' = w_errors w
  /\ w_sleeps w' = w_sleeps w
  /\ (policy = true -> w_stdout w' = w_stdout w).
Proof. apply translate_text_frame. Qed.

End AnyService.

Lemma error_comes_with_source_witness :
  fst (fst (XLIFFTranslator.translate_text (failing (lit "timed out")) false
              (lit "Hello") (lit "fr") (lit "en") empty_world))
  = lit "Hello"
  /\ (false = false ->
      exists msg, TranslationError (lit "timed out") = TranslationError msg).
Proof.
  apply (error_comes_with_source (failing (lit "timed out")) (lit "fr")
           (lit "en") false (lit "Hello") empty_world).
  vm_compute. reflexivity.
Defined.

(** ** The characters of a translated text *)

Section Characters.

Variable p : char -> bool.

Lemma forallb_replace_from (old new : str) (skip : nat) (s : str) :
  forallb p s = true -> forallb p new = true ->
  forallb p (replace_from old new skip s) = true.
Proof.
  intros Hs Hnew. revert skip Hs.
  induction s as [|c s IH]; intros skip Hs; [reflexivity|].
  cbn [forallb] in Hs. apply andb_true_iff in Hs as [Hc Hs].
  cbn [replace_from]. destruct skip as [|k]; [|now apply IH].
  destruct (starts_with old (c :: s)).
  - rewrite forallb_app, Hnew. now apply IH.
  - cbn [forallb]. rewrite Hc. now apply IH.
Qed.

Lemma forallb_str_replace (old new s : str) :
  forallb p s = true -> forallb p new = true ->
  forallb p (str_replace old new s) = true.
Proof.
  intros Hs Hnew. unfold str_replace. destruct old as [|o old].
  - rewrite forallb_app, Hnew. cbn [andb].
    induction s as [|c s IH]; [reflexivity|].
    cbn [forallb] in Hs. apply andb_true_iff in Hs as [Hc Hs].
    cbn [flat_map app forallb]. rewrite Hc, forallb_app, Hnew. now apply IH.
  - now apply forallb_replace_from.
Qed.

Lemma forallb_restore_placeholders (text : str) (placeholders : list (str * str)) :
  forallb p text = true ->
  Forall (fun mp => forallb p (snd mp) = true) placeholders ->
  forallb p (XLIFFTranslator.restore_placeholders text placeholders) = true.
Proof.
  unfold XLIFFTranslator.restore_placeholders. intros Ht Hph. revert text Ht.
  induction Hph as [|mp placeholders Hmp _ IH]; intros text Ht; [exact Ht|].
  cbn [fold_left]. apply IH. now apply forallb_str_replace.
Qed.

Lemma forallb_matches (ps : list piece) :
  forallb p (render_orig ps) = true ->
  Forall (fun m => forallb p m = true) (matches ps).
Proof.
  induction ps as [|[c|m] ps IH]; cbn [render_orig matches forallb].
  - constructor.
  - intros H. apply andb_true_iff in H as [_ H]. now apply IH.
  - rewrite forallb_app. intros H. apply andb_true_iff in H as [Hm H].
    constructor; [exact Hm | now apply IH].
Qed.

Lemma forallb_pairs_from (i : nat) (ms : list str) :
  Forall (fun m => forallb p m = true) ms ->
  Forall (fun mp => forallb p (snd mp) = true) (pairs_from i ms).
Proof.
  intros H. revert i. induction H as [|m ms Hm _ IH]; intros i;
    cbn [pairs_from]; constructor; [exact Hm | apply IH].
Qed.

(** The placeholders taken out of a text hold characters of the text
    only. *)
Lemma forallb_extracted (text : str) :
  forallb p text = true ->
  Forall (fun mp => forallb p (snd mp) = true)
    (snd (XLIFFTranslator.extract_placeholders text)).
Proof.
  intros H. unfold XLIFFTranslator.extract_placeholders.
  rewrite extract_loop_pairs. cbn [app]. apply forallb_pairs_from.
  rewrite findall_matches. apply forallb_matches.
  destruct (scan_spec (length text) text (le_n _)) as [_ ->]. exact H.
Qed.

(** The text [translate_text] returns holds only characters of the source
    and of the answer of the service. *)
Lemma translate_text_chars service policy text target_lang source_lang w :
  forallb p text = true ->
  (forall log req t, service log req = Translated t -> forallb p t = true) ->
  forallb p (fst (fst (XLIFFTranslator.translate_text service policy text
                         target_lang source_lang w))) = true.
Proof.
  intros Ht Hservice. unfold XLIFFTranslator.translate_text.
  destruct (XLIFFTranslator.should_skip_translation text); [exact Ht|].
  pose proof (forallb_extracted text Ht) as Hph.
  destruct (XLIFFTranslator.extract_placeholders text) as [t ph].
  cbn [snd] in Hph.
  destruct (is_empty (strip t)); [exact Ht|].
  destruct (service _ _) as [translated|msg] eqn:E; [|exact Ht].
  apply Hservice in E.
  assert (Hr : forallb p (if negb (is_empty ph)
                          then XLIFFTranslator.restore_placeholders translated ph
                          else translated) = true).
  { destruct (negb (is_empty ph)); [|exact E].
    now apply forallb_restore_placeholders. }
  destruct (PlaceholderValidator.validate text _) as [[|] err];
    cbn [negb fst]; [exact Hr|].
  destruct policy; cbn [fst]; [exact Ht | exact Hr].
Qed.

End Characters.

(** ** The loop over the units *)

Section Loop.

Variable service : list request -> request -> response.
Variable policy : bool.
Variable xml_char : char -> bool.
Variables xliff_path target_lang source_lang : str.

Let process_unit :=
  XLIFFTranslator.process_unit service policy xml_char xliff_path target_lang
    source_lang.
Let process_units :=
  XLIFFTranslator.process_units service policy xml_char xliff_path target_lang
    source_lang.
Let translate (s : str) (w : world) :=
  XLIFFTranslator.translate_text service policy s target_lang source_lang w.
Let accepted := XLIFFTranslator.text_accepted xml_char.
Let busy :=
  process_unit_busy service policy xml_char xliff_path target_lang source_lang.
Let idle :=
  process_unit_idle service policy xml_char xliff_path target_lang source_lang.

(** *** When the loop returns *)

Lemma process_unit_returns dry_run only_missing u st :
  (forall log req t, service log req = Translated t -> accepted t = true) ->
  (forall s, unit_source u = Some (Some s) -> accepted s = true) ->
  exists u' st', process_unit dry_run only_missing u st = Returns (u', st').
Proof.
  intros Hservice Hsource.
  destruct (needs_translation only_missing u) eqn:Hn.
  - destruct (needs_translation_inv _ _ Hn) as (s & Hsrc & Hs & Hd).
    unfold process_unit. rewrite (busy dry_run only_missing u s) by assumption.
    cbv zeta. unfold XLIFFTranslator.text_accepted.
    rewrite (translate_text_chars xml_char service policy s target_lang
               source_lang (XLIFFTranslator.ls_world st) (Hsource s Hsrc)
               Hservice).
    rewrite andb_false_r. eauto.
  - unfold process_unit. rewrite (idle dry_run only_missing u st Hn). eauto.
Qed.

Lemma process_units_returns dry_run only_missing units st :
  (forall log req t, service log req = Translated t -> accepted t = true) ->
  Forall (fun u => forall s, unit_source u = Some (Some s) -> accepted s = true)
    units ->
  exists units' st',
    process_units dry_run only_missing units st = Returns (units', st').
Proof.
  intros Hservice Hunits. revert st.
  induction Hunits as [|u units Hu _ IH]; intros st.
  - exists [], st. reflexivity.
  - unfold process_units. cbn [XLIFFTranslator.process_units].
    destruct (process_unit_returns dry_run only_missing u st Hservice Hu)
      as (u' & st1 & E).
    unfold process_unit in E. rewrite E. cbn [and_then].
    destruct (IH st1) as (units' & st2 & E2).
    unfold process_units in E2. rewrite E2. cbn [and_then]. eauto.
Qed.

(** The loop of a real run returns, whatever the units hold, when the
    service answers with text the back end accepts and the source texts,
    as the parser gave them, are accepted too: the texts it assigns are made
    of their characters. *)
Theorem real_loop_returns_on_clean_text only_missing units st :
  (forall log req t, service log req = Translated t -> accepted t = true) ->
  Forall (fun u => forall s, unit_source u = Some (Some s) -> accepted s = true)
    units ->
  exists units' st',
    process_units false only_missing units st = Returns (units', st').
Proof. apply process_units_returns. Qed.

(** *** A dry run and a real run *)

Lemma process_unit_agree only_missing u st1 st2 ur r :
  XLIFFTranslator.translated_count st1 = XLIFFTranslator.translated_count st2 ->
  XLIFFTranslator.error_count st1 = XLIFFTranslator.error_count st2 ->
  XLIFFTranslator.ls_world st1 = XLIFFTranslator.ls_world st2 ->
  process_unit false only_missing u st2 = Returns (ur, r) ->
  exists ud d,
    process_unit true only_missing u st1 = Returns (ud, d)
    /\ XLIFFTranslator.translated_count d = XLIFFTranslator.translated_count r
    /\ XLIFFTranslator.error_count d = XLIFFTranslator.error_count r
    /\ XLIFFTranslator.ls_world d = XLIFFTranslator.ls_world r.
Proof.
  intros Ht He Hw. unfold process_unit.
  destruct (needs_translation only_missing u) eqn:Hn.
  - destruct (needs_translation_inv _ _ Hn) as (s & Hsrc & Hs & Hd).
    rewrite !(busy _ only_missing u s) by assumption. cbv zeta.
    cbn [negb andb]. rewrite Hw.
    destruct (XLIFFTranslator.text_accepted xml_char _); cbn [negb];
      [|discriminate].
    intros [= <- <-]. eexists _, _. split; [reflexivity|].
    cbn [XLIFFTranslator.translated_count XLIFFTranslator.error_count
         XLIFFTranslator.ls_world].
    rewrite Ht, He. auto.
  - rewrite !idle by assumption. intros [= <- <-]. exists u, st1. auto.
Qed.

Lemma process_units_agree only_missing units st1 st2 ur r :
  XLIFFTranslator.translated_count st1 = XLIFFTranslator.translated_count st2 ->
  XLIFFTranslator.error_count st1 = XLIFFTranslator.error_count st2 ->
  XLIFFTranslator.ls_world st1 = XLIFFTranslator.ls_world st2 ->
  process_units false only_missing units st2 = Returns (ur, r) ->
  exists ud d,
    process_units true only_missing units st1 = Returns (ud, d)
    /\ XLIFFTranslator.translated_count d = XLIFFTranslator.translated_count r
    /\ XLIFFTranslator.error_count d = XLIFFTranslator.error_count r
    /\ XLIFFTranslator.ls_world d = XLIFFTranslator.ls_world r.
Proof.
  revert st1 st2 ur r. induction units as [|u units IH];
    intros st1 st2 ur r Ht He Hw.
  - intros [= <- <-]. exists [], st1. auto.
  - unfold process_units. cbn [XLIFFTranslator.process_units].
    fold (process_unit false only_missing u st2).
    destruct (process_unit false only_missing u st2) as [[u2 st2']|w2] eqn:Eu;
      [|discriminate].
    destruct (process_unit_agree only_missing u st1 st2 u2 st2' Ht He Hw Eu)
      as (u1 & st1' & Eu1 & Ht' & He' & Hw').
    unfold process_unit in Eu1. rewrite Eu1. cbn [and_then].
    fold (process_units false only_missing units st2').
    destruct (process_units false only_missing units st2')
      as [[us2 st2'']|w2] eqn:Eus; [|discriminate].
    destruct (IH st1' st2' us2 st2'' Ht' He' Hw' Eus) as (us1 & d & Eus1 & Hd).
    unfold process_units in Eus1. rewrite Eus1. cbn [and_then].
    intros [= <- <-]. exists (u1 :: us1), d. split; [reflexivity | exact Hd].
Qed.

(** *** What the loop keeps count of *)

Lemma div10_step (n : nat) :
  (S n / 10 = n / 10 + (if S n mod 10 =? 0 then 1 else 0))%nat.
Proof.
  pose proof (Nat.div_mod_eq (S n) 10) as H1.
  pose proof (Nat.div_mod_eq n 10) as H2.
  pose proof (Nat.mod_upper_bound (S n) 10 ltac:(lia)) as B1.
  pose proof (Nat.mod_upper_bound n 10 ltac:(lia)) as B2.
  destruct (Nat.eqb_spec (S n mod 10) 0); lia.
Qed.

Lemma process_unit_accounting dry_run only_missing u st :
  match process_unit dry_run only_missing u st with
  | Returns (_, st') =>
      exists new,
        w_errors (XLIFFTranslator.ls_world st')
        = w_errors (XLIFFTranslator.ls_world st) ++ new
        /\ XLIFFTranslator.error_count st'
           = (XLIFFTranslator.error_count st + length new)%nat
        /\ (XLIFFTranslator.translated_count st
            <= XLIFFTranslator.translated_count st')%nat
        /\ (XLIFFTranslator.translated_count st + length new
            <= XLIFFTranslator.translated_count st')%nat
        /\ Forall (fun e => er_file e = path_name xliff_path
                            /\ (length (er_text e) <= 50)%nat) new
        /\ (length (w_calls (XLIFFTranslator.ls_world st'))
            + XLIFFTranslator.translated_count st
            <= length (w_calls (XLIFFTranslator.ls_world st))
               + XLIFFTranslator.translated_count st')%nat
        /\ (w_sleeps (XLIFFTranslator.ls_world st')
            + XLIFFTranslator.translated_count st / 10
            = w_sleeps (XLIFFTranslator.ls_world st)
              + XLIFFTranslator.translated_count st' / 10)%nat
  | Raised w' =>
      dry_run = false
      /\ exists new,
           w_errors w' = w_errors (XLIFFTranslator.ls_world st) ++ new
           /\ Forall (fun e => er_file e = path_name xliff_path
                               /\ (length (er_text e) <= 50)%nat) new
           /\ (length (w_calls w')
               <= S (length (w_calls (XLIFFTranslator.ls_world st))))%nat
           /\ w_sleeps w' = w_sleeps (XLIFFTranslator.ls_world st)
  end.
Proof.
  unfold process_unit. destruct (needs_translation only_missing u) eqn:Hn.
  - destruct (needs_translation_inv _ _ Hn) as (s & Hsrc & Hs & Hd).
    rewrite (busy dry_run only_missing u s) by assumption.
    cbv zeta. fold (translate s (XLIFFTranslator.ls_world st)).
    destruct (translate_text_frame service target_lang source_lang policy s
                (XLIFFTranslator.ls_world st)) as (Hc & _ & He & Hsl & _).
    fold (translate s (XLIFFTranslator.ls_world st)) in Hc, He, Hsl.
    destruct (translate s (XLIFFTranslator.ls_world st)) as [[tt e] w1].
    cbn [fst snd] in *.
    assert (Hcalls : (length (w_calls w1)
                      <= S (length (w_calls (XLIFFTranslator.ls_world st))))%nat).
    { destruct Hc as [-> | ->]; [lia|]. rewrite length_app. cbn. lia. }
    pose proof (div10_step (XLIFFTranslator.translated_count st)) as Hdiv.
    assert (Htake : (length (take 50 s) <= 50)%nat)
      by (rewrite length_take; lia).
    destruct (negb dry_run && negb (XLIFFTranslator.text_accepted xml_char tt))
      eqn:Eraise.
    + apply andb_true_iff in Eraise as [Edry _]. apply negb_true_iff in Edry.
      split; [exact Edry|]. destruct e as [e|].
      * exists [{| er_file := path_name xliff_path; er_text := take 50 s;
                   er_error := e |}].
        cbn [append_error w_errors w_calls w_sleeps]. rewrite He.
        repeat split; try assumption.
        constructor; [split; [reflexivity | exact Htake] | constructor].
      * exists []. rewrite He, app_nil_r. repeat split; try assumption.
        constructor.
    + cbn [XLIFFTranslator.translated_count XLIFFTranslator.error_count
           XLIFFTranslator.ls_world].
      destruct e as [e|].
      * exists [{| er_file := path_name xliff_path; er_text := take 50 s;
                   er_error := e |}].
        destruct (S (XLIFFTranslator.translated_count st) mod 10 =? 0)%nat;
          cbn [sleep append_error w_errors w_calls w_sleeps length];
          rewrite He, Hsl; repeat split; try lia;
          (constructor; [split; [reflexivity | exact Htake] | constructor]).
      * exists [].
        destruct (S (XLIFFTranslator.translated_count st) mod 10 =? 0)%nat;
          cbn [sleep w_errors w_calls w_sleeps length];
          rewrite He, Hsl, ?app_nil_r; repeat split; try lia; constructor.
  - rewrite idle by assumption. exists []. cbn [length].
    rewrite app_nil_r. repeat split; try lia; constructor.
Qed.

Lemma process_units_accounting dry_run only_missing units st :
  match process_units dry_run only_missing units st with
  | Returns (_, st') =>
      exists new,
        w_errors (XLIFFTranslator.ls_world st')
        = w_errors (XLIFFTranslator.ls_world st) ++ new
        /\ XLIFFTranslator.error_count st'
           = (XLIFFTranslator.error_count st + length new)%nat
        /\ (XLIFFTranslator.translated_count st
            <= XLIFFTranslator.translated_count st')%nat
        /\ (XLIFFTranslator.translated_count st + length new
            <= XLIFFTranslator.translated_count st')%nat
        /\ Forall (fun e => er_file e = path_name xliff_path
                            /\ (length (er_text e) <= 50)%nat) new
        /\ (length (w_calls (XLIFFTranslator.ls_world st'))
            + XLIFFTranslator.translated_count st
            <= length (w_calls (XLIFFTranslator.ls_world st))
               + XLIFFTranslator.translated_count st')%nat
        /\ (w_sleeps (XLIFFTranslator.ls_world st')
            + XLIFFTranslator.translated_count st / 10
            = w_sleeps (XLIFFTranslator.ls_world st)
              + XLIFFTranslator.translated_count st' / 10)%nat
  | Raised w' =>
      dry_run = false
      /\ exists new counted,
           w_errors w' = w_errors (XLIFFTranslator.ls_world st) ++ new
           /\ Forall (fun e => er_file e = path_name xliff_path
                               /\ (length (er_text e) <= 50)%nat) new
           /\ (XLIFFTranslator.translated_count st <= counted)%nat
           /\ (length (w_calls w') + XLIFFTranslator.translated_count st
               <= S (length (w_calls (XLIFFTranslator.ls_world st)) + counted))%nat
           /\ (w_sleeps w' + XLIFFTranslator.translated_count st / 10
               = w_sleeps (XLIFFTranslator.ls_world st) + counted / 10)%nat
  end.
Proof.
  revert st. induction units as [|u units IH]; intros st.
  - exists []. cbn. rewrite app_nil_r. repeat split; try lia; constructor.
  - unfold process_units. cbn [XLIFFTranslator.process_units].
    fold (process_unit dry_run only_missing u st).
    pose proof (process_unit_accounting dry_run only_missing u st) as Hu.
    destruct (process_unit dry_run only_missing u st) as [[u1 st1]|w1].
    + destruct Hu as (n1 & E1 & C1 & T1 & B1 & F1 & K1 & S1).
      cbn [and_then]. fold (process_units dry_run only_missing units st1).
      specialize (IH st1).
      destruct (process_units dry_run only_missing units st1)
        as [[units2 st2]|w2]; cbn [and_then].
      * destruct IH as (n2 & E2 & C2 & T2 & B2 & F2 & K2 & S2).
        exists (n1 ++ n2). rewrite E2, E1, C2, C1, length_app, <- app_assoc.
        repeat split; try lia. now apply Forall_app.
      * destruct IH as (Hdry & n2 & counted & E2 & F2 & T2 & K2 & S2).
        split; [exact Hdry|]. exists (n1 ++ n2), counted.
        rewrite E2, E1, <- app_assoc.
        repeat split; try lia. now apply Forall_app.
    + cbn [and_then]. destruct Hu as (Hdry & n1 & E1 & F1 & K1 & S1).
      split; [exact Hdry|].
      exists n1, (XLIFFTranslator.translated_count st).
      repeat split; try assumption; lia.
Qed.

(** The errors the loop counts are the entries it appends to [self.errors]:
    when the loop returns there are as many, never more than the units
    counted as translated; each entry carries the name of the file and at
    most fifty characters of the source text, and this also holds of the
    entries appended before an assignment the back end refuses. *)
Theorem loop_error_accounting dry_run only_missing units (w : world) :
  match process_units dry_run only_missing units (initial_state w) with
  | Returns (_, st') =>
      (XLIFFTranslator.error_count st' <= XLIFFTranslator.translated_count st')%nat
      /\ exists new,
           w_errors (XLIFFTranslator.ls_world st') = w_errors w ++ new
           /\ length new = XLIFFTranslator.error_count st'
           /\ Forall (fun e => er_file e = path_name xliff_path
                               /\ (length (er_text e) <= 50)%nat) new
  | Raised w' =>
      dry_run = false
      /\ exists new,
           w_errors w' = w_errors w ++ new
           /\ Forall (fun e => er_file e = path_name xliff_path
                               /\ (length (er_text e) <= 50)%nat) new
  end.
Proof.
  pose proof (process_units_accounting dry_run only_missing units
                (initial_state w)) as H.
  destruct (process_units dry_run only_missing units (initial_state w))
    as [[units' st']|w'].
  - destruct H as (new & E & C & T & B & F & K & S).
    cbn [initial_state XLIFFTranslator.error_count
         XLIFFTranslator.translated_count XLIFFTranslator.ls_world] in *.
    split; [lia|]. exists new. repeat split; [assumption | lia | assumption].
  - destruct H as (Hdry & new & counted & E & F & _).
    split; [exact Hdry|]. exists new. split; assumption.
Qed.


(** *** What a real run leaves in the units *)

Lemma process_unit_stamps only_missing u st :
  match process_unit false only_missing u st with
  | Returns (u', _) =>
      unit_source u' = unit_source u
      /\ if needs_translation only_missing u
         then exists t,
                unit_target u'
                = Some {| target_text := Some t;
                          target_state := Some (lit "translated") |}
                /\ accepted t = true
         else u' = u
  | Raised _ =>
      needs_translation only_missing u = true
      /\ exists s,
           unit_source u = Some (Some s)
           /\ accepted (fst (fst (translate s (XLIFFTranslator.ls_world st))))
              = false
  end.
Proof.
  unfold process_unit. destruct (needs_translation only_missing u) eqn:Hn.
  - destruct (needs_translation_inv _ _ Hn) as (s & Hsrc & Hs & Hd).
    rewrite (busy false only_missing u s) by assumption. cbv zeta.
    cbn [negb andb].
    unfold accepted, translate.
    destruct (XLIFFTranslator.text_accepted xml_char _) eqn:Ea; cbn [negb].
    + split; [reflexivity|]. cbn [unit_target]. eauto.
    + split; [reflexivity|]. exists s. split; assumption.
  - rewrite idle by assumption. split; reflexivity.
Qed.

Lemma process_units_stamps only_missing units st :
  match process_units false only_missing units st with
  | Returns (units', _) =>
      Forall2
        (fun u u' =>
           unit_source u' = unit_source u
           /\ if needs_translation only_missing u
              then exists t,
                     unit_target u'
                     = Some {| target_text := Some t;
                               target_state := Some (lit "translated") |}
                     /\ accepted t = true
              else u' = u)
        units units'
  | Raised _ =>
      exists u s w0,
        u ∈ units /\ needs_translation only_missing u = true
        /\ unit_source u = Some (Some s)
        /\ accepted (fst (fst (translate s w0))) = false
  end.
Proof.
  revert st. induction units as [|u units IH]; intros st.
  - constructor.
  - unfold process_units. cbn [XLIFFTranslator.process_units].
    fold (process_unit false only_missing u st).
    pose proof (process_unit_stamps only_missing u st) as Hu.
    destruct (process_unit false only_missing u st) as [[u1 st1]|w1].
    + cbn [and_then]. fold (process_units false only_missing units st1).
      specialize (IH st1).
      destruct (process_units false only_missing units st1)
        as [[units2 st2]|w2]; cbn [and_then].
      * constructor; assumption.
      * destruct IH as (v & s & w0 & Hin & Hrest).
        exists v, s, w0. split; [now apply list_elem_of_further | exact Hrest].
    + cbn [and_then]. destruct Hu as (Hn & s & Hsrc & Ha).
      exists u, s, (XLIFFTranslator.ls_world st).
      split; [apply list_elem_of_here | auto].
Qed.

(** When the loop of a real run returns, every unit that needed translation
    has a target with a text the back end accepted and the state
    [translated]; every other unit is as it was, and no source is changed.
    When it does not return, the back end refused the text returned for a
    unit that needed translation. *)
Theorem real_run_stamps_units only_missing units st :
  match process_units false only_missing units st with
  | Returns (units', _) =>
      Forall2
        (fun u u' =>
           unit_source u' = unit_source u
           /\ if needs_translation only_missing u
              then exists t,
                     unit_target u'
                     = Some {| target_text := Some t;
                               target_state := Some (lit "translated") |}
                     /\ accepted t = true
              else u' = u)
        units units'
  | Raised _ =>
      exists u s w0,
        u ∈ units /\ needs_translation only_missing u = true
        /\ unit_source u = Some (Some s)
        /\ accepted (fst (fst (translate s w0))) = false
  end.
Proof. apply process_units_stamps. Qed.

(** A unit that needs translation and whose source the skip policy passes
    over (placeholders, a unit literal, punctuation) is still counted as
    translated by a real run: its target becomes a copy of the source with
    the state [translated], no call is made and no error is counted.  The
    back end accepts the copy whenever it accepts the source, as it does
    for a source it has parsed. *)
Theorem skipped_source_copied_to_target only_missing u s st :
  needs_translation only_missing u = true ->
  unit_source u = Some (Some s) ->
  XLIFFTranslator.should_skip_translation s = true ->
  process_unit false only_missing u st
  = if accepted s
    then Returns
           ({| unit_source := Some (Some s);
               unit_target := Some {| target_text := Some s;
                                      target_state := Some (lit "translated") |} |},
            {| XLIFFTranslator.translated_count :=
                 S (XLIFFTranslator.translated_count st);
               XLIFFTranslator.error_count := XLIFFTranslator.error_count st;
               XLIFFTranslator.modified := true;
               XLIFFTranslator.ls_world :=
                 if (S (XLIFFTranslator.translated_count st) mod 10 =? 0)%nat
                 then sleep (XLIFFTranslator.ls_world st)
                 else XLIFFTranslator.ls_world st |})
    else Raised (XLIFFTranslator.ls_world st).
Proof.
  intros Hn Hsrc Hskip.
  destruct (needs_translation_inv _ _ Hn) as (s' & Hsrc' & Hs & Hd).
  assert (s' = s) by congruence. subst s'.
  unfold process_unit. rewrite (busy false only_missing u s) by assumption.
  rewrite (translate_text_skipped service target_lang source_lang policy s
             (XLIFFTranslator.ls_world st) (or_introl Hskip)).
  cbv zeta. cbn [fst snd negb andb].
  unfold accepted.
  destruct (XLIFFTranslator.text_accepted xml_char s); cbn [negb];
    [|reflexivity].
  rewrite Hsrc. reflexivity.
Qed.

End Loop.

Lemma skipped_source_copied_to_target_witness :
  XLIFFTranslator.process_unit (failing (lit "offline")) true lxml_char
    sample_path (lit "fr") (lit "en") false false
    {| unit_source := Some (Some (lit "%@")); unit_target := None |}
    (initial_state empty_world)
  = Returns
      ({| unit_source := Some (Some (lit "%@"));
          unit_target := Some {| target_text := Some (lit "%@");
                                 target_state := Some (lit "translated") |} |},
       {| XLIFFTranslator.translated_count := 1;
          XLIFFTranslator.error_count := 0;
          XLIFFTranslator.modified := true;
          XLIFFTranslator.ls_world := empty_world |}).
Proof.
  apply (skipped_source_copied_to_target (failing (lit "offline")) true
           lxml_char sample_path (lit "fr") (lit "en") false
           {| unit_source := Some (Some (lit "%@")); unit_target := None |}
           (lit "%@") (initial_state empty_world));
    vm_compute; reflexivity.
Defined.

(** ** One file *)

Section OneFile.

Variable service : list request -> request -> response.
Variable policy : bool.
Variable xml_char : char -> bool.
Variable xml_frame : Type.
Variable parse : file_content -> option (xml_frame * list trans_unit).
Variable tree_write : xml_frame -> list trans_unit -> option file_content.
Variable os_linesep : str.
Variables target_lang source_lang : str.

Let process_xliff_file :=
  XLIFFTranslator.process_xliff_file service policy xml_char xml_frame parse
    tree_write os_linesep.
Let process_units (xliff_path : str) :=
  XLIFFTranslator.process_units service policy xml_char xliff_path target_lang
    source_lang.
Let accepted := XLIFFTranslator.text_accepted xml_char.

Lemma process_xliff_file_frame xliff_path src_lang dry_run only_missing w p :
  p <> xliff_path ->
  w_disk (XLIFFTranslator.world_after
            (process_xliff_file xliff_path target_lang src_lang dry_run
               only_missing w)) !! p
  = w_disk w !! p.
Proof.
  intros Hp. unfold process_xliff_file, XLIFFTranslator.process_xliff_file,
    XLIFFTranslator.on_exception.
  destruct (read_text xliff_path w) as [original|]; [|reflexivity].
  destruct (w_disk w !! xliff_path ≫= parse) as [[frame units]|];
    [|cbn; now rewrite lookup_insert_ne by congruence].
  pose proof (process_units_disk service policy xml_char xliff_path target_lang
                src_lang dry_run only_missing units (initial_state w)) as Hd.
  unfold initial_state in Hd.
  destruct (XLIFFTranslator.process_units _ _ _ _ _ _ _ _ units _)
    as [[units' st]|w1]; cbn [loop_world XLIFFTranslator.ls_world] in Hd;
    [|cbn; rewrite lookup_insert_ne by congruence; now rewrite Hd].
  destruct (negb dry_run && XLIFFTranslator.modified st);
    [|cbn; now rewrite Hd].
  destruct (tree_write frame units') as [written|];
    [|cbn; rewrite lookup_insert_ne by congruence; now rewrite Hd].
  cbv zeta.
  destruct (read_text xliff_path _) as [test|];
    [destruct (negb _)|]; cbn;
    rewrite ?lookup_insert_ne by congruence; now rewrite Hd.
Qed.

(** Whatever happens, [process_xliff_file] changes no file but the one it is
    given. *)
Theorem other_files_untouched xliff_path dry_run only_missing w p :
  p <> xliff_path ->
  w_disk (XLIFFTranslator.world_after
            (process_xliff_file xliff_path target_lang source_lang dry_run
               only_missing w)) !! p
  = w_disk w !! p.
Proof. apply process_xliff_file_frame. Qed.

(** A file that is missing, or that is not UTF-8, gives [(0, 1)]: nothing is
    written, no call is made and nothing is appended to [self.errors]; only
    the error line is printed. *)
Theorem unreadable_file_reported xliff_path dry_run only_missing w :
  (w_disk w !! xliff_path = None
   \/ exists bytes, w_disk w !! xliff_path = Some (NotUtf8 bytes)) ->
  let o := process_xliff_file xliff_path target_lang source_lang dry_run
             only_missing w in
  XLIFFTranslator.result o = (0, 1)%nat
  /\ XLIFFTranslator.units_after o = None
  /\ w_disk (XLIFFTranslator.world_after o) = w_disk w
  /\ w_calls (XLIFFTranslator.world_after o) = w_calls w
  /\ w_errors (XLIFFTranslator.world_after o) = w_errors w
  /\ w_stdout (XLIFFTranslator.world_after o)
     = w_stdout w ++ [ErrorProcessingLine (path_name xliff_path)].
Proof.
  intros H. cbv zeta.
  unfold process_xliff_file, XLIFFTranslator.process_xliff_file, read_text.
  destruct H as [-> | [bytes ->]]; cbn; auto 10.
Qed.

Lemma process_units_all_idle xliff_path dry_run only_missing units st :
  Forall (fun u => needs_translation only_missing u = false) units ->
  process_units xliff_path dry_run only_missing units st = Returns (units, st).
Proof.
  unfold process_units. induction 1 as [|u units Hu _ IH]; [reflexivity|].
  cbn [XLIFFTranslator.process_units].
  rewrite (process_unit_idle service policy xml_char xliff_path target_lang
             source_lang dry_run only_missing u st Hu).
  cbn [and_then]. rewrite IH. reflexivity.
Qed.

(** A file in which no unit needs translation is not written again, even by
    a real run: the call returns [(0, 0)] and leaves the world as it was. *)
Theorem nothing_to_translate_no_write xliff_path dry_run only_missing w
    chars frame units :
  w_disk w !! xliff_path = Some (Utf8 chars) ->
  parse (Utf8 chars) = Some (frame, units) ->
  Forall (fun u => needs_translation only_missing u = false) units ->
  process_xliff_file xliff_path target_lang source_lang dry_run only_missing w
  = {| XLIFFTranslator.result := (0, 0)%nat;
       XLIFFTranslator.units_after := Some units;
       XLIFFTranslator.world_after := w |}.
Proof.
  intros Hdisk Hparse Hidle.
  unfold process_xliff_file, XLIFFTranslator.process_xliff_file, read_text.
  rewrite Hdisk. cbn [mbind option_bind]. rewrite Hparse.
  fold (initial_state w). fold (process_units xliff_path).
  rewrite (process_units_all_idle xliff_path dry_run only_missing units
             (initial_state w) Hidle).
  cbn. rewrite andb_false_r. reflexivity.
Qed.

(** When the tree writer leaves a file that passes the verification, the
    service answers with text the back end accepts and the back end accepts
    the source texts it parsed, a dry run returns the very pair a real run
    returns, after the same calls to the service and the same entries in
    [self.errors]. *)
Theorem dry_run_predicts_real_run xliff_path only_missing w chars frame units :
  w_disk w !! xliff_path = Some (Utf8 chars) ->
  parse (Utf8 chars) = Some (frame, units) ->
  (forall units', exists written,
      tree_write frame units' = Some written /\ verified written = true) ->
  (forall log req t, service log req = Translated t -> accepted t = true) ->
  Forall (fun u => forall s, unit_source u = Some (Some s) -> accepted s = true)
    units ->
  let dry := process_xliff_file xliff_path target_lang source_lang true
               only_missing w in
  let real := process_xliff_file xliff_path target_lang source_lang false
                only_missing w in
  XLIFFTranslator.result dry = XLIFFTranslator.result real
  /\ w_calls (XLIFFTranslator.world_after dry)
     = w_calls (XLIFFTranslator.world_after real)
  /\ w_errors (XLIFFTranslator.world_after dry)
     = w_errors (XLIFFTranslator.world_after real).
Proof.
  intros Hdisk Hparse Hver Hservice Hunits. cbv zeta.
  unfold process_xliff_file, XLIFFTranslator.process_xliff_file, read_text.
  rewrite Hdisk. cbn [mbind option_bind]. rewrite Hparse.
  fold (initial_state w).
  destruct (process_units_returns service policy xml_char xliff_path
              target_lang source_lang false only_missing units
              (initial_state w) Hservice Hunits) as (unitsr & str_ & Er).
  destruct (process_units_agree service policy xml_char xliff_path target_lang
              source_lang only_missing units (initial_state w)
              (initial_state w) unitsr str_ eq_refl eq_refl eq_refl Er)
    as (unitsd & std & Ed & Ht & He & Hw).
  rewrite Er, Ed.
  cbn [fst snd negb andb] in *.
  destruct (XLIFFTranslator.modified str_); cbn [andb].
  - destruct (Hver unitsr) as (written & -> & Hv). cbv zeta.
    unfold read_text, write_text, store. cbn [w_disk].
    rewrite !lookup_insert_eq.
    unfold verified in Hv. destruct written as [text|]; [|discriminate].
    rewrite Hv. cbn. rewrite Ht, He, Hw. auto.
  - cbn. rewrite Ht, He, Hw. auto.
Qed.

(** When the back end refuses a text in the loop of a real run, the call
    returns [(0, 1)] from the handler: the units translated before are
    lost, the file holds the text read at the start, written back in text
    mode, and the refusal is printed but not entered in [self.errors].  A
    dry run of the same file does not show it: it counts at least one
    unit. *)
Theorem refused_text_abandons_file xliff_path only_missing w chars frame units
    w1 :
  w_disk w !! xliff_path = Some (Utf8 chars) ->
  parse (Utf8 chars) = Some (frame, units) ->
  process_units xliff_path false only_missing units (initial_state w)
  = Raised w1 ->
  let real := process_xliff_file xliff_path target_lang source_lang false
                only_missing w in
  let dry := process_xliff_file xliff_path target_lang source_lang true
               only_missing w in
  XLIFFTranslator.result real = (0, 1)%nat
  /\ XLIFFTranslator.units_after real = None
  /\ w_disk (XLIFFTranslator.world_after real)
     = <[xliff_path := Utf8 (with_linesep os_linesep (universal_newlines chars))]>
         (w_disk w)
  /\ w_errors (XLIFFTranslator.world_after real) = w_errors w1
  /\ w_stdout (XLIFFTranslator.world_after real)
     = w_stdout w1 ++ [ErrorProcessingLine (path_name xliff_path)]
  /\ (0 < fst (XLIFFTranslator.result dry))%nat.
Proof.
  intros Hdisk Hparse Hraised. cbv zeta.
  unfold process_xliff_file, XLIFFTranslator.process_xliff_file, read_text.
  rewrite Hdisk. cbn [mbind option_bind]. rewrite Hparse.
  fold (initial_state w).
  pose proof (process_units_disk service policy xml_char xliff_path target_lang
                source_lang false only_missing units (initial_state w)) as Hd.
  pose proof (process_units_stamps service policy xml_char xliff_path
                target_lang source_lang only_missing units (initial_state w))
    as Hst.
  unfold process_units in Hraised. rewrite Hraised in Hd, Hst. rewrite Hraised.
  cbn [loop_world initial_state XLIFFTranslator.ls_world] in Hd.
  destruct Hst as (u & s & w0 & Hin & Hn & _).
  destruct (process_units_dry_run service policy xml_char xliff_path
              target_lang source_lang only_missing units (initial_state w))
    as (unitsd & std & Ed & _ & _ & Hmod & _ & Hcount).
  rewrite Ed.
  cbn [XLIFFTranslator.on_exception XLIFFTranslator.result
       XLIFFTranslator.units_after XLIFFTranslator.world_after negb andb fst].
  repeat split.
  - unfold write_text, store, with_linesep. cbn [w_disk print]. now rewrite Hd.
  - rewrite Hcount.
    assert (Hnz : length (List.filter (needs_translation only_missing) units)
                  <> 0%nat).
    { apply filter_length_nonzero. eauto. }
    lia.
Qed.

End OneFile.

(** ** The files of a folder *)

Section Files.

Variable service : list request -> request -> response.
Variable policy : bool.
Variable xml_char : char -> bool.
Variable xml_frame : Type.
Variable parse : file_content -> option (xml_frame * list trans_unit).
Variable tree_write : xml_frame -> list trans_unit -> option file_content.
Variable os_linesep : str.

Let process_files :=
  XLIFFTranslator.process_files service policy xml_char xml_frame parse
    tree_write os_linesep.

(** [results] is keyed by the name of the file, not by its path: after the
    loop it holds one entry for each distinct name, so that files of the
    same name in different subfolders share one entry. *)
Theorem results_keyed_by_file_name (xliff_files : list str) (target_lang : str)
    (dry_run only_missing : bool) (results : gmap str (nat * nat)) (w : world) :
  dom (fst (process_files xliff_files target_lang dry_run only_missing results w))
  = dom results ∪ list_to_set (path_name <$> xliff_files).
Proof.
  revert results w. induction xliff_files as [|f files IH]; intros results w.
  - cbn. rewrite (right_id_L ∅ (∪)). reflexivity.
  - unfold process_files in *.
    rewrite process_files_continues. cbv zeta. rewrite IH.
    rewrite dom_insert_L. cbn [fmap list_fmap list_to_set].
    rewrite (comm_L (∪) {[ path_name f ]} (dom results)), <- (assoc_L (∪)).
    reflexivity.
Qed.

(** The loop changes no file outside the list it is given. *)
Theorem files_outside_list_untouched (xliff_files : list str)
    (target_lang : str) (dry_run only_missing : bool)
    (results : gmap str (nat * nat)) (w : world) (p : str) :
  p ∉ xliff_files ->
  w_disk (snd (process_files xliff_files target_lang dry_run only_missing
                 results w)) !! p
  = w_disk w !! p.
Proof.
  revert results w. induction xliff_files as [|f files IH]; intros results w Hp.
  - reflexivity.
  - apply not_elem_of_cons in Hp as [Hpf Hp].
    unfold process_files in *.
    rewrite process_files_continues. cbv zeta. rewrite IH by assumption.
    cbn [print w_disk].
    rewrite (process_xliff_file_frame service policy xml_char xml_frame parse
               tree_write os_linesep target_lang f (lit "en") dry_run
               only_missing _ p Hpf).
    reflexivity.
Qed.

End Files.

Lemma files_outside_list_untouched_witness :
  w_disk (snd (XLIFFTranslator.process_files (answering (lit "Bonjour")) true
                 lxml_char unit sample_parse sample_write [LF] [sample_path]
                 (lit "fr") false false ∅
                 (store (lit "de.xcloc/de.xliff") (Utf8 (sample_xliff [LF]))
                    sample_world)))
    !! (lit "de.xcloc/de.xliff")
  = w_disk (store (lit "de.xcloc/de.xliff") (Utf8 (sample_xliff [LF]))
              sample_world)
      !! (lit "de.xcloc/de.xliff").
Proof.
  apply files_outside_list_untouched.
  intros H. apply list_elem_of_singleton in H. vm_compute in H. discriminate H.
Defined.

(** ** The language tables *)

(** A locale is supported exactly when it has a Google code, and that code
    is never empty: the test [if not target_lang] of
    [process_language_folder] fails for the unsupported locales only. *)
Theorem supported_locale_has_code (lang_code : str) :
  validate_language_code lang_code = true
  <-> exists code, get_google_translate_code lang_code = Some code
                   /\ truthy (Some code) = true.
Proof.
  unfold validate_language_code, get_google_translate_code.
  assert (Hall : map_Forall (fun _ code => truthy (Some code) = true) LANGUAGE_MAP).
  { assert (H : bool_decide
                  (map_Forall (fun _ code => truthy (Some code) = true)
                     LANGUAGE_MAP) = true) by (vm_compute; reflexivity).
    now apply bool_decide_eq_true_1 in H. }
  split.
  - intros H. apply bool_decide_eq_true_1 in H as [code Hc].
    exists code. split; [assumption|]. exact (Hall _ _ Hc).
  - intros (code & Hc & _). apply bool_decide_eq_true_2. eauto.
Qed.

(** Every language that has a display name is supported, and [iw] is the
    only supported locale without one: for every other supported locale
    [get_language_name] returns the name of the table, never the upper-cased
    code. *)
Theorem display_names_cover_all_but_iw (upper : str -> str) :
  (dom LANGUAGE_MAP = dom LANGUAGE_NAMES ∪ {[ lit "iw" ]})
  /\ (lit "iw" ∉ dom LANGUAGE_NAMES)
  /\ forall lang_code,
       validate_language_code lang_code = true -> lang_code <> lit "iw" ->
       LANGUAGE_NAMES !! lang_code = Some (get_language_name upper lang_code).
Proof.
  assert (Hdom : dom LANGUAGE_MAP = dom LANGUAGE_NAMES ∪ {[ lit "iw" ]}).
  { assert (H : bool_decide
                  (dom LANGUAGE_MAP = dom LANGUAGE_NAMES ∪ {[ lit "iw" ]}) = true)
      by (vm_compute; reflexivity).
    now apply bool_decide_eq_true_1 in H. }
  split; [exact Hdom|]. split.
  - assert (H : bool_decide (lit "iw" ∉ dom LANGUAGE_NAMES) = true)
      by (vm_compute; reflexivity).
    now apply bool_decide_eq_true_1 in H.
  - intros c Hc Hne. unfold validate_language_code in Hc.
    apply bool_decide_eq_true_1 in Hc. apply elem_of_dom in Hc.
    rewrite Hdom in Hc. apply elem_of_union in Hc as [Hc|Hc].
    + apply elem_of_dom in Hc as [name Hn]. unfold get_language_name.
      rewrite Hn. reflexivity.
    + apply elem_of_singleton in Hc. contradiction.
Qed.

(** ** The folders of a workspace *)

(** The name of the folder of a locale gives the locale back when
    [process_all_languages] strips [.xcloc] from it, as long as the locale
    holds no dot. *)
Theorem folder_name_gives_locale (lang_code : str) :
  46 ∉ lang_code ->
  str_replace (lit ".xcloc") [] (xcloc_name lang_code) = lang_code.
Proof.
  intros Hdot. unfold xcloc_name.
  rewrite str_replace_not_nil by discriminate.
  rewrite <- (app_nil_r (lit ".xcloc")) at 2.
  rewrite replace_from_no_start.
  - rewrite replace_from_here by discriminate. cbn. apply app_nil_r.
  - intros a1 a2 -> Hne. destruct a2 as [|c a2]; [contradiction|].
    assert (Hc : c <> 46).
    { intros ->. apply Hdot. apply elem_of_app. right. apply list_elem_of_here. }
    change (lit ".xcloc") with (46 :: lit "xcloc"). cbn [app starts_with].
    destruct (N.eqb_spec 46 c); [congruence | reflexivity].
Qed.

Lemma folder_name_gives_locale_witness :
  str_replace (lit ".xcloc") [] (xcloc_name (lit "zh-Hans")) = lit "zh-Hans".
Proof.
  apply folder_name_gives_locale. intros H.
  assert (E : bool_decide (46 ∈ lit "zh-Hans") = false) by (vm_compute; reflexivity).
  apply bool_decide_eq_false_1 in E. contradiction.
Defined.

Section Folders.

Variable service : list request -> request -> response.
Variable policy : bool.
Variable xml_char : char -> bool.
Variable xml_frame : Type.
Variable parse : file_content -> option (xml_frame * list trans_unit).
Variable tree_write : xml_frame -> list trans_unit -> option file_content.
Variable os_linesep : str.
Variable folder_exists : str -> bool.
Variable glob_xliff : str -> list str.
Variable xcloc_folders : list str.

Let language_folder :=
  process_language_folder service policy xml_char xml_frame parse tree_write
    os_linesep folder_exists glob_xliff.
Let folders :=
  process_folders service policy xml_char xml_frame parse tree_write
    os_linesep folder_exists glob_xliff.

(** A locale whose folder is missing, that is not in [LANGUAGE_MAP], or
    whose folder holds no XLIFF file, gives an empty result: no file is
    read or written, no call is made, no pause is taken. *)
Theorem language_folder_passed_over (lang_code : str)
    (dry_run only_missing : bool) (s : batch_state) :
  folder_exists (xcloc_name lang_code) = false
  \/ validate_language_code lang_code = false
  \/ glob_xliff (xcloc_name lang_code) = [] ->
  fst (language_folder lang_code dry_run only_missing s) = ∅
  /\ bs_world (snd (language_folder lang_code dry_run only_missing s))
     = bs_world s
  /\ bs_pauses (snd (language_folder lang_code dry_run only_missing s))
     = bs_pauses s.
Proof.
  intros H. unfold language_folder, process_language_folder. cbv zeta.
  destruct (folder_exists (xcloc_name lang_code)); cbn [negb]; [|cbn; auto].
  destruct H as [H|[H|H]]; [discriminate| |].
  - unfold validate_language_code in H. apply bool_decide_eq_false_1 in H.
    unfold get_google_translate_code.
    destruct (LANGUAGE_MAP !! lang_code) as [code|] eqn:E;
      [exfalso; apply H; eauto|]. cbn. auto.
  - destruct (negb (truthy _)); [cbn; auto|]. rewrite H. cbn. auto.
Qed.

Lemma language_folder_pauses lang_code dry_run only_missing s :
  bs_pauses (snd (language_folder lang_code dry_run only_missing s))
  = bs_pauses s.
Proof.
  unfold language_folder, process_language_folder. cbv zeta.
  destruct (negb (folder_exists _)); [reflexivity|].
  destruct (negb (truthy _)); [reflexivity|].
  destruct (is_empty _); [reflexivity|].
  destruct (XLIFFTranslator.process_files _ _ _ _ _ _ _ _ _ _ _ _ _);
    reflexivity.
Qed.

Lemma folders_keys (names skip : list str) (dry_run only_missing : bool)
    (results : gmap str (gmap str (nat * nat))) (s : batch_state) :
  let codes := str_replace (lit ".xcloc") [] <$> names in
  let kept := filter (fun c => c ∉ skip) codes in
  dom (fst (folders names skip dry_run only_missing results s))
  = dom results ∪ list_to_set kept
  /\ bs_pauses (snd (folders names skip dry_run only_missing results s))
     = (bs_pauses s + length kept)%nat.
Proof.
  cbv zeta. revert results s.
  induction names as [|name names IH]; intros results s.
  - cbn. split; [|lia]. rewrite (right_id_L ∅ (∪)). reflexivity.
  - unfold folders in *. cbn [process_folders fmap list_fmap]. cbv zeta.
    fold (language_folder (str_replace (lit ".xcloc") [] name) dry_run
            only_missing s).
    case_bool_decide as Hskip.
    + rewrite filter_cons_False by (intros Hn; exact (Hn Hskip)).
      destruct (IH results
                  (batch_print (SkipLine (str_replace (lit ".xcloc") [] name)) s))
        as [Hd Hn].
      split; [exact Hd | exact Hn].
    + rewrite filter_cons_True by assumption.
      pose proof (language_folder_pauses (str_replace (lit ".xcloc") [] name)
                    dry_run only_missing s) as Hp.
      destruct (language_folder _ dry_run only_missing s) as [lang_results s1].
      cbn [snd] in Hp.
      destruct (IH (<[str_replace (lit ".xcloc") [] name := lang_results]> results)
                  (batch_pause s1)) as [Hd Hn].
      rewrite Hd, Hn, dom_insert_L. cbn [list_to_set length batch_pause bs_pauses].
      rewrite Hp. split; [|lia].
      rewrite (assoc_L (∪)), (comm_L (∪) (dom results)). reflexivity.
Qed.

(** [process_all_languages] returns one entry, and pauses once, for every
    folder whose locale is not skipped, supported or not.  Without a skip
    list, or with an empty one, [en] is skipped. *)
Theorem all_languages_keys (skip_languages : option (list str))
    (dry_run only_missing : bool) (s : batch_state) :
  let out := process_all_languages service policy xml_char xml_frame parse
               tree_write os_linesep folder_exists glob_xliff xcloc_folders
               skip_languages dry_run only_missing s in
  let kept := filter (fun c => c ∉ effective_skip skip_languages)
                (str_replace (lit ".xcloc") [] <$> xcloc_folders) in
  dom (fst out) = list_to_set kept
  /\ bs_pauses (snd out) = (bs_pauses s + length kept)%nat
  /\ (skip_languages = None \/ skip_languages = Some [] ->
      lit "en" ∉ dom (fst out)).
Proof.
  cbv zeta. unfold process_all_languages. cbv zeta.
  destruct (folders_keys xcloc_folders (effective_skip skip_languages) dry_run
              only_missing ∅
              (batch_print (BannerLines (effective_skip skip_languages) dry_run
                              only_missing) s)) as [Hd Hp].
  unfold folders in Hd, Hp. rewrite Hd, Hp. cbn [batch_print bs_pauses].
  rewrite dom_empty_L, (left_id_L ∅ (∪)). repeat split.
  intros Hskip Hen. apply elem_of_list_to_set, list_elem_of_filter in Hen as [Hen _].
  apply Hen. destruct Hskip as [-> | ->]; apply list_elem_of_here.
Qed.

End Folders.

(** ** The further properties on sample inputs *)

Lemma other_files_untouched_witness :
  w_disk (XLIFFTranslator.world_after
            (XLIFFTranslator.process_xliff_file (answering (lit "Bonjour")) true
               lxml_char unit sample_parse sample_write [LF] sample_path
               (lit "fr") (lit "en") false false
               (store (lit "de.xcloc/de.xliff") (Utf8 (sample_xliff [LF]))
                  sample_world)))
    !! (lit "de.xcloc/de.xliff")
  = w_disk (store (lit "de.xcloc/de.xliff") (Utf8 (sample_xliff [LF]))
              sample_world)
      !! (lit "de.xcloc/de.xliff").
Proof.
  apply (other_files_untouched (answering (lit "Bonjour")) true lxml_char unit
           sample_parse sample_write [LF] (lit "fr") (lit "en") sample_path
           false false).
  vm_compute. discriminate.
Defined.

Lemma unreadable_file_reported_witness :
  XLIFFTranslator.result
    (XLIFFTranslator.process_xliff_file (answering (lit "Bonjour")) true
       lxml_char unit sample_parse sample_write [LF] sample_path (lit "fr")
       (lit "en") false false empty_world)
  = (0, 1)%nat.
Proof.
  refine (proj1 (unreadable_file_reported (answering (lit "Bonjour")) true
                   lxml_char unit sample_parse sample_write [LF] (lit "fr")
                   (lit "en") sample_path false false empty_world _)).
  left. reflexivity.
Defined.

Lemma nothing_to_translate_no_write_witness :
  XLIFFTranslator.process_xliff_file (answering (lit "Bonjour")) true lxml_char
    unit sample_parse sample_write [LF] sample_path (lit "fr") (lit "en")
    false false (world_with_file sample_path (Utf8 (translated_xliff [LF])))
  = {| XLIFFTranslator.result := (0, 0)%nat;
       XLIFFTranslator.units_after := Some [hello_unit (Some already_translated)];
       XLIFFTranslator.world_after :=
         world_with_file sample_path (Utf8 (translated_xliff [LF])) |}.
Proof.
  apply (nothing_to_translate_no_write (answering (lit "Bonjour")) true
           lxml_char unit sample_parse sample_write [LF] (lit "fr") (lit "en")
           sample_path false false
           (world_with_file sample_path (Utf8 (translated_xliff [LF])))
           (translated_xliff [LF]) tt).
  - vm_compute. reflexivity.
  - vm_compute. reflexivity.
  - repeat constructor.
Defined.

Lemma dry_run_predicts_real_run_witness :
  XLIFFTranslator.result
    (XLIFFTranslator.process_xliff_file (answering (lit "Bonjour")) true
       lxml_char unit sample_parse sample_write [LF] sample_path (lit "fr")
       (lit "en") true false sample_world)
  = XLIFFTranslator.result
      (XLIFFTranslator.process_xliff_file (answering (lit "Bonjour")) true
         lxml_char unit sample_parse sample_write [LF] sample_path (lit "fr")
         (lit "en") false false sample_world).
Proof.
  refine (proj1 (dry_run_predicts_real_run (answering (lit "Bonjour")) true
                   lxml_char unit sample_parse sample_write [LF] (lit "fr")
                   (lit "en") sample_path false sample_world
                   (sample_xliff [LF]) tt [hello_unit None] _ _ _ _ _)).
  - vm_compute. reflexivity.
  - vm_compute. reflexivity.
  - intros units'. unfold sample_write. eexists. split; [reflexivity|].
    unfold verified.
    destruct (document_of units' sample_documents) as [doc|] eqn:E;
      [|vm_compute; reflexivity].
    cbn [default]. unfold sample_documents in E. cbn [document_of] in E.
    repeat (case_bool_decide;
            [injection E as <-; vm_compute; reflexivity|]).
    discriminate E.
  - intros log req t [= <-]. vm_compute. reflexivity.
  - repeat constructor. intros s [= <-]. vm_compute. reflexivity.
Defined.

Lemma real_loop_returns_on_clean_text_witness :
  exists units' st',
    XLIFFTranslator.process_units (answering (lit "Bonjour")) true lxml_char
      sample_path (lit "fr") (lit "en") false false
      [hello_unit None; blank_unit; kg_unit] (initial_state empty_world)
    = Returns (units', st').
Proof.
  apply (real_loop_returns_on_clean_text (answering (lit "Bonjour")) true
           lxml_char sample_path (lit "fr") (lit "en") false
           [hello_unit None; blank_unit; kg_unit] (initial_state empty_world)).
  - intros log req t [= <-]. vm_compute. reflexivity.
  - repeat constructor; intros s [= <-]; vm_compute; reflexivity.
Defined.

Lemma refused_text_abandons_file_witness :
  XLIFFTranslator.result
    (XLIFFTranslator.process_xliff_file
       (answering answer_with_bell) true lxml_char unit
       sample_parse sample_write [LF] sample_path (lit "fr") (lit "en")
       false false sample_world)
  = (0, 1)%nat
  /\ (0 < fst (XLIFFTranslator.result
                 (XLIFFTranslator.process_xliff_file
                    (answering answer_with_bell) true
                    lxml_char unit sample_parse sample_write [LF] sample_path
                    (lit "fr") (lit "en") true false sample_world)))%nat.
Proof.
  destruct (refused_text_abandons_file
              (answering answer_with_bell) true lxml_char unit
              sample_parse sample_write [LF] (lit "fr") (lit "en") sample_path
              false sample_world (sample_xliff [LF]) tt [hello_unit None]
              (call_service {| req_source_lang := lit "en";
                               req_target_lang := lit "fr";
                               req_text := lit "Hello" |} sample_world))
    as (H1 & _ & _ & _ & _ & H6).
  - vm_compute. reflexivity.
  - vm_compute. reflexivity.
  - vm_compute. reflexivity.
  - split; [exact H1 | exact H6].
Defined.

Lemma language_folder_passed_over_witness :
  fst (process_language_folder (answering (lit "Bonjour")) true lxml_char unit
         sample_parse sample_write [LF] (fun _ => true)
         (fun _ => [sample_path]) (lit "tlh") false false empty_batch)
  = ∅.
Proof.
  refine (proj1 (language_folder_passed_over (answering (lit "Bonjour")) true
                   lxml_char unit sample_parse sample_write [LF]
                   (fun _ => true) (fun _ => [sample_path]) (lit "tlh") false
                   false empty_batch _)).
  right. left. vm_compute. reflexivity.
Defined.
